(** * resqpy: the hexagonal tri-mesh stencil and the frontier feature

    A shallow embedding of [resqpy/surface/_tri_mesh_stencil.py] and of
    [resqpy/organize/frontier_feature.py], with the properties that the
    design document states about them.

    Conventions of the embedding.
    - A Python [int] is a [Z]; [//] and [%] by a positive divisor are
      [Z.div] and [Z.modulo] (both round towards minus infinity).
    - A [float] is an exact rational or NaN ([float64] below): rounding,
      overflow and the infinities are left out, NaN and its comparison
      rules are kept.  The statements that depend on the values computed
      say so: they hold in exact arithmetic.
    - A one-dimensional numpy array is a [list]; a two-dimensional one is
      the list of its rows.  Integer indexing follows numpy: a negative
      index counts from the end and an index out of range raises
      [IndexError].
    - Exceptions are values of [exn]; code that can raise returns a
      [result]. Methods that log or allocate objects run in the monad [M]
      over a [world] made of the log and of the object store. *)

From Stdlib Require Import ZArith QArith Qcanon Qcabs Lia.
From stdpp Require Import base numbers list list_numbers strings gmap pretty.

Local Open Scope Z_scope.

(** ** Floating point values *)

Inductive float64 : Type :=
  | NaN : float64
  | Fin (q : Qc) : float64.

Global Instance float64_eq_dec : EqDecision float64.
Proof. solve_decision. Defined.

Global Instance float64_inhabited : Inhabited float64 := populate NaN.

Definition float_of_Z (k : Z) : float64 := Fin (Q2Qc (inject_Z k)).

Definition fzero : float64 := float_of_Z 0.
Definition fone : float64 := float_of_Z 1.

Definition isnan (x : float64) : bool :=
  match x with NaN => true | Fin _ => false end.

Definition fadd (x y : float64) : float64 :=
  match x, y with
  | Fin a, Fin b => Fin (a + b)%Qc
  | _, _ => NaN
  end.

Definition fsub (x y : float64) : float64 :=
  match x, y with
  | Fin a, Fin b => Fin (a - b)%Qc
  | _, _ => NaN
  end.

Definition fmul (x y : float64) : float64 :=
  match x, y with
  | Fin a, Fin b => Fin (a * b)%Qc
  | _, _ => NaN
  end.

(** Every division of the source has a divisor that was tested to be non
    zero, or is [6 * i] with [i >= 1]; a zero divisor gives NaN here. *)
Definition fdiv (x y : float64) : float64 :=
  match x, y with
  | Fin a, Fin b => if decide (b = 0%Qc) then NaN else Fin (a / b)%Qc
  | _, _ => NaN
  end.

Definition fabs (x : float64) : float64 :=
  match x with NaN => NaN | Fin a => Fin (Qcabs a) end.

(** [x == y]: false as soon as one side is NaN. *)
Definition feq (x y : float64) : bool :=
  match x, y with
  | Fin a, Fin b => bool_decide (a = b)
  | _, _ => false
  end.

(** [x != y]: true as soon as one side is NaN. *)
Definition fne (x y : float64) : bool := negb (feq x y).

(** [x <= y]: false as soon as one side is NaN. *)
Definition fle (x y : float64) : bool :=
  match x, y with
  | Fin a, Fin b => bool_decide (a ≤ b)%Qc
  | _, _ => false
  end.

Definition rel_tol : float64 := Fin (Q2Qc (1 # 1000000000)).
Definition abs_tol : float64 := fzero.

(** [math.isclose(a, b)] with its default tolerances, after CPython's
    [math_isclose_impl] (the test for infinities has nothing to test). *)
Definition isclose (a b : float64) : bool :=
  if feq a b then true
  else
    let diff := fabs (fsub b a) in
    fle diff (fabs (fmul rel_tol b))
    || fle diff (fabs (fmul rel_tol a))
    || fle diff abs_tol.

(** The sum of a one-dimensional array in exact arithmetic: what [np.sum]
    gives when none of its additions rounds.  Where a statement turns on
    the value of [np.sum] itself, the sum is a parameter instead (see
    [TriMeshStencil_init_with]). *)
Definition np_sum (l : list float64) : float64 := foldl fadd fzero l.

(** ** Exceptions and results *)

Inductive exn : Type :=
  | AssertionError (msg : string)
  | NotImplementedError (msg : string)
  | IndexError
  | ValueError
  | AttributeError.

Inductive result (A : Type) : Type :=
  | OK (a : A)
  | Raise (e : exn).
Global Arguments OK {A} a.
Global Arguments Raise {A} e.

Global Instance result_ret : MRet result := λ A a, OK a.
Global Instance result_bind : MBind result := λ A B f m,
  match m with OK a => f a | Raise e => Raise e end.
Global Instance result_fmap : FMap result := λ A B f m,
  match m with OK a => OK (f a) | Raise e => Raise e end.

(** A [for] loop whose body threads the loop state and may raise. *)
Fixpoint for_each {A S : Type} (body : S → A → result S) (s : S) (xs : list A)
    : result S :=
  match xs with
  | [] => OK s
  | x :: xs' => s' ← body s x; for_each body s' xs'
  end.

(** [range(lo, hi)] *)
Definition range (lo hi : Z) : list Z := seqZ lo (hi - lo).

(** ** Lists and arrays with Python indexing *)

Definition len {A} (l : list A) : Z := Z.of_nat (length l).

(** [l[k]] *)
Definition getitem {A} (l : list A) (k : Z) : result A :=
  let k' := if k <? 0 then k + len l else k in
  if (0 <=? k') && (k' <? len l) then
    match l !! Z.to_nat k' with Some x => OK x | None => Raise IndexError end
  else Raise IndexError.

(** [l[k] = x] *)
Definition setitem {A} (l : list A) (k : Z) (x : A) : result (list A) :=
  let k' := if k <? 0 then k + len l else k in
  if (0 <=? k') && (k' <? len l) then OK (<[Z.to_nat k' := x]> l)
  else Raise IndexError.

(** The position a slice bound denotes in a sequence of length [n]:
    negative bounds count from the end, and every bound is clipped. *)
Definition slice_bound (n : Z) (k : option Z) (default : Z) : Z :=
  match k with
  | None => default
  | Some k => if k <? 0 then Z.max 0 (k + n) else Z.min k n
  end.

(** [l[lo:hi]] *)
Definition getslice {A} (l : list A) (lo hi : option Z) : list A :=
  let s := slice_bound (len l) lo 0 in
  let e := slice_bound (len l) hi (len l) in
  take (Z.to_nat (e - s)) (drop (Z.to_nat s) l).

(** [l[lo:hi] = src] for a numpy array [l]: the source must have the
    length of the slice, or length one (it is then repeated). *)
Definition setslice {A} (l : list A) (lo hi : option Z) (src : list A)
    : result (list A) :=
  let s := slice_bound (len l) lo 0 in
  let e := slice_bound (len l) hi (len l) in
  let m := Z.max 0 (e - s) in
  let put v := take (Z.to_nat s) l ++ v ++ drop (Z.to_nat (s + m)) l in
  if len src =? m then OK (put src)
  else
    match src with
    | [x] => OK (put (replicate (Z.to_nat m) x))
    | _ => Raise ValueError
    end.

(** [np.full(k, x)]; a negative size is refused. *)
Definition np_full {A} (k : Z) (x : A) : result (list A) :=
  if k <? 0 then Raise ValueError else OK (replicate (Z.to_nat k) x).

Abbreviation array2 := (list (list float64)).

(** [np.full((rows, cols), x)] *)
Definition np_full2 (rows cols : Z) (x : float64) : result array2 :=
  r ← np_full cols x; np_full rows r.

(** [a[j, i]] *)
Definition getitem2 (a : array2) (j i : Z) : result float64 :=
  r ← getitem a j; getitem r i.

(** [a[j, i] = x] *)
Definition setitem2 (a : array2) (j i : Z) (x : float64) : result array2 :=
  r ← getitem a j; r' ← setitem r i x; setitem a j r'.

(** [a[r0:r1, c0:c1]] *)
Definition getslice2 (a : array2) (r0 r1 c0 c1 : option Z) : array2 :=
  (λ r, getslice r c0 c1) <$> getslice a r0 r1.

(** Row by row assignment of [src] to [dst]; both have the same number of
    rows. *)
Fixpoint assign_rows (dst src : array2) (c0 c1 : option Z) : result array2 :=
  match dst, src with
  | d :: dst', s :: src' =>
      d' ← setslice d c0 c1 s;
      rest ← assign_rows dst' src' c0 c1;
      OK (d' :: rest)
  | _, _ => OK []
  end.

(** [a[r0:r1, c0:c1] = src] for a two-dimensional source: the rows of the
    source are matched with the rows of the slice (a single source row is
    repeated), and each is assigned as [setslice] does. *)
Definition setslice2 (a : array2) (r0 r1 c0 c1 : option Z) (src : array2)
    : result array2 :=
  let s := slice_bound (len a) r0 0 in
  let e := slice_bound (len a) r1 (len a) in
  let m := Z.max 0 (e - s) in
  let target := take (Z.to_nat m) (drop (Z.to_nat s) a) in
  let put v := take (Z.to_nat s) a ++ v ++ drop (Z.to_nat (s + m)) a in
  if len src =? m then put <$> assign_rows target src c0 c1
  else
    match src with
    | [x] => put <$> assign_rows target (replicate (Z.to_nat m) x) c0 c1
    | _ => Raise ValueError
    end.

(** ** The world: the log and the object store *)

Inductive log_level : Type := DEBUG | INFO | WARNING.

Definition loc : Type := positive.

(** Modelled from the spec: the lattice ([resqpy.surface.TriMesh], whose
    class is not part of these sources) as the record of what its
    constructor is given and of what [apply] reads back: the parent model,
    the triangle edge length, the row and column counts, the origin, the
    unit tag, the title, the z values, the role tag and the reference
    frame. *)
Record TriMesh : Type := {
  model : positive;
  t_side : float64;
  nj : Z;
  ni : Z;
  origin : option (float64 * float64 * float64);
  z_uom : string;
  title : option string;
  z_values : array2;
  surface_role : string;
  crs_uuid : string;
}.

Record world : Type := {
  logs : list (log_level * string);
  heap : gmap loc TriMesh;
}.

Definition M (A : Type) : Type := world → world * result A.

Global Instance M_ret : MRet M := λ A a w, (w, OK a).
Global Instance M_bind : MBind M := λ A B f m w,
  match m w with
  | (w', OK a) => f a w'
  | (w', Raise e) => (w', Raise e)
  end.

Definition raise {A} (e : exn) : M A := λ w, (w, Raise e).
Definition lift {A} (r : result A) : M A := λ w, (w, r).

(** [assert b, msg] *)
Definition assert_ (b : bool) (msg : string) : M unit :=
  if b then mret () else raise (AssertionError msg).

(** [log.log(level, msg)] *)
Definition log_ (level : log_level) (msg : string) : M unit :=
  λ w, ({| logs := logs w ++ [(level, msg)]; heap := heap w |}, OK ()).

(** Modelled from the spec: reading the lattice an object reference
    denotes; a reference to nothing has no attributes. *)
Definition deref (l : loc) : M TriMesh := λ w,
  match heap w !! l with
  | Some tm => (w, OK tm)
  | None => (w, Raise AttributeError)
  end.

(** Modelled from the spec: the constructor [rqs.TriMesh(...)], which makes
    a new lattice object out of its arguments and returns the reference to
    it. *)
Definition TriMesh_new (tm : TriMesh) : M loc := λ w,
  let l := fresh (dom (heap w)) in
  ({| logs := logs w; heap := <[l := tm]> (heap w) |}, OK l).

(** Modelled from the spec: [tri_mesh.full_array_ref()[:, :, 2]], the z
    channel of the dense per cell array of the lattice. *)
Definition full_array_ref_z (tm : TriMesh) : array2 := z_values tm.

(** ** The stencil: [class TriMeshStencil] *)

(** The radial pattern as [np.array(pattern, dtype = float)] returns it:
    the number of dimensions and the elements (in storage order, which is
    the order of the list for a one-dimensional array). *)
Record ndarray : Type := {
  ndim : nat;
  data : list float64;
}.

Record TriMeshStencil : Type := {
  self_n : Z;
  self_start_ip : list Z;
  self_row_length : list Z;
  self_half_hex : array2;
  self_pattern : list float64;
}.

(** The [if normalise is not None:] block of [__init__].  [np.sum] is
    numpy's: the block is written for any function [sum_of] that gives the
    sum [t] of the pattern, so for the sum as numpy rounds it as well as for
    the exact sum [np_sum]. *)
Definition normalise_pattern_with (sum_of : list float64 → float64) (n : Z)
    (pattern : list float64) (normalise : float64) : M (list float64) :=
  assert_ (negb (isclose normalise fzero))
    "calling code must scale to stencil pattern to sum to zero" ;;
  let t := sum_of pattern in
  assert_ (negb (isclose t fzero))
    "pattern sums to zero and cannot be normalised to another value" ;;
  let pattern := (λ x, fmul x (fdiv normalise t)) <$> pattern in
  lift (for_each
          (λ pattern i,
             x ← getitem pattern i;
             setitem pattern i (fdiv x (float_of_Z (6 * i))))
          pattern (range 1 n)).

(** The block with the sum taken in exact arithmetic. *)
Definition normalise_pattern (n : Z) (pattern : list float64)
    (normalise : float64) : M (list float64) :=
  normalise_pattern_with np_sum n pattern normalise.

(** An element of the list [half_hex] of [__init__]:
    [(ip, length, stencil values)]. *)
Definition half_hex_row : Type := Z * Z * list float64.

(** The body of [for jp in range(1, self.n):]; the loop state is
    [(row_length, half_hex)]. *)
Definition half_hex_step (n : Z) (pattern : list float64)
    (st : Z * list half_hex_row) (jp : Z) : result (Z * list half_hex_row) :=
  let '(row_length, half_hex) := st in
  let start_ip := - (n - 1) + jp / 2 in
  let row_length := row_length - 1 in
  p_jp ← getitem pattern jp;
  row_v ← np_full row_length p_jp;
  row_v ←
    (if jp <? n - 1 then
       let sub_p := getslice pattern (Some (jp + 1)) None in
       let sub_len := len sub_p in
       row_v ← setslice row_v (Some (- sub_len)) None sub_p;
       setslice row_v None (Some sub_len) (reverse sub_p)
     else OK row_v);
  OK (row_length, half_hex ++ [(start_ip, row_length, row_v)]).

(** The list [half_hex] that [__init__] builds up. *)
Definition build_half_hex (n : Z) (pattern : list float64)
    : result (list half_hex_row) :=
  let row_length := 2 * n - 1 in
  let half_hex :=
    [(- (n - 1), row_length, reverse (getslice pattern (Some 1) None) ++ pattern)] in
  st ← for_each (half_hex_step n pattern) (row_length, half_hex) (range 1 n);
  OK st.2.

(** The rectangular array [self.half_hex], NaN to the right of each row. *)
Definition pack_half_hex (n : Z) (row_length : list Z)
    (half_hex : list half_hex_row) : result array2 :=
  a ← np_full2 n (2 * n - 1) NaN;
  for_each
    (λ a jp,
       rl ← getitem row_length jp;
       r ← getitem half_hex jp;
       row ← getitem a jp;
       row' ← setslice row None (Some rl) r.2;
       setitem a jp row')
    a (range 0 n).

(** [TriMeshStencil.__init__(self, pattern, normalise = None)], with
    [sum_of] for [np.sum]. *)
Definition TriMeshStencil_init_with (sum_of : list float64 → float64)
    (pattern : ndarray) (normalise : option float64) : M TriMeshStencil :=
  assert_ (bool_decide (ndim pattern = 1%nat))
    "tri mesh stencil pattern must be one dimensional" ;;
  let pattern := data pattern in
  assert_ (1 <? len pattern)
    "tri mesh stancil pattern must contain at least two elements" ;;
  assert_ (negb (existsb isnan pattern))
    "tri mesh stencil may not contain NaN" ;;
  (if 50 <? len pattern
   then log_ WARNING
          ("very large stencil pattern length: " +:+ pretty (len pattern))
   else mret ()) ;;
  let n := len pattern in
  pattern ←
    match normalise with
    | Some s => normalise_pattern_with sum_of n pattern s
    | None => mret pattern
    end;
  half_hex ← lift (build_half_hex n pattern);
  let start_ip := (λ r : half_hex_row, r.1.1) <$> half_hex in
  let row_length := (λ r : half_hex_row, r.1.2) <$> half_hex in
  hh ← lift (pack_half_hex n row_length half_hex);
  mret {| self_n := n;
          self_start_ip := start_ip;
          self_row_length := row_length;
          self_half_hex := hh;
          self_pattern := pattern |}.

(** [__init__] with the sum taken in exact arithmetic. *)
Definition TriMeshStencil_init (pattern : ndarray) (normalise : option float64)
    : M TriMeshStencil :=
  TriMeshStencil_init_with np_sum pattern normalise.

(** ** Rendering the stencil: [TriMeshStencil.log] *)

(** [s * k] for a string [s]: nothing when [k] is not positive. *)
Fixpoint str_repeat (s : string) (k : nat) : string :=
  match k with
  | O => ""
  | S k' => s +:+ str_repeat s k'
  end.

Definition str_mul (s : string) (k : Z) : string := str_repeat s (Z.to_nat k).

(** A [for] loop of a method, run for what it logs. *)
Fixpoint for_each_M {A : Type} (body : A → M unit) (xs : list A) : M unit :=
  match xs with
  | [] => mret ()
  | x :: xs' => body x ;; for_each_M body xs'
  end.

Section stencil_log.
(** What the format [6.3f] makes of a float is Python's own; the rendering
    is given for any such function. *)
Variable format_6_3f : float64 → string.

(** The body of the first loop of [log]: the line of row [jp]. *)
Definition half_line (self : TriMeshStencil) (jp : Z) : result string :=
  i_st ← getitem (self_start_ip self) jp;
  let padding := self_n self + i_st in
  let line := "" in
  let line := if decide (jp mod 2 ≠ 0) then line +:+ "    " else line in
  let line := line +:+ str_mul "   x   " padding in
  rl ← getitem (self_row_length self) jp;
  row ← getitem (self_half_hex self) jp;
  let line :=
    foldl (λ line v, line +:+ (" " +:+ format_6_3f v)) line
      (getslice row None (Some rl)) in
  OK (line +:+ str_mul "   x   " padding).

(** [TriMeshStencil.log(self, log_level = logging.DEBUG)] *)
Definition TriMeshStencil_log (self : TriMeshStencil) (level : log_level)
    : M unit :=
  half_lines ←
    lift (for_each
            (λ half_lines jp,
               line ← half_line self jp; OK (half_lines ++ [line]))
            [] (range 0 (self_n self)));
  for_each_M
    (λ i, line ← lift (getitem half_lines (- i));
          log_ level line ;; log_ level "")
    (range 1 (self_n self)) ;;
  for_each_M
    (λ i, line ← lift (getitem half_lines i);
          log_ level line ;;
          if i <? self_n self - 1 then log_ level "" else mret ())
    (range 0 (self_n self)).
End stencil_log.

(** ** The convolution: [apply_stencil_nanmean] and [TriMeshStencil.apply] *)

(** [if not np.isnan(v): ws += s; a += v * s], on the pair [(a, ws)]. *)
Definition accumulate (v s : float64) (acc : float64 * float64)
    : float64 * float64 :=
  if isnan v then acc else (fadd acc.1 (fmul v s), fadd acc.2 s).

Section convolution_loops.
(** The loops of [apply_stencil_nanmean] reach their arrays by indexing
    only: [start_ip[jp]], [row_length[jp]], [half_hex[jp, ip]],
    [tm_z[j, i]] and [applied[j, i] = x].  They are written once, for any
    way to index, and run below with the indexing of Python. *)
Variable start_ip_at row_length_at : Z → result Z.
Variable half_hex_at tm_z_at : Z → Z → result float64.
Variable applied_set : array2 → Z → Z → float64 → result array2.

(** The body of [for ip in range(row_length[jp]):]. *)
Definition tap_step_at (i i_st js_odd jp j_sm j_sp : Z)
    (acc : float64 * float64) (ip : Z) : result (float64 * float64) :=
  let i_s := i + i_st + ip + js_odd in
  v ← tm_z_at j_sm i_s;
  s ← half_hex_at jp ip;
  let acc := accumulate v s acc in
  if decide (jp ≠ 0) then
    v ← tm_z_at j_sp i_s;
    OK (accumulate v s acc)
  else OK acc.

(** The body of [for jp in range(n):]. *)
Definition ring_step_at (j i j_odd : Z) (acc : float64 * float64) (jp : Z)
    : result (float64 * float64) :=
  let js_odd := (jp mod 2) * j_odd in
  i_st ← start_ip_at jp;
  let j_sm := j - jp in
  let j_sp := j + jp in
  rl ← row_length_at jp;
  for_each (tap_step_at i i_st js_odd jp j_sm j_sp) acc (range 0 rl).

(** The accumulators [(a, ws)] of one output cell when the loop over [jp]
    ends. *)
Definition cell_sums_at (n j i j_odd : Z) : result (float64 * float64) :=
  for_each (ring_step_at j i j_odd) (fzero, fzero) (range 0 n).

(** The body of [for i in range(border, border + oni):]. *)
Definition cell_step_at (n j j_odd : Z) (applied : array2) (i : Z)
    : result array2 :=
  acc ← cell_sums_at n j i j_odd;
  let '(a, ws) := acc in
  if fne ws fzero then applied_set applied j i (fdiv a ws) else OK applied.

(** The loops over [j] and [i]; the array [applied], which the source
    updates in place, is threaded through the loops and returned. *)
Definition nanmean_loops (n : Z) (applied : array2) (border onj oni : Z)
    : result array2 :=
  for_each
    (λ applied j,
       let j_odd := j mod 2 in
       for_each (cell_step_at n j j_odd) applied (range border (border + oni)))
    applied (range border (border + onj)).
End convolution_loops.

(** The accumulators of one output cell, with the indexing of Python. *)
Definition cell_sums (n : Z) (start_ip row_length : list Z)
    (half_hex tm_z : array2) (j i j_odd : Z) : result (float64 * float64) :=
  cell_sums_at (getitem start_ip) (getitem row_length)
    (getitem2 half_hex) (getitem2 tm_z) n j i j_odd.

(** [apply_stencil_nanmean]: the loops with the indexing of Python. *)
Definition apply_stencil_nanmean (n : Z) (start_ip row_length : list Z)
    (half_hex tm_z applied : array2) (border onj oni : Z) : result array2 :=
  nanmean_loops (getitem start_ip) (getitem row_length)
    (getitem2 half_hex) (getitem2 tm_z) setitem2 n applied border onj oni.

(** How an f-string shows a title. *)
Definition title_str (t : option string) : string := default "None" t.

(** [TriMeshStencil.apply(self, tri_mesh, handle_nan = True, title = None)].
    The arrays [z_values] and [applied] are made by [np.full] within the
    call and nothing else refers to them, so they are local values here. *)
Definition apply (self : TriMeshStencil) (tri_mesh : loc) (handle_nan : bool)
    (new_title : option string) : M loc :=
  tm ← deref tri_mesh;
  log_ INFO ("applying stencil to tri mesh: " +:+ title_str (title tm)) ;;
  let border := self_n self in
  let border := if decide (border mod 2 ≠ 0) then border + 1 else border in
  let e_nj := nj tm + 2 * border in
  let e_ni := ni tm + 2 * border in
  z ← lift (np_full2 e_nj e_ni (if handle_nan then NaN else fzero));
  z ← lift (setslice2 z (Some border) (Some (border + nj tm))
              (Some border) (Some (border + ni tm)) (full_array_ref_z tm));
  applied ← lift (np_full2 e_nj e_ni NaN);
  applied ←
    (if handle_nan then
       lift (apply_stencil_nanmean (self_n self) (self_start_ip self)
               (self_row_length self) (self_half_hex self) z applied
               border (nj tm) (ni tm))
     else
       raise (NotImplementedError
                "only smoothing style tri mesh stencil application currently available"));
  TriMesh_new {| model := model tm;
                 t_side := t_side tm;
                 nj := nj tm;
                 ni := ni tm;
                 origin := origin tm;
                 z_uom := z_uom tm;
                 title := new_title;
                 z_values := getslice2 applied (Some border) (Some (border + nj tm))
                               (Some border) (Some (border + ni tm));
                 surface_role := surface_role tm;
                 crs_uuid := crs_uuid tm |}.

(** ** The frontier feature: [class FrontierFeature] *)

Section frontier_feature.
(** The uuids and the extra metadata are those of [BaseResqpy]; what
    compares them, [bu.matching_uuids] of [resqpy.olio.uuid] and
    [equivalent_extra_metadata] of [resqpy.organize._utils], is not part
    of these sources and stays a parameter. *)
Context {uuid_t metadata_t : Type}.

(** A frontier feature object: its identity (what [is] compares) and its
    attributes. *)
Record FrontierFeature : Type := {
  ff_id : positive;
  ff_uuid : uuid_t;
  ff_title : option string;
  ff_extra_metadata : metadata_t;
}.

(** What [other] can be: [None], a frontier feature, or an object of
    another class. *)
Inductive pyobject : Type :=
  | PyNone
  | PyFrontierFeature (f : FrontierFeature)
  | PyOther (id : positive).

Variable matching_uuids : uuid_t → uuid_t → bool.
Variable equivalent_extra_metadata : FrontierFeature → FrontierFeature → bool.

(** [feature_name = alias_for_attribute("title")] *)
Definition feature_name (f : FrontierFeature) : option string := ff_title f.

(** [self is other] *)
Definition is_ (self other : FrontierFeature) : bool :=
  bool_decide (ff_id self = ff_id other).

(** [FrontierFeature.is_equivalent(self, other, check_extra_metadata = True)] *)
Definition is_equivalent (self : FrontierFeature) (other : pyobject)
    (check_extra_metadata : bool) : bool :=
  match other with
  | PyNone => false
  | PyOther _ => false
  | PyFrontierFeature other =>
      if is_ self other || matching_uuids (ff_uuid self) (ff_uuid other)
      then true
      else if check_extra_metadata
              && negb (equivalent_extra_metadata self other)
      then false
      else bool_decide (feature_name self = feature_name other)
  end.
End frontier_feature.

Global Arguments FrontierFeature : clear implicits.
Global Arguments pyobject : clear implicits.

(** ** Running examples *)

Definition w0 : world := {| logs := []; heap := ∅ |}.

Definition q (a : Z) (b : positive) : float64 := Fin (Q2Qc (a # b)).

Definition pat (l : list float64) : ndarray := {| ndim := 1; data := l |}.

Definition mesh0 (z : array2) : TriMesh :=
  {| model := 1%positive; t_side := q 10 1; nj := len z; ni := len (z !!! 0%nat);
     origin := None; z_uom := "m"; title := Some "t"; z_values := z;
     surface_role := "map"; crs_uuid := "crs" |}.

(** ** The terms of the design document *)

(** A table of [rows] rows of [cols] columns. *)
Definition shape2 (a : array2) (rows cols : Z) : Prop :=
  len a = rows ∧ Forall (λ r, len r = cols) a.

(** A lattice is well formed when its z values are a table of [nj] rows of
    [ni] columns. *)
Definition mesh_wf (tm : TriMesh) : Prop :=
  0 ≤ nj tm ∧ 0 ≤ ni tm ∧ shape2 (z_values tm) (nj tm) (ni tm).

(** The element of row [j], column [i] of a table, for indices in range. *)
Definition at2 (a : array2) (j i : Z) : float64 :=
  (a !!! Z.to_nat j) !!! Z.to_nat i.

(** The sample of the lattice at row [j], column [i]; there is no sample
    outside the lattice. *)
Definition source_value (tm : TriMesh) (j i : Z) : float64 :=
  if decide (0 ≤ j < nj tm ∧ 0 ≤ i < ni tm) then at2 (z_values tm) j i
  else NaN.

(** The lattice with a border of width [b] filled with [fill] around it. *)
Definition padded (fill : float64) (tm : TriMesh) (b : Z) : array2 :=
  let blank := replicate (Z.to_nat (ni tm + 2 * b)) fill in
  let side := replicate (Z.to_nat b) fill in
  replicate (Z.to_nat b) blank
  ++ ((λ r, side ++ r ++ side) <$> z_values tm)
  ++ replicate (Z.to_nat b) blank.

(** The column a tap reads, for the output cell of row [j], column [i]. *)
Definition tap_column (st : TriMeshStencil) (j i jp ip : Z) : Z :=
  i + self_start_ip st !!! Z.to_nat jp + ip + (jp mod 2) * (j mod 2).

(** The taps of the stencil at the output cell [(j, i)], each as the pair of
    the source value it lands on and of its weight: for every row offset
    [jp], the row [j - jp] and, when [jp >= 1], its mirror [j + jp]. *)
Definition taps (st : TriMeshStencil) (tm : TriMesh) (j i : Z)
    : list (float64 * float64) :=
  jp ← range 0 (self_n st);
  ip ← range 0 (self_row_length st !!! Z.to_nat jp);
  let w := at2 (self_half_hex st) jp ip in
  let i_s := tap_column st j i jp ip in
  (source_value tm (j - jp) i_s, w)
  :: (if decide (jp ≠ 0) then [(source_value tm (j + jp) i_s, w)] else []).

(** One tap taken into the accumulators [(a, ws)]. *)
Definition acc_tap (acc t : float64 * float64) : float64 * float64 :=
  accumulate t.1 t.2 acc.

Definition fsum (l : list float64) : float64 := foldr fadd fzero l.

Definition present (t : float64 * float64) : bool := negb (isnan t.1).

Definition weighted_sum (ts : list (float64 * float64)) : float64 :=
  fsum ((λ t, fmul t.1 t.2) <$> filter (λ t, present t = true) ts).

Definition weight_total (ts : list (float64 * float64)) : float64 :=
  fsum (snd <$> filter (λ t, present t = true) ts).

Definition weighted_mean (ts : list (float64 * float64)) : float64 :=
  if fne (weight_total ts) fzero
  then fdiv (weighted_sum ts) (weight_total ts)
  else NaN.

(** What a cell of [applied] becomes, given the accumulators [(a, ws)] of
    the cell and what the cell held. *)
Definition cell_update (acc : float64 * float64) (old : float64) : float64 :=
  if fne acc.2 fzero then fdiv acc.1 acc.2 else old.

(** The z values of the smoothed lattice: at every cell the mean of the
    values its taps land on, weighted by the stencil. *)
Definition smoothed (st : TriMeshStencil) (tm : TriMesh) : array2 :=
  (λ j, (λ i, weighted_mean (taps st tm j i)) <$> range 0 (ni tm))
  <$> range 0 (nj tm).

(** The lattice [apply] returns. *)
Definition applied_mesh (st : TriMeshStencil) (tm : TriMesh)
    (new_title : option string) : TriMesh :=
  {| model := model tm;
     t_side := t_side tm;
     nj := nj tm;
     ni := ni tm;
     origin := origin tm;
     z_uom := z_uom tm;
     title := new_title;
     z_values := smoothed st tm;
     surface_role := surface_role tm;
     crs_uuid := crs_uuid tm |}.

(** The world after [apply] has logged which lattice it works on. *)
Definition informed (tm : TriMesh) (w : world) : world :=
  {| logs := logs w ++ [(INFO, "applying stencil to tri mesh: " +:+ title_str (title tm))];
     heap := heap w |}.

(** Twice the abscissa of the lattice point of row [j], column [i], in
    units of the column spacing: odd rows are shifted by half a column. *)
Definition lattice_x2 (j i : Z) : Z := 2 * i + j mod 2.

(** The distance between two points of the lattice, counted in steps
    between neighbours. *)
Definition hex_distance (j i j' i' : Z) : Z :=
  let dj := Z.abs (j' - j) in
  let dx2 := Z.abs (lattice_x2 j' i' - lattice_x2 j i) in
  dj + Z.max 0 ((dx2 - dj) / 2).

(** The ring that slot [ip] of row [jp] belongs to, in a stencil of size
    [n]: rings beyond [jp] at both ends of the row, ring [jp] in between. *)
Definition slot_ring (n jp ip : Z) : Z :=
  if decide (ip < n - 1 - jp) then n - 1 - ip
  else if decide (ip < n) then jp
  else jp + 1 + ip - n.

(** Row [jp] of the stencil as the design document describes it. *)
Definition stencil_row (pattern : list float64) (jp : Z) : list float64 :=
  let tail := drop (Z.to_nat (jp + 1)) pattern in
  reverse tail ++ replicate (Z.to_nat (jp + 1)) (pattern !!! Z.to_nat jp) ++ tail.

(** The element [jp] of the list [half_hex] of [__init__]. *)
Definition half_hex_closed (n : Z) (p : list float64) (jp : Z) : half_hex_row :=
  (- (n - 1) + jp / 2, 2 * n - 1 - jp, stencil_row p jp).

(** Row [jp] of the rectangular array: the weights, then the unused slots. *)
Definition packed_row (p : list float64) (jp : Z) : list float64 :=
  stencil_row p jp ++ replicate (Z.to_nat jp) NaN.

(** The stencil of a pattern [p] that needs no further scaling. *)
Definition built (p : list float64) : TriMeshStencil :=
  let n := len p in
  {| self_n := n;
     self_start_ip := (λ jp, - (n - 1) + jp / 2) <$> range 0 n;
     self_row_length := (λ jp, 2 * n - 1 - jp) <$> range 0 n;
     self_half_hex := packed_row p <$> range 0 n;
     self_pattern := p |}.

(** [pattern[k] /= float(6 * k)] for a ring [k >= 1]. *)
Definition ring_divide (k : nat) (x : float64) : float64 :=
  if decide (k = 0%nat) then x else fdiv x (float_of_Z (6 * Z.of_nat k)).

(** The pattern after normalisation to [s], for the sum [sum_of]. *)
Definition normalised_with (sum_of : list float64 → float64)
    (pattern : list float64) (s : float64) : list float64 :=
  let scale := fdiv s (sum_of pattern) in
  imap (λ k x, if decide (k = 0%nat) then fmul x scale
               else fdiv (fmul x scale) (float_of_Z (6 * Z.of_nat k)))
    pattern.

(** The pattern after normalisation to [s]. *)
Definition normalised (pattern : list float64) (s : float64) : list float64 :=
  normalised_with np_sum pattern s.

(** The sum over the whole hexagon: the centre weight and, for every ring
    [k >= 1], [6 * k] times the weight of the ring. *)
Definition hexagon_total (pattern : list float64) : float64 :=
  fsum (imap (λ k x, if decide (k = 0%nat) then x
                     else fmul x (float_of_Z (6 * Z.of_nat k)))
          pattern).

(** The exact sum of a list of rationals. *)
Definition qsum (qs : list Qc) : Qc := foldr Qcplus 0%Qc qs.

(** The rationals of the pattern after normalisation to [s]. *)
Definition normalised_q (qs : list Qc) (s : Qc) : list Qc :=
  imap (λ k x, if decide (k = 0%nat) then (x * (s / qsum qs))%Qc
               else (x * (s / qsum qs) / Q2Qc (inject_Z (6 * Z.of_nat k)))%Qc)
    qs.

(** A tap with its weight multiplied by [c]. *)
Definition scale_tap (c : Qc) (t : float64 * float64) : float64 * float64 :=
  (t.1, fmul t.2 (Fin c)).

(** The value [c v + k] of a sample [v]; a missing sample stays missing. *)
Definition affine (c k : Qc) (x : float64) : float64 :=
  fadd (fmul x (Fin c)) (Fin k).

(** A tap whose sample went through [affine c k]. *)
Definition affine_tap (c k : Qc) (t : float64 * float64) : float64 * float64 :=
  (affine c k t.1, t.2).

(** The world with the messages [ms] logged at [level]. *)
Definition logged (level : log_level) (ms : list string) (w : world) : world :=
  {| logs := logs w ++ ((λ m, (level, m)) <$> ms); heap := heap w |}.

(** The text of the line of row [jp], empty if the row cannot be read. *)
Definition line_of (fmt : float64 → string) (st : TriMeshStencil) (jp : Z)
    : string :=
  match half_line fmt st jp with OK s => s | Raise _ => "" end.

(** What [log] writes: the rows [n - 1] down to 1, each followed by an
    empty line, then the rows 0 to [n - 1] with an empty line between
    them. *)
Definition rendering (fmt : float64 → string) (st : TriMeshStencil)
    : list string :=
  (range 1 (self_n st) ≫= λ i, [line_of fmt st (self_n st - i); ""])
  ++ [line_of fmt st 0]
  ++ (range 1 (self_n st) ≫= λ jp, [""; line_of fmt st jp]).

(** [l[k]] for an index within [0, len l) only: a negative index, which
    Python counts from the end, is refused like an index beyond the end. *)
Definition within {A} (l : list A) (k : Z) : result A :=
  if (0 <=? k) && (k <? len l) then getitem l k else Raise IndexError.

(** [a[j, i]] for indices within the rows and the columns of [a] only. *)
Definition within2 (a : array2) (j i : Z) : result float64 :=
  r ← within a j; within r i.

(** [a[j, i] = x] for indices within the rows and the columns of [a] only. *)
Definition set_within2 (a : array2) (j i : Z) (x : float64) : result array2 :=
  _ ← within2 a j i; setitem2 a j i x.

(** [half_hex[jp, ip]] for one of the first [row_length[jp]] slots of row
    [jp] only: reading an unused slot is refused. *)
Definition used_slot (row_length : list Z) (half_hex : array2) (jp ip : Z)
    : result float64 :=
  rl ← within row_length jp;
  if ip <? rl then within2 half_hex jp ip else Raise IndexError.

(** The loops of [apply_stencil_nanmean] run with the indexing that
    refuses every index outside its array and every unused slot of the
    array of weights. *)
Definition apply_stencil_nanmean_guarded (n : Z) (start_ip row_length : list Z)
    (half_hex tm_z applied : array2) (border onj oni : Z) : result array2 :=
  nanmean_loops (within start_ip) (within row_length)
    (used_slot row_length half_hex) (within2 tm_z) set_within2
    n applied border onj oni.

(** The border [apply] puts around the lattice. *)
Definition border_of (n : Z) : Z := if decide (n mod 2 ≠ 0) then n + 1 else n.

(** The pattern a valid call of [__init__] keeps, for the sum [sum_of]. *)
Definition final_pattern_with (sum_of : list float64 → float64)
    (p : list float64) (normalise : option float64) : list float64 :=
  match normalise with Some s => normalised_with sum_of p s | None => p end.

(** The pattern a valid call of [__init__] keeps. *)
Definition final_pattern (p : list float64) (normalise : option float64)
    : list float64 :=
  final_pattern_with np_sum p normalise.

(** The world after a valid call of [__init__] on a pattern of length [n]. *)
Definition warned (n : Z) (w : world) : world :=
  if 50 <? n
  then {| logs := logs w ++ [(WARNING, "very large stencil pattern length: " +:+ pretty n)];
          heap := heap w |}
  else w.

(** What [__init__] asks of the normalisation target, for the sum
    [sum_of]. *)
Definition normalise_valid_with (sum_of : list float64 → float64)
    (p : list float64) (normalise : option float64) : Prop :=
  match normalise with
  | Some s => s ≠ fzero ∧ sum_of p ≠ fzero
  | None => True
  end.

(** What [__init__] asks of the normalisation target. *)
Definition normalise_valid (p : list float64) (normalise : option float64)
    : Prop :=
  normalise_valid_with np_sum p normalise.

(** What makes [__init__] refuse its arguments, for the sum [sum_of]: the
    pattern is not one dimensional, has fewer than two elements or holds a
    NaN, or a target is given that is zero or comes with a pattern whose
    sum, as [sum_of] gives it, is zero. *)
Definition invalid_arguments_with (sum_of : list float64 → float64)
    (pattern : ndarray) (normalise : option float64) : Prop :=
  ndim pattern ≠ 1%nat
  ∨ len (data pattern) < 2
  ∨ (∃ x, x ∈ data pattern ∧ isnan x = true)
  ∨ (∃ s, normalise = Some s
          ∧ (s = fzero ∨ sum_of (data pattern) = fzero)).

(** What makes [__init__] refuse its arguments. *)
Definition invalid_arguments (pattern : ndarray) (normalise : option float64)
    : Prop :=
  invalid_arguments_with np_sum pattern normalise.

Definition z1 : array2 :=
  [[q 1 1; q 2 1; q 3 1]; [q 4 1; NaN; q 6 1]; [q 7 1; q 8 1; q 9 1]].

Definition w1 : world := {| logs := []; heap := {[ 5%positive := mesh0 z1 ]} |}.

Definition z2 : array2 :=
  [[q 1 1; q 2 1; q 3 1]; [q 4 1; NaN; q 6 1]; [q 7 1; q 8 1; q 100 1]].

Definition w2 : world :=
  {| logs := [];
     heap := {[ 5%positive := mesh0 z1; 6%positive := mesh0 z2 ]} |}.

Definition z3 : array2 := replicate 3 (replicate 3 (Fin (Q2Qc 5))).

Definition w3 : world := {| logs := []; heap := {[ 5%positive := mesh0 z3 ]} |}.

Definition z4 : array2 :=
  (λ r : list float64, affine (Q2Qc 2) (Q2Qc 1) <$> r) <$> z1.

Definition w4 : world :=
  {| logs := [];
     heap := {[ 5%positive := mesh0 z1; 6%positive := mesh0 z4 ]} |}.

(** * Proofs *)

Lemma fzero_eq : fzero = Fin 0%Qc.
Proof. reflexivity. Qed.

Lemma fadd_comm x y : fadd x y = fadd y x.
Proof. destruct x, y; simpl; try done. f_equal. ring. Qed.

Lemma fadd_assoc x y z : fadd x (fadd y z) = fadd (fadd x y) z.
Proof. destruct x, y, z; simpl; try done. f_equal. ring. Qed.

Lemma fadd_0_l x : fadd fzero x = x.
Proof. rewrite fzero_eq. destruct x; simpl; try done. f_equal. ring. Qed.

Lemma fadd_0_r x : fadd x fzero = x.
Proof. rewrite fadd_comm. apply fadd_0_l. Qed.

Lemma feq_true x y : feq x y = true ↔ ∃ a, x = Fin a ∧ y = Fin a.
Proof.
  destruct x as [|a], y as [|b]; simpl; try (split; [done | intros (c & ? & ?); done]).
  rewrite bool_decide_eq_true. split.
  - intros ->. eauto.
  - intros (c & [= ->] & [= ->]). done.
Qed.

Lemma Qcabs_le_0 (a : Qc) : (Qcabs a ≤ 0)%Qc → a = 0%Qc.
Proof.
  intros H. apply Qcabs_null. apply Qcle_antisym; [done | apply Qcabs_nonneg].
Qed.

Lemma isclose_zero x : isclose x fzero = true ↔ x = fzero.
Proof.
  split; [|intros ->; done].
  unfold isclose. destruct (feq x fzero) eqn:E.
  - intros _. apply feq_true in E as (a & -> & E). by rewrite E.
  - destruct x as [|a]; [done|]. rewrite fzero_eq in *. simpl.
    rewrite !orb_true_iff, !bool_decide_eq_true.
    assert (a ≠ 0%Qc) as Ha by (intros ->; done).
    rewrite Qcabs_Qcminus.
    replace (a - 0)%Qc with a by ring.
    rewrite Qcmult_0_r, !Qcabs_Qcmult.
    intros [[H|H]|H]; try (by apply Qcabs_le_0 in H).
    exfalso.
    assert (0 < Qcabs a)%Qc as Hpos.
    { apply Qclt_nge. intros Hle. by apply Qcabs_le_0 in Hle. }
    rewrite <-(Qcmult_1_l (Qcabs a)) in H at 1.
    apply Qcmult_lt_0_le_reg_r in H; [|done].
    revert H. by vm_compute.
Qed.

Lemma len_nonneg {A} (l : list A) : 0 ≤ len l.
Proof. unfold len. lia. Qed.

Lemma len_app {A} (l k : list A) : len (l ++ k) = len l + len k.
Proof. unfold len. rewrite length_app. lia. Qed.

Lemma len_replicate {A} (k : nat) (x : A) : len (replicate k x) = Z.of_nat k.
Proof. unfold len. by rewrite length_replicate. Qed.

Lemma getitem_lookup {A} (l : list A) (k : Z) (x : A) :
  0 ≤ k → l !! Z.to_nat k = Some x → getitem l k = OK x.
Proof.
  intros Hk Hx. unfold getitem.
  apply lookup_lt_Some in Hx as Hlt.
  assert (k < len l) by (unfold len; lia).
  destruct (Z.ltb_spec k 0); [lia|].
  destruct (Z.leb_spec 0 k); [|lia].
  destruct (Z.ltb_spec k (len l)); [|lia].
  simpl. by rewrite Hx.
Qed.

Lemma getitem_inv {A} (l : list A) (k : Z) (x : A) :
  0 ≤ k → getitem l k = OK x → l !! Z.to_nat k = Some x ∧ k < len l.
Proof.
  intros Hk. unfold getitem.
  destruct (Z.ltb_spec k 0); [lia|].
  destruct (Z.leb_spec 0 k); [|lia].
  destruct (Z.ltb_spec k (len l)); [|done].
  simpl. destruct (l !! Z.to_nat k); [|done]. intros [= ->]. done.
Qed.

Lemma setitem_in {A} (l : list A) (k : Z) (x : A) :
  0 ≤ k < len l → setitem l k x = OK (<[Z.to_nat k := x]> l).
Proof.
  intros Hk. unfold setitem.
  destruct (Z.ltb_spec k 0); [lia|].
  destruct (Z.leb_spec 0 k); [|lia].
  destruct (Z.ltb_spec k (len l)); [|lia].
  done.
Qed.

Lemma for_each_app {A St} (body : St → A → result St) s xs ys :
  for_each body s (xs ++ ys) = (s' ← for_each body s xs; for_each body s' ys).
Proof.
  revert s. induction xs as [|x xs IH]; intros s; simpl; [done|].
  destruct (body s x); simpl; [apply IH | done].
Qed.

Lemma range_nil lo hi : hi ≤ lo → range lo hi = [].
Proof. intros. unfold range. apply seqZ_nil. lia. Qed.

Lemma range_snoc lo hi : lo ≤ hi → range lo (hi + 1) = range lo hi ++ [hi].
Proof.
  intros. unfold range.
  replace (hi + 1 - lo) with ((hi - lo) + 1) by lia.
  rewrite seqZ_app by lia. f_equal.
  rewrite seqZ_cons by lia. rewrite seqZ_nil by lia. f_equal. lia.
Qed.

Lemma elem_of_range lo hi k : k ∈ range lo hi ↔ lo ≤ k < hi.
Proof. unfold range. rewrite elem_of_seqZ. lia. Qed.

Lemma lookup_range lo hi (k : nat) :
  lo + Z.of_nat k < hi → range lo hi !! k = Some (lo + Z.of_nat k).
Proof. intros. unfold range. apply lookup_seqZ_lt. lia. Qed.

Lemma length_range lo hi : length (range lo hi) = Z.to_nat (hi - lo).
Proof. unfold range. apply length_seqZ. Qed.

(** The rule of the loop invariant for a [for] loop over a range. *)
Lemma for_each_range {St} (body : St → Z → result St) (P : Z → St → Prop) lo hi s :
  lo ≤ hi →
  P lo s →
  (∀ k s, lo ≤ k < hi → P k s → ∃ s', body s k = OK s' ∧ P (k + 1) s') →
  ∃ s', for_each body s (range lo hi) = OK s' ∧ P hi s'.
Proof.
  intros Hle H0 Hstep.
  assert (∀ d : nat, lo + Z.of_nat d ≤ hi →
    ∃ s', for_each body s (range lo (lo + Z.of_nat d)) = OK s'
          ∧ P (lo + Z.of_nat d) s') as Hind.
  { induction d as [|d IH]; intros Hd.
    - rewrite range_nil by lia. exists s. split; [done|].
      by replace (lo + Z.of_nat 0) with lo by lia.
    - destruct IH as (s1 & Hrun & HP); [lia|].
      destruct (Hstep (lo + Z.of_nat d) s1) as (s2 & Hb & HP2); [lia|done|].
      exists s2. replace (lo + Z.of_nat (S d)) with (lo + Z.of_nat d + 1) by lia.
      split; [|done].
      rewrite range_snoc by lia. rewrite for_each_app, Hrun. simpl.
      by rewrite Hb. }
  destruct (Hind (Z.to_nat (hi - lo))) as (s' & Hrun & HP); [lia|].
  replace (lo + Z.of_nat (Z.to_nat (hi - lo))) with hi in * by lia.
  eauto.
Qed.

Lemma for_each_range_eq {St} (body : St → Z → result St) (P : Z → St → Prop)
    lo hi s t :
  lo ≤ hi →
  P lo s →
  (∀ k s, lo ≤ k < hi → P k s → ∃ s', body s k = OK s' ∧ P (k + 1) s') →
  (∀ s', P hi s' → s' = t) →
  for_each body s (range lo hi) = OK t.
Proof.
  intros Hle H0 Hstep Hend.
  destruct (for_each_range body P lo hi s) as (s' & -> & HP); [done..|].
  f_equal. by apply Hend.
Qed.

Lemma getslice_from {A} (l : list A) (k : Z) :
  0 ≤ k → getslice l (Some k) None = drop (Z.to_nat k) l.
Proof.
  intros Hk. unfold getslice, slice_bound.
  destruct (Z.ltb_spec k 0); [lia|].
  destruct (Z.le_gt_cases k (len l)).
  - rewrite Z.min_l by done. apply take_ge. rewrite length_drop. unfold len in *. lia.
  - rewrite Z.min_r by lia. rewrite !drop_ge by (unfold len in *; lia). by rewrite take_nil.
Qed.

Lemma setslice_tail {A} (l src : list A) :
  1 ≤ len src ≤ len l →
  setslice l (Some (- len src)) None src
  = OK (take (Z.to_nat (len l - len src)) l ++ src).
Proof.
  intros Hm. unfold setslice, slice_bound.
  destruct (Z.ltb_spec (- len src) 0); [|lia].
  rewrite (Z.max_r 0 (- len src + len l)) by lia.
  replace (len l - (- len src + len l)) with (len src) by lia.
  rewrite (Z.max_r 0 (len src)) by lia.
  rewrite Z.eqb_refl. do 3 f_equal; [lia|].
  rewrite drop_ge; [by rewrite app_nil_r|]. unfold len in *. lia.
Qed.

Lemma setslice_head {A} (l src : list A) :
  len src ≤ len l →
  setslice l None (Some (len src)) src = OK (src ++ drop (Z.to_nat (len src)) l).
Proof.
  intros Hm. pose proof (len_nonneg src). unfold setslice, slice_bound.
  destruct (Z.ltb_spec (len src) 0); [lia|].
  rewrite Z.min_l by lia. rewrite Z.sub_0_r, (Z.max_r 0 (len src)) by lia.
  rewrite Z.eqb_refl. simpl. done.
Qed.

Lemma np_full_ok {A} (k : Z) (x : A) :
  0 ≤ k → np_full k x = OK (replicate (Z.to_nat k) x).
Proof. intros. unfold np_full. by destruct (Z.ltb_spec k 0); [lia|]. Qed.

Lemma len_drop {A} (l : list A) (k : nat) : len (drop k l) = Z.max 0 (len l - Z.of_nat k).
Proof. unfold len. rewrite length_drop. lia. Qed.

Lemma len_rev {A} (l : list A) : len (reverse l) = len l.
Proof. unfold len. by rewrite length_reverse. Qed.

Lemma len_take {A} (l : list A) (k : nat) : len (take k l) = Z.min (Z.of_nat k) (len l).
Proof. unfold len. rewrite length_take. lia. Qed.

Ltac len_simpl :=
  repeat first
    [ rewrite len_app | rewrite len_rev | rewrite len_replicate
    | rewrite len_drop | rewrite len_take ].

Lemma len_stencil_row p jp :
  0 ≤ jp < len p → len (stencil_row p jp) = 2 * len p - 1 - jp.
Proof.
  intros. unfold stencil_row. rewrite !len_app, len_rev, len_replicate, len_drop. lia.
Qed.


Lemma half_hex_step_ok p jp hh :
  1 ≤ jp < len p →
  half_hex_step (len p) p (2 * len p - 1 - (jp - 1), hh) jp
  = OK (2 * len p - 1 - jp, hh ++ [half_hex_closed (len p) p jp]).
Proof.
  intros Hjp. unfold half_hex_step.
  destruct (lookup_lt_is_Some_2 p (Z.to_nat jp)) as [x Hx]; [unfold len in *; lia|].
  rewrite (getitem_lookup _ _ x) by (done || lia). simpl.
  rewrite np_full_ok by lia. simpl.
  replace (2 * len p - 1 - (jp - 1) - 1) with (2 * len p - 1 - jp) by lia.
  unfold half_hex_closed, stencil_row.
  rewrite (list_lookup_total_correct _ _ _ Hx).
  destruct (Z.ltb_spec jp (len p - 1)) as [Hlt|Hge].
  - rewrite getslice_from by lia.
    set (sub_p := drop (Z.to_nat (jp + 1)) p).
    assert (len sub_p = len p - 1 - jp) as Hsub.
    { unfold sub_p. rewrite len_drop. lia. }
    rewrite setslice_tail by (rewrite len_replicate; lia).
    simpl. rewrite <-(len_rev sub_p) at 2.
    rewrite setslice_head by (len_simpl; lia).
    rewrite take_replicate, len_replicate, len_rev.
    rewrite drop_app_le by (rewrite length_replicate; unfold len in *; lia).
    rewrite drop_replicate.
    replace (Z.to_nat (Z.of_nat (Z.to_nat (2 * len p - 1 - jp)) - len sub_p)
             `min` Z.to_nat (2 * len p - 1 - jp) - Z.to_nat (len sub_p))%nat
      with (Z.to_nat (jp + 1)) by lia.
    done.
  - assert (jp = len p - 1) as Hj by lia.
    rewrite (drop_ge p) by (unfold len in *; lia). simpl.
    replace (Z.to_nat (2 * len p - 1 - jp)) with (Z.to_nat (jp + 1)) by lia.
    by rewrite app_nil_r.
Qed.

Lemma stencil_row_0 p :
  1 ≤ len p → stencil_row p 0 = reverse (getslice p (Some 1) None) ++ p.
Proof.
  intros Hp. rewrite getslice_from by lia. unfold stencil_row. simpl.
  destruct p as [|x p]; [unfold len in Hp; simpl in Hp; lia|]. done.
Qed.

Lemma build_half_hex_ok p :
  1 ≤ len p →
  build_half_hex (len p) p = OK (half_hex_closed (len p) p <$> range 0 (len p)).
Proof.
  intros Hp. unfold build_half_hex.
  destruct (for_each_range (half_hex_step (len p) p)
    (λ k st, st = (2 * len p - 1 - (k - 1), half_hex_closed (len p) p <$> range 0 k))
    1 (len p)
    (2 * len p - 1, [(- (len p - 1), 2 * len p - 1, reverse (getslice p (Some 1) None) ++ p)]))
    as (st & -> & ->); [lia| |..].
  - f_equal; [lia|].
    change (range 0 1) with [0]. simpl. unfold half_hex_closed.
    rewrite stencil_row_0 by done. change (0 `div` 2) with 0. by rewrite Z.add_0_r, Z.sub_0_r.
  - intros k st Hk ->. eexists. split; [by apply half_hex_step_ok|].
    f_equal; [lia|]. rewrite range_snoc by lia. by rewrite fmap_app.
  - done.
Qed.

Lemma lookup_closed {A} (f : Z → A) n (jp : Z) :
  0 ≤ jp < n → (f <$> range 0 n) !! Z.to_nat jp = Some (f jp).
Proof.
  intros. rewrite list_lookup_fmap, lookup_range by lia. simpl. f_equal. f_equal. lia.
Qed.

Lemma len_closed {A} (f : Z → A) n : 0 ≤ n → len (f <$> range 0 n) = n.
Proof. intros. unfold len. rewrite length_fmap, length_range. lia. Qed.


Lemma pack_half_hex_ok p :
  1 ≤ len p →
  pack_half_hex (len p) ((λ r : half_hex_row, r.1.2) <$> (half_hex_closed (len p) p <$> range 0 (len p)))
    (half_hex_closed (len p) p <$> range 0 (len p))
  = OK (packed_row p <$> range 0 (len p)).
Proof.
  intros Hp. unfold pack_half_hex, np_full2.
  rewrite np_full_ok by lia. simpl. rewrite np_full_ok by lia. simpl.
  set (n := len p) in *.
  set (blank := replicate (Z.to_nat (2 * n - 1)) NaN).
  apply (for_each_range_eq _
    (λ k a, a = (packed_row p <$> range 0 k) ++ replicate (Z.to_nat (n - k)) blank));
    [lia| | |].
  - rewrite range_nil by lia. simpl. f_equal. lia.
  - intros k a Hk ->.
    rewrite <-list_fmap_compose.
    rewrite (getitem_lookup _ _ (2 * n - 1 - k)) by (lia || by rewrite lookup_closed).
    simpl.
    rewrite (getitem_lookup _ _ (half_hex_closed n p k)) by (lia || by rewrite lookup_closed).
    simpl.
    assert (length (packed_row p <$> range 0 k) = Z.to_nat k) as Hlen.
    { rewrite length_fmap, length_range. lia. }
    rewrite (getitem_lookup _ _ blank).
    2: lia.
    2:{ rewrite lookup_app_r by lia. rewrite Hlen, Nat.sub_diag.
        apply lookup_replicate_2. lia. }
    simpl.
    assert (len (stencil_row p k) = 2 * n - 1 - k) as Hrow by (apply len_stencil_row; lia).
    rewrite <-Hrow.
    rewrite setslice_head by (unfold blank; len_simpl; lia).
    simpl. rewrite setitem_in by (len_simpl; unfold len; rewrite Hlen; lia).
    eexists. split; [done|].
    rewrite range_snoc by lia. rewrite fmap_app. simpl.
    rewrite <-(Nat.add_0_r (Z.to_nat k)) at 1. rewrite <-Hlen at 1.
    rewrite insert_app_r.
    replace (Z.to_nat (n - k)) with (S (Z.to_nat (n - (k + 1)))) by lia.
    simpl. rewrite <-app_assoc. simpl. do 2 f_equal.
    unfold packed_row. f_equal. unfold blank. rewrite drop_replicate.
    f_equal. lia.
  - intros a ->. rewrite Z.sub_diag. simpl. by rewrite app_nil_r.
Qed.

Lemma normalise_loop_ok (p : list float64) :
  1 ≤ len p →
  for_each
    (λ pattern i,
       x ← getitem pattern i;
       setitem pattern i (fdiv x (float_of_Z (6 * i))))
    p (range 1 (len p))
  = OK (imap ring_divide p).
Proof.
  intros Hp.
  apply (for_each_range_eq _
    (λ k a, a = imap (λ idx x, if decide (Z.of_nat idx < k) then ring_divide idx x else x) p));
    [lia| | |].
  - apply list_eq. intros i. rewrite list_lookup_imap.
    destruct (p !! i) eqn:E; simpl; [|done].
    unfold ring_divide. repeat case_decide; try done; lia.
  - intros k a Hk ->.
    destruct (lookup_lt_is_Some_2 p (Z.to_nat k)) as [x Hx]; [unfold len in *; lia|].
    rewrite (getitem_lookup _ _ x).
    2: lia.
    2:{ rewrite list_lookup_imap, Hx. simpl. case_decide; [lia|done]. }
    simpl. rewrite setitem_in by (unfold len in *; rewrite length_imap; lia).
    eexists. split; [done|].
    apply list_eq. intros i.
    destruct (decide (i = Z.to_nat k)) as [->|Hne].
    + rewrite list_lookup_insert_eq by (rewrite length_imap; unfold len in *; lia).
      rewrite list_lookup_imap, Hx. simpl.
      rewrite decide_True by lia. unfold ring_divide.
      rewrite decide_False by lia. do 3 f_equal. lia.
    + rewrite list_lookup_insert_ne by done.
      rewrite !list_lookup_imap. destruct (p !! i); simpl; [|done].
      repeat case_decide; try done; lia.
  - intros a ->. apply imap_ext. intros i x Hi.
    apply lookup_lt_Some in Hi. rewrite decide_True; [done|]. unfold len. lia.
Qed.

Section pattern_sum.
Variable sum_of : list float64 → float64.

Lemma normalised_eq_with p s :
  imap ring_divide ((λ x, fmul x (fdiv s (sum_of p))) <$> p) = normalised_with sum_of p s.
Proof.
  rewrite imap_fmap. unfold normalised_with. apply imap_ext. intros i x _.
  unfold ring_divide. simpl. by case_decide.
Qed.

Lemma len_normalised_with p s : len (normalised_with sum_of p s) = len p.
Proof. unfold len, normalised_with. by rewrite length_imap. Qed.

Lemma len_final_pattern_with p normalise : len (final_pattern_with sum_of p normalise) = len p.
Proof. destruct normalise; [apply len_normalised_with|done]. Qed.

Lemma normalise_pattern_ok_with p s w :
  1 ≤ len p → s ≠ fzero → sum_of p ≠ fzero →
  normalise_pattern_with sum_of (len p) p s w = (w, OK (normalised_with sum_of p s)).
Proof.
  intros Hp Hs Ht. unfold normalise_pattern_with.
  assert (isclose s fzero = false) as Es.
  { destruct (isclose s fzero) eqn:E; [|done]. by apply isclose_zero in E. }
  assert (isclose (sum_of p) fzero = false) as Et.
  { destruct (isclose (sum_of p) fzero) eqn:E; [|done]. by apply isclose_zero in E. }
  unfold mbind, M_bind, assert_. rewrite Es, Et. simpl.
  unfold lift.
  replace (len p) with (len ((λ x, fmul x (fdiv s (sum_of p))) <$> p))
    by (unfold len; by rewrite length_fmap).
  rewrite normalise_loop_ok by (unfold len in *; rewrite length_fmap; lia).
  by rewrite normalised_eq_with.
Qed.

Lemma build_ok (p : list float64) (w : world) :
  1 ≤ len p →
  (half_hex ← lift (build_half_hex (len p) p);
   let start_ip := (λ r : half_hex_row, r.1.1) <$> half_hex in
   let row_length := (λ r : half_hex_row, r.1.2) <$> half_hex in
   hh ← lift (pack_half_hex (len p) row_length half_hex);
   mret {| self_n := len p;
          self_start_ip := start_ip;
          self_row_length := row_length;
          self_half_hex := hh;
          self_pattern := p |}) w
  = (w, OK (built p)).
Proof.
  intros Hp. unfold mbind, M_bind, lift.
  rewrite build_half_hex_ok by done.
  rewrite pack_half_hex_ok by done.
  unfold mret, M_ret, built. do 3 f_equal.
  - rewrite <-list_fmap_compose. done.
  - rewrite <-list_fmap_compose. done.
Qed.

Lemma bind_assert_true {A} (msg : string) (f : unit → M A) (w : world) :
  (assert_ true msg ≫= f) w = f () w.
Proof. done. Qed.

Lemma bind_assert_false {A} (msg : string) (f : unit → M A) (w : world) :
  (assert_ false msg ≫= f) w = (w, Raise (AssertionError msg)).
Proof. done. Qed.

Lemma existsb_isnan_false (p : list float64) :
  existsb isnan p = false ↔ ¬ ∃ x, x ∈ p ∧ isnan x = true.
Proof.
  rewrite <-not_true_iff_false, existsb_exists.
  by setoid_rewrite list_elem_of_In.
Qed.

Lemma not_invalid_with pattern normalise :
  ¬ invalid_arguments_with sum_of pattern normalise ↔
  ndim pattern = 1%nat ∧ 2 ≤ len (data pattern)
  ∧ existsb isnan (data pattern) = false
  ∧ normalise_valid_with sum_of (data pattern) normalise.
Proof.
  unfold invalid_arguments_with. rewrite existsb_isnan_false. split.
  - intros H. split_and!.
    + destruct (decide (ndim pattern = 1%nat)); [done|]. exfalso. auto.
    + destruct (decide (2 ≤ len (data pattern))); [done|]. exfalso. apply H. right. left. lia.
    + intros Hn. apply H. auto.
    + destruct normalise as [s|]; simpl; [|done]. split.
      * intros ->. apply H. do 3 right. eauto.
      * intros Ht. apply H. do 3 right. eauto.
  - intros (H1 & H2 & H3 & H4) [H|[H|[H|(s & -> & H)]]]; try done; try lia.
    simpl in H4. destruct H4, H; done.
Qed.

Lemma init_valid_with pattern normalise w :
  ¬ invalid_arguments_with sum_of pattern normalise →
  TriMeshStencil_init_with sum_of pattern normalise w
  = (warned (len (data pattern)) w,
     OK (built (final_pattern_with sum_of (data pattern) normalise))).
Proof.
  rewrite not_invalid_with. intros (H1 & H2 & H3 & H4).
  unfold TriMeshStencil_init_with.
  rewrite bool_decide_eq_true_2 by done. rewrite bind_assert_true.
  destruct (Z.ltb_spec 1 (len (data pattern))); [|lia]. rewrite bind_assert_true.
  rewrite H3. simpl negb. rewrite bind_assert_true.
  set (p := data pattern) in *.
  assert (∀ w1,
    (pat ← match normalise with
           | Some s => normalise_pattern_with sum_of (len p) p s
           | None => mret p
           end; 
     half_hex ← lift (build_half_hex (len p) pat);
     let start_ip := (λ r : half_hex_row, r.1.1) <$> half_hex in
     let row_length := (λ r : half_hex_row, r.1.2) <$> half_hex in
     hh ← lift (pack_half_hex (len p) row_length half_hex);
     mret {| self_n := len p;
            self_start_ip := start_ip;
            self_row_length := row_length;
            self_half_hex := hh;
            self_pattern := pat |}) w1 = (w1, OK (built (final_pattern_with sum_of p normalise)))) as Hrest.
  { intros w1. unfold mbind at 1. unfold M_bind at 1.
    assert (match normalise with
           | Some s => normalise_pattern_with sum_of (len p) p s
           | None => mret p
           end w1 = (w1, OK (final_pattern_with sum_of p normalise))) as ->.
    { destruct normalise as [s|]; [|done]. destruct H4. simpl.
      apply normalise_pattern_ok_with; [lia|done..]. }
    rewrite <-(len_final_pattern_with p normalise).
    apply build_ok. rewrite len_final_pattern_with. lia. }
  unfold mbind at 1. unfold M_bind at 1. unfold warned.
  destruct (50 <? len p); simpl; apply Hrest.
Qed.

Lemma init_invalid_with pattern normalise w :
  invalid_arguments_with sum_of pattern normalise →
  ∃ msg w', TriMeshStencil_init_with sum_of pattern normalise w
            = (w', Raise (AssertionError msg)).
Proof.
  intros Hinv. unfold TriMeshStencil_init_with.
  destruct (decide (ndim pattern = 1%nat)) as [H1|H1].
  2:{ rewrite bool_decide_eq_false_2 by done. rewrite bind_assert_false. eauto. }
  rewrite bool_decide_eq_true_2 by done. rewrite bind_assert_true.
  destruct (Z.ltb_spec 1 (len (data pattern))) as [H2|H2].
  2:{ rewrite bind_assert_false. eauto. }
  rewrite bind_assert_true.
  destruct (existsb isnan (data pattern)) eqn:H3.
  { simpl negb. rewrite bind_assert_false. eauto. }
  simpl negb. rewrite bind_assert_true.
  destruct Hinv as [H|[H|[H|(s & -> & H)]]]; [done|lia|by apply existsb_isnan_false in H3|].
  set (p := data pattern) in *.
  assert (∀ w1, ∃ msg,
    normalise_pattern_with sum_of (len p) p s w1 = (w1, Raise (AssertionError msg))) as Hn.
  { intros w1. unfold normalise_pattern_with.
    destruct (isclose s fzero) eqn:Es.
    { simpl negb. rewrite bind_assert_false. eauto. }
    simpl negb. rewrite bind_assert_true.
    destruct H as [->|Ht]; [done|].
    rewrite Ht. change (isclose fzero fzero) with true.
    simpl negb. rewrite bind_assert_false. eauto. }
  unfold mbind at 1. unfold M_bind at 1.
  destruct (50 <? len p); simpl.
  - unfold mbind at 1. unfold M_bind at 1.
    edestruct Hn as [msg ->]. eauto.
  - unfold mbind at 1. unfold M_bind at 1.
    edestruct Hn as [msg ->]. eauto.
Qed.

End pattern_sum.

Lemma normalised_eq p s :
  imap ring_divide ((λ x, fmul x (fdiv s (np_sum p))) <$> p) = normalised p s.
Proof. apply normalised_eq_with. Qed.

Lemma len_normalised p s : len (normalised p s) = len p.
Proof. apply len_normalised_with. Qed.

Lemma len_final_pattern p normalise : len (final_pattern p normalise) = len p.
Proof. apply len_final_pattern_with. Qed.

Lemma normalise_pattern_ok p s w :
  1 ≤ len p → s ≠ fzero → np_sum p ≠ fzero →
  normalise_pattern (len p) p s w = (w, OK (normalised p s)).
Proof. apply normalise_pattern_ok_with. Qed.

Lemma not_invalid pattern normalise :
  ¬ invalid_arguments pattern normalise ↔
  ndim pattern = 1%nat ∧ 2 ≤ len (data pattern)
  ∧ existsb isnan (data pattern) = false
  ∧ normalise_valid (data pattern) normalise.
Proof. apply not_invalid_with. Qed.

Lemma init_valid pattern normalise w :
  ¬ invalid_arguments pattern normalise →
  TriMeshStencil_init pattern normalise w
  = (warned (len (data pattern)) w,
     OK (built (final_pattern (data pattern) normalise))).
Proof. apply init_valid_with. Qed.

Lemma init_invalid pattern normalise w :
  invalid_arguments pattern normalise →
  ∃ msg w', TriMeshStencil_init pattern normalise w
            = (w', Raise (AssertionError msg)).
Proof. apply init_invalid_with. Qed.

Lemma shape2_row (a : array2) rows cols (j : Z) :
  shape2 a rows cols → 0 ≤ j < rows →
  ∃ r, a !! Z.to_nat j = Some r ∧ len r = cols.
Proof.
  intros [Hl Hr] Hj.
  destruct (lookup_lt_is_Some_2 a (Z.to_nat j)) as [r Hrow]; [unfold len in *; lia|].
  exists r. split; [done|]. by eapply (Forall_lookup_1 _ _ _ _ Hr).
Qed.

Lemma at2_lookup (a : array2) (j i : Z) r x :
  a !! Z.to_nat j = Some r → r !! Z.to_nat i = Some x → at2 a j i = x.
Proof.
  intros Hr Hx. unfold at2.
  by rewrite (list_lookup_total_correct _ _ _ Hr), (list_lookup_total_correct _ _ _ Hx).
Qed.

Lemma getitem2_shape (a : array2) rows cols (j i : Z) :
  shape2 a rows cols → 0 ≤ j < rows → 0 ≤ i < cols →
  getitem2 a j i = OK (at2 a j i).
Proof.
  intros Hs Hj Hi. destruct (shape2_row a rows cols j Hs Hj) as (r & Hr & Hlen).
  destruct (lookup_lt_is_Some_2 r (Z.to_nat i)) as [x Hx]; [unfold len in *; lia|].
  unfold getitem2. rewrite (getitem_lookup _ _ r) by (lia || done). simpl.
  rewrite (getitem_lookup _ _ x) by (lia || done).
  by rewrite (at2_lookup a j i r x).
Qed.

Lemma setitem2_shape (a : array2) rows cols (j i : Z) (x : float64) :
  shape2 a rows cols → 0 ≤ j < rows → 0 ≤ i < cols →
  ∃ a', setitem2 a j i x = OK a' ∧ shape2 a' rows cols
        ∧ ∀ j' i', 0 ≤ j' → 0 ≤ i' →
            at2 a' j' i' = if decide (j' = j ∧ i' = i) then x else at2 a j' i'.
Proof.
  intros Hs Hj Hi. destruct (shape2_row a rows cols j Hs Hj) as (r & Hr & Hlen).
  destruct Hs as [Hl Hrows].
  unfold setitem2. rewrite (getitem_lookup _ _ r) by (lia || done). simpl.
  rewrite setitem_in by lia. simpl. rewrite setitem_in by lia.
  eexists. split; [done|]. split; [split|].
  - unfold len. rewrite length_insert. done.
  - apply Forall_insert; [done|]. unfold len. by rewrite length_insert.
  - intros j' i' Hj' Hi'. unfold at2.
    destruct (decide (Z.to_nat j' = Z.to_nat j)) as [Ej|Ej].
    + rewrite Ej. rewrite list_lookup_total_insert_eq by (unfold len in *; lia).
      destruct (decide (Z.to_nat i' = Z.to_nat i)) as [Ei|Ei].
      * rewrite Ei, list_lookup_total_insert_eq by (unfold len in *; lia).
        rewrite decide_True; [done|lia].
      * rewrite list_lookup_total_insert_ne by done.
        rewrite decide_False by lia.
        by rewrite (list_lookup_total_correct _ _ _ Hr).
    + rewrite list_lookup_total_insert_ne by done.
      rewrite decide_False by lia. done.
Qed.

Lemma assign_rows_ok (src : array2) (b cols : Z) (fill : float64) :
  0 ≤ b → 0 ≤ cols →
  Forall (λ r, len r = cols) src →
  assign_rows (replicate (length src) (replicate (Z.to_nat (cols + 2 * b)) fill))
    src (Some b) (Some (b + cols))
  = OK ((λ r, replicate (Z.to_nat b) fill ++ r ++ replicate (Z.to_nat b) fill) <$> src).
Proof.
  intros Hb Hc Hsrc. induction Hsrc as [|r src Hr Hsrc IH]; [done|].
  simpl. rewrite IH.
  assert (setslice (replicate (Z.to_nat (cols + 2 * b)) fill) (Some b) (Some (b + cols)) r
          = OK (replicate (Z.to_nat b) fill ++ r ++ replicate (Z.to_nat b) fill)) as ->; [|done].
  unfold setslice, slice_bound. rewrite len_replicate.
  destruct (Z.ltb_spec b 0); [lia|].
  destruct (Z.ltb_spec (b + cols) 0); [lia|].
  rewrite !Z.min_l by lia.
  replace (b + cols - b) with cols by lia. rewrite (Z.max_r 0 cols) by lia.
  rewrite Hr, Z.eqb_refl. rewrite take_replicate, drop_replicate.
  replace (Z.to_nat b `min` Z.to_nat (cols + 2 * b))%nat with (Z.to_nat b) by lia.
  by replace (Z.to_nat (cols + 2 * b) - Z.to_nat (b + cols))%nat with (Z.to_nat b) by lia.
Qed.

Lemma pad_ok (fill : float64) (tm : TriMesh) (b : Z) :
  mesh_wf tm → 0 ≤ b →
  (z ← np_full2 (nj tm + 2 * b) (ni tm + 2 * b) fill;
   setslice2 z (Some b) (Some (b + nj tm)) (Some b) (Some (b + ni tm))
     (full_array_ref_z tm))
  = OK (padded fill tm b).
Proof.
  intros (Hnj & Hni & Hlen & Hrows) Hb. unfold np_full2.
  rewrite np_full_ok by lia. simpl. rewrite np_full_ok by lia. simpl.
  unfold setslice2, slice_bound, full_array_ref_z. rewrite len_replicate.
  destruct (Z.ltb_spec b 0); [lia|].
  destruct (Z.ltb_spec (b + nj tm) 0); [lia|].
  rewrite !Z.min_l by lia.
  replace (b + nj tm - b) with (nj tm) by lia. rewrite (Z.max_r 0 (nj tm)) by lia.
  rewrite Hlen, Z.eqb_refl.
  rewrite !drop_replicate, !take_replicate.
  replace (Z.to_nat (nj tm) `min` (Z.to_nat (nj tm + 2 * b) - Z.to_nat b))%nat
    with (length (z_values tm)) by (unfold len in *; lia).
  rewrite assign_rows_ok by done. simpl. unfold padded.
  do 3 f_equal; [f_equal; lia|]. f_equal. lia.
Qed.

Lemma shape2_padded fill tm b :
  mesh_wf tm → 0 ≤ b →
  shape2 (padded fill tm b) (nj tm + 2 * b) (ni tm + 2 * b).
Proof.
  intros (Hnj & Hni & Hlen & Hrows) Hb. unfold padded. split.
  - len_simpl. unfold len in *. rewrite length_fmap. lia.
  - rewrite !Forall_app. split_and!.
    + apply Forall_replicate. len_simpl. lia.
    + apply Forall_fmap. eapply Forall_impl; [exact Hrows|].
      intros r Hr. simpl in *. len_simpl. lia.
    + apply Forall_replicate. len_simpl. lia.
Qed.

Lemma at2_padded tm b (j i : Z) :
  mesh_wf tm → 0 ≤ b →
  0 ≤ j < nj tm + 2 * b → 0 ≤ i < ni tm + 2 * b →
  at2 (padded NaN tm b) j i = source_value tm (j - b) (i - b).
Proof.
  intros (Hnj & Hni & Hlen & Hrows) Hb Hj Hi. unfold padded, source_value.
  set (blank := replicate (Z.to_nat (ni tm + 2 * b)) NaN).
  assert (blank !! Z.to_nat i = Some NaN) as Hblank.
  { apply lookup_replicate_2. lia. }
  destruct (decide (j < b)) as [Hjb|Hjb].
  { rewrite decide_False by lia. eapply at2_lookup; [|exact Hblank].
    rewrite lookup_app_l by (rewrite length_replicate; lia).
    apply lookup_replicate_2. lia. }
  destruct (decide (b + nj tm ≤ j)) as [Hjn|Hjn].
  { rewrite decide_False by lia. eapply at2_lookup; [|exact Hblank].
    rewrite lookup_app_r by (rewrite length_replicate; lia).
    rewrite lookup_app_r by (rewrite length_replicate, length_fmap; unfold len in *; lia).
    apply lookup_replicate_2. rewrite length_replicate, length_fmap. unfold len in *. lia. }
  destruct (shape2_row (z_values tm) (nj tm) (ni tm) (j - b)) as (r & Hr & Hrl);
    [done|lia|].
  assert ((replicate (Z.to_nat b) blank
           ++ ((λ r, replicate (Z.to_nat b) NaN ++ r ++ replicate (Z.to_nat b) NaN) <$> z_values tm)
           ++ replicate (Z.to_nat b) blank) !! Z.to_nat j
          = Some (replicate (Z.to_nat b) NaN ++ r ++ replicate (Z.to_nat b) NaN)) as Hrow.
  { rewrite lookup_app_r by (rewrite length_replicate; lia).
    rewrite lookup_app_l by (rewrite length_replicate, length_fmap; unfold len in *; lia).
    rewrite list_lookup_fmap, length_replicate.
    replace (Z.to_nat j - Z.to_nat b)%nat with (Z.to_nat (j - b)) by lia.
    by rewrite Hr. }
  destruct (decide (i < b)) as [Hib|Hib].
  { rewrite decide_False by lia. eapply at2_lookup; [exact Hrow|].
    rewrite lookup_app_l by (rewrite length_replicate; lia).
    apply lookup_replicate_2. lia. }
  destruct (decide (b + ni tm ≤ i)) as [Hin|Hin].
  { rewrite decide_False by lia. eapply at2_lookup; [exact Hrow|].
    rewrite lookup_app_r by (rewrite length_replicate; lia).
    rewrite lookup_app_r by (rewrite length_replicate; unfold len in *; lia).
    apply lookup_replicate_2. rewrite length_replicate. unfold len in *. lia. }
  rewrite decide_True by lia.
  destruct (lookup_lt_is_Some_2 r (Z.to_nat (i - b))) as [x Hx]; [unfold len in *; lia|].
  rewrite (at2_lookup _ (j - b) (i - b) r x Hr Hx).
  eapply at2_lookup; [exact Hrow|].
  rewrite lookup_app_r by (rewrite length_replicate; lia).
  rewrite lookup_app_l by (rewrite length_replicate; unfold len in *; lia).
  rewrite length_replicate.
  by replace (Z.to_nat i - Z.to_nat b)%nat with (Z.to_nat (i - b)) by lia.
Qed.

Lemma for_each_foldl {A St} (body : St → A → result St) (g : St → A → St) s xs :
  (∀ s x, x ∈ xs → body s x = OK (g s x)) →
  for_each body s xs = OK (foldl g s xs).
Proof.
  revert s. induction xs as [|x xs IH]; intros s Hb; simpl; [done|].
  rewrite Hb by left. simpl. apply IH. intros s' y Hy. apply Hb. by right.
Qed.

Lemma foldl_bind {A B C} (f : A → B → A) (g : C → list B) a (l : list C) :
  foldl f a (l ≫= g) = foldl (λ a x, foldl f a (g x)) a l.
Proof.
  revert a. induction l as [|x l IH]; intros a; simpl; [done|].
  by rewrite foldl_app, IH.
Qed.

Lemma foldl_ext_in {A B} (f g : A → B → A) a (l : list B) :
  (∀ a x, x ∈ l → f a x = g a x) → foldl f a l = foldl g a l.
Proof.
  revert a. induction l as [|x l IH]; intros a Hfg; simpl; [done|].
  rewrite Hfg by left. apply IH. intros. apply Hfg. by right.
Qed.

Section built.
Context (p : list float64) (Hp : 1 ≤ len p).
Let n := len p.

Lemma built_start_ip jp :
  0 ≤ jp < n → self_start_ip (built p) !! Z.to_nat jp = Some (- (n - 1) + jp / 2).
Proof. intros. simpl. by rewrite lookup_closed. Qed.

Lemma built_row_length jp :
  0 ≤ jp < n → self_row_length (built p) !! Z.to_nat jp = Some (2 * n - 1 - jp).
Proof. intros. simpl. by rewrite lookup_closed. Qed.

Lemma built_half_hex_row jp :
  0 ≤ jp < n → self_half_hex (built p) !! Z.to_nat jp = Some (packed_row p jp).
Proof. intros. simpl. by rewrite lookup_closed. Qed.

Lemma len_packed_row jp : 0 ≤ jp < n → len (packed_row p jp) = 2 * n - 1.
Proof.
  intros. unfold packed_row. len_simpl. rewrite len_stencil_row by done.
  fold n. lia.
Qed.

Lemma shape2_built : shape2 (self_half_hex (built p)) n (2 * n - 1).
Proof.
  split; simpl.
  - apply len_closed. lia.
  - apply Forall_fmap, Forall_forall. intros jp Hjp%elem_of_range. simpl.
    by apply len_packed_row.
Qed.

Lemma built_weight jp ip :
  0 ≤ jp < n → 0 ≤ ip < 2 * n - 1 - jp →
  stencil_row p jp !! Z.to_nat ip = Some (at2 (self_half_hex (built p)) jp ip).
Proof.
  intros Hjp Hip.
  destruct (lookup_lt_is_Some_2 (stencil_row p jp) (Z.to_nat ip)) as [x Hx].
  { pose proof (len_stencil_row p jp Hjp) as Hl. unfold n, len in *. lia. }
  rewrite Hx. f_equal. symmetry.
  eapply at2_lookup; [by apply built_half_hex_row|].
  unfold packed_row. by apply lookup_app_l_Some.
Qed.
End built.

Lemma border_of_spec n : 0 ≤ n → n ≤ border_of n ≤ n + 1 ∧ border_of n mod 2 = 0.
Proof.
  intros Hn. unfold border_of. case_decide as H.
  - pose proof (Z.mod_pos_bound n 2 ltac:(lia)).
    split; [lia|]. 
    rewrite <-Zplus_mod_idemp_l. replace (n mod 2) with 1 by lia. done.
  - split; [lia|]. lia.
Qed.

Lemma parity_shift j b : b mod 2 = 0 → (j + b) mod 2 = j mod 2.
Proof.
  intros Hb. rewrite <-Zplus_mod_idemp_r, Hb, Z.add_0_r. done.
Qed.

Lemma tap_bounds n b nj ni J I jp ip :
  1 ≤ n → n ≤ b →
  b ≤ J < b + nj → b ≤ I < b + ni →
  0 ≤ jp < n → 0 ≤ ip < 2 * n - 1 - jp →
  let i_s := I + (- (n - 1) + jp / 2) + ip + (jp mod 2) * (J mod 2) in
  0 ≤ J - jp < nj + 2 * b ∧ 0 ≤ J + jp < nj + 2 * b ∧ 0 ≤ i_s < ni + 2 * b.
Proof.
  intros Hn Hb HJ HI Hjp Hip. simpl.
  pose proof (Z.mod_pos_bound J 2 ltac:(lia)) as HJ2.
  pose proof (Z.mod_pos_bound jp 2 ltac:(lia)) as Hjp2.
  pose proof (Z.div_mod jp 2 ltac:(lia)) as Hdm.
  assert (0 ≤ jp mod 2 * (J mod 2) ≤ jp mod 2) as Hprod by nia.
  lia.
Qed.

Lemma built_tap_column p j i jp ip :
  0 ≤ jp < len p →
  tap_column (built p) j i jp ip
  = i + (- (len p - 1) + jp / 2) + ip + (jp mod 2) * (j mod 2).
Proof.
  intros Hjp. unfold tap_column.
  by rewrite (list_lookup_total_correct _ _ _ (built_start_ip p jp Hjp)).
Qed.

Lemma bind_OK {A B} (x : A) (f : A → result B) : OK x ≫= f = f x.
Proof. done. Qed.

Section loops_with_indexing.
Variable start_ip_at row_length_at : Z → result Z.
Variable half_hex_at tm_z_at : Z → Z → result float64.
Variable applied_set : array2 → Z → Z → float64 → result array2.

Lemma cell_sums_at_ok p tm J I :
  mesh_wf tm → 1 ≤ len p →
  let st := built p in
  let b := border_of (len p) in
  (∀ jp, 0 ≤ jp < len p → start_ip_at jp = OK (- (len p - 1) + jp / 2)) →
  (∀ jp, 0 ≤ jp < len p → row_length_at jp = OK (2 * len p - 1 - jp)) →
  (∀ jp ip, 0 ≤ jp < len p → 0 ≤ ip < 2 * len p - 1 - jp →
            half_hex_at jp ip = OK (at2 (self_half_hex st) jp ip)) →
  (∀ j i, 0 ≤ j < nj tm + 2 * b → 0 ≤ i < ni tm + 2 * b →
          tm_z_at j i = OK (at2 (padded NaN tm b) j i)) →
  b ≤ J < b + nj tm → b ≤ I < b + ni tm →
  cell_sums_at start_ip_at row_length_at half_hex_at tm_z_at
    (self_n st) J I (J mod 2)
  = OK (foldl acc_tap (fzero, fzero) (taps st tm (J - b) (I - b))).
Proof.
  intros Hwf Hp st b Hstart Hrl Hhh Hz HJ HI. subst st.
  destruct (border_of_spec (len p)) as [Hb Heven]; [lia|]. fold b in Hb, Heven.
  assert (0 ≤ b) as Hb0 by lia.
  unfold cell_sums_at, taps. rewrite foldl_bind.
  apply for_each_foldl. intros acc jp Hjp%elem_of_range. simpl in Hjp.
  unfold ring_step_at.
  rewrite Hstart, bind_OK by done.
  rewrite Hrl, bind_OK by done.
  rewrite (list_lookup_total_correct _ _ _ (built_row_length p jp Hjp)).
  rewrite foldl_bind.
  apply for_each_foldl. intros acc' ip Hip%elem_of_range.
  destruct (tap_bounds (len p) b (nj tm) (ni tm) J I jp ip) as (Hm & Hpl & Hc);
    [lia..|].
  unfold tap_step_at.
  rewrite (Hz _ _ Hm Hc), bind_OK.
  rewrite Hhh, bind_OK by (done || lia).
  rewrite (Hz _ _ Hpl Hc), bind_OK.
  rewrite !at2_padded by done.
  rewrite built_tap_column by done.
  replace (J mod 2) with ((J - b) mod 2)
    by (rewrite <-(parity_shift (J - b) b Heven); f_equal; lia).
  replace (I + (- (len p - 1) + jp `div` 2) + ip + jp mod 2 * ((J - b) mod 2) - b)
    with (I - b + (- (len p - 1) + jp `div` 2) + ip + jp mod 2 * ((J - b) mod 2)) by lia.
  replace (J - jp - b) with (J - b - jp) by lia.
  replace (J + jp - b) with (J - b + jp) by lia.
  case_decide; done.
Qed.

Lemma nanmean_loops_ok n (R C b onj oni : Z)
    (acc : Z → Z → float64 * float64) (a0 : array2) :
  0 ≤ b → 0 ≤ onj → 0 ≤ oni → b + onj ≤ R → b + oni ≤ C →
  shape2 a0 R C →
  (∀ a j i x, shape2 a R C → 0 ≤ j < R → 0 ≤ i < C →
              applied_set a j i x = setitem2 a j i x) →
  (∀ J I, b ≤ J < b + onj → b ≤ I < b + oni →
          cell_sums_at start_ip_at row_length_at half_hex_at tm_z_at
            n J I (J mod 2) = OK (acc J I)) →
  ∃ a, nanmean_loops start_ip_at row_length_at half_hex_at tm_z_at applied_set
         n a0 b onj oni = OK a
       ∧ shape2 a R C
       ∧ ∀ J I, 0 ≤ J → 0 ≤ I →
           at2 a J I = if decide (b ≤ J < b + onj ∧ b ≤ I < b + oni)
                       then cell_update (acc J I) (at2 a0 J I)
                       else at2 a0 J I.
Proof.
  intros Hb Hnj Hni HR HC Hs0 Hset Hcell. unfold nanmean_loops.
  destruct (for_each_range
    (λ applied j,
       let j_odd := j mod 2 in
       for_each (cell_step_at start_ip_at row_length_at half_hex_at tm_z_at
                   applied_set n j j_odd)
         applied (range b (b + oni)))
    (λ k a, shape2 a R C
            ∧ ∀ J I, 0 ≤ J → 0 ≤ I →
                at2 a J I = if decide (b ≤ J < k ∧ b ≤ I < b + oni)
                            then cell_update (acc J I) (at2 a0 J I)
                            else at2 a0 J I)
    b (b + onj) a0) as (a & Hrun & Hsh & Hval); [lia| | |by eauto].
  { split; [done|]. intros. rewrite decide_False by lia. done. }
  intros k a1 Hk [Hs1 Hv1]. simpl.
  destruct (for_each_range
    (cell_step_at start_ip_at row_length_at half_hex_at tm_z_at
       applied_set n k (k mod 2))
    (λ c a, shape2 a R C
            ∧ ∀ J I, 0 ≤ J → 0 ≤ I →
                at2 a J I = if decide (J = k ∧ b ≤ I < c)
                            then cell_update (acc J I) (at2 a1 J I)
                            else at2 a1 J I)
    b (b + oni) a1) as (a2 & Hrun2 & Hs2 & Hv2); [lia| | |].
  { split; [done|]. intros. rewrite decide_False by lia. done. }
  { intros c a2 Hc [Hs2 Hv2]. unfold cell_step_at.
    rewrite Hcell by lia. simpl.
    destruct (acc k c) as [s ws] eqn:Eacc.
    destruct (fne ws fzero) eqn:Ews.
    - rewrite Hset by (done || lia).
      destruct (setitem2_shape a2 R C k c (fdiv s ws) Hs2) as (a3 & -> & Hs3 & Hv3);
        [lia..|].
      exists a3. split; [done|]. split; [done|].
      intros J I HJ HI. rewrite Hv3, Hv2 by done.
      destruct (decide (J = k ∧ I = c)) as [[-> ->]|Hne].
      + rewrite decide_True by lia. unfold cell_update. rewrite Eacc. simpl. by rewrite Ews.
      + repeat case_decide; try done; lia.
    - exists a2. split; [done|]. split; [done|].
      intros J I HJ HI. rewrite Hv2 by done.
      destruct (decide (J = k ∧ I = c)) as [[-> ->]|Hne].
      + rewrite decide_False by lia. rewrite decide_True by lia.
        unfold cell_update. rewrite Eacc. simpl. by rewrite Ews.
      + repeat case_decide; try done; lia. }
  exists a2. split; [done|]. split; [done|].
  intros J I HJ HI. rewrite Hv2, Hv1 by done.
  repeat case_decide; try done; lia.
Qed.

End loops_with_indexing.

Lemma cell_sums_ok p tm J I :
  mesh_wf tm → 1 ≤ len p →
  let st := built p in
  let b := border_of (len p) in
  b ≤ J < b + nj tm → b ≤ I < b + ni tm →
  cell_sums (self_n st) (self_start_ip st) (self_row_length st) (self_half_hex st)
    (padded NaN tm b) J I (J mod 2)
  = OK (foldl acc_tap (fzero, fzero) (taps st tm (J - b) (I - b))).
Proof.
  intros Hwf Hp st b HJ HI. subst st.
  destruct (border_of_spec (len p)) as [Hb Heven]; [lia|]. fold b in Hb.
  pose proof (shape2_padded NaN tm b Hwf ltac:(lia)) as Hshape.
  apply cell_sums_at_ok; try done.
  - intros jp Hjp. apply getitem_lookup; [lia|]. by apply built_start_ip.
  - intros jp Hjp. apply getitem_lookup; [lia|]. by apply built_row_length.
  - intros jp ip Hjp Hip.
    apply (getitem2_shape _ _ _ _ _ (shape2_built p Hp)); lia.
  - intros j i Hj Hi. by apply (getitem2_shape _ _ _ _ _ Hshape).
Qed.

Lemma nanmean_ok n start_ip row_length hh z (R C b onj oni : Z)
    (acc : Z → Z → float64 * float64) (a0 : array2) :
  0 ≤ b → 0 ≤ onj → 0 ≤ oni → b + onj ≤ R → b + oni ≤ C →
  shape2 a0 R C →
  (∀ J I, b ≤ J < b + onj → b ≤ I < b + oni →
          cell_sums n start_ip row_length hh z J I (J mod 2) = OK (acc J I)) →
  ∃ a, apply_stencil_nanmean n start_ip row_length hh z a0 b onj oni = OK a
       ∧ shape2 a R C
       ∧ ∀ J I, 0 ≤ J → 0 ≤ I →
           at2 a J I = if decide (b ≤ J < b + onj ∧ b ≤ I < b + oni)
                       then cell_update (acc J I) (at2 a0 J I)
                       else at2 a0 J I.
Proof.
  intros Hb Hnj Hni HR HC Hs0 Hcell.
  by apply (nanmean_loops_ok _ _ _ _ _ n R C).
Qed.

Lemma fsum_cons x l : fsum (x :: l) = fadd x (fsum l).
Proof. done. Qed.

Lemma acc_tap_sums ts a ws :
  foldl acc_tap (a, ws) ts
  = (fadd a (weighted_sum ts), fadd ws (weight_total ts)).
Proof.
  revert a ws. induction ts as [|[v s] ts IH]; intros a ws.
  - simpl. unfold weighted_sum, weight_total. simpl. by rewrite !fadd_0_r.
  - simpl. unfold acc_tap at 2, accumulate, weighted_sum, weight_total. simpl.
    rewrite !filter_cons. destruct v as [|v]; simpl.
    + apply IH.
    + rewrite IH. simpl.
      unfold weighted_sum, weight_total.
      by rewrite !fadd_assoc.
Qed.

Lemma cell_update_mean ts :
  cell_update (foldl acc_tap (fzero, fzero) ts) NaN = weighted_mean ts.
Proof.
  rewrite acc_tap_sums, !fadd_0_l. done.
Qed.

Lemma np_full2_ok rows cols x :
  0 ≤ rows → 0 ≤ cols →
  np_full2 rows cols x = OK (replicate (Z.to_nat rows) (replicate (Z.to_nat cols) x)).
Proof.
  intros. unfold np_full2. rewrite np_full_ok by lia. simpl. by rewrite np_full_ok by lia.
Qed.

Lemma shape2_replicate rows cols (x : float64) :
  0 ≤ rows → 0 ≤ cols →
  shape2 (replicate (Z.to_nat rows) (replicate (Z.to_nat cols) x)) rows cols.
Proof.
  intros. split; [len_simpl; lia|]. apply Forall_replicate. len_simpl. lia.
Qed.

Lemma at2_replicate rows cols (x : float64) j i :
  0 ≤ j < rows → 0 ≤ i < cols →
  at2 (replicate (Z.to_nat rows) (replicate (Z.to_nat cols) x)) j i = x.
Proof.
  intros. eapply at2_lookup; apply lookup_replicate_2; lia.
Qed.

Lemma getslice_mid {A} (l : list A) (b k : Z) :
  0 ≤ b → 0 ≤ k → b + k ≤ len l →
  getslice l (Some b) (Some (b + k)) = take (Z.to_nat k) (drop (Z.to_nat b) l).
Proof.
  intros. unfold getslice, slice_bound.
  destruct (Z.ltb_spec b 0); [lia|].
  destruct (Z.ltb_spec (b + k) 0); [lia|].
  rewrite !Z.min_l by lia. do 2 f_equal. lia.
Qed.

Lemma getslice2_tabulate (a : array2) (R C b rows cols : Z) :
  shape2 a R C → 0 ≤ b → 0 ≤ rows → 0 ≤ cols → b + rows ≤ R → b + cols ≤ C →
  getslice2 a (Some b) (Some (b + rows)) (Some b) (Some (b + cols))
  = (λ j, (λ i, at2 a (b + j) (b + i)) <$> range 0 cols) <$> range 0 rows.
Proof.
  intros Hs Hb Hr Hc HR HC. pose proof Hs as [Hlen Hrows].
  unfold getslice2. rewrite getslice_mid by lia.
  apply list_eq. intros j.
  rewrite !list_lookup_fmap.
  destruct (decide (Z.of_nat j < rows)) as [Hj|Hj].
  2:{ rewrite lookup_take_ge by lia.
      rewrite (lookup_ge_None_2 (range 0 rows)) by (rewrite length_range; lia). done. }
  rewrite lookup_take_lt, lookup_drop by lia.
  rewrite lookup_range by lia. simpl.
  destruct (shape2_row a R C (b + Z.of_nat j) Hs) as (r & Hrow & Hrl); [lia|].
  replace (Z.to_nat b + j)%nat with (Z.to_nat (b + Z.of_nat j)) by lia.
  rewrite Hrow. simpl. f_equal.
  rewrite getslice_mid by lia.
  apply list_eq. intros i. rewrite list_lookup_fmap.
  destruct (decide (Z.of_nat i < cols)) as [Hi|Hi].
  2:{ rewrite lookup_take_ge by lia.
      rewrite (lookup_ge_None_2 (range 0 cols)) by (rewrite length_range; lia). done. }
  rewrite lookup_take_lt, lookup_drop by lia.
  rewrite lookup_range by lia. simpl.
  destruct (lookup_lt_is_Some_2 r (Z.to_nat (b + Z.of_nat i))) as [x Hx];
    [unfold len in *; lia|].
  replace (Z.to_nat b + i)%nat with (Z.to_nat (b + Z.of_nat i)) by lia.
  rewrite Hx. f_equal. symmetry. by eapply at2_lookup.
Qed.

Lemma tabulate_ext (f g : Z → Z → float64) rows cols :
  (∀ j i, 0 ≤ j < rows → 0 ≤ i < cols → f j i = g j i) →
  (λ j, (λ i, f j i) <$> range 0 cols) <$> range 0 rows
  = (λ j, (λ i, g j i) <$> range 0 cols) <$> range 0 rows.
Proof.
  intros Hfg. apply list_fmap_ext. intros k1 j Hj%list_elem_of_lookup_2%elem_of_range.
  apply list_fmap_ext. intros k2 i Hi%list_elem_of_lookup_2%elem_of_range.
  by apply Hfg.
Qed.

Lemma apply_ok p tm l new_title w :
  1 ≤ len p → heap w !! l = Some tm → mesh_wf tm →
  apply (built p) l true new_title w
  = TriMesh_new (applied_mesh (built p) tm new_title) (informed tm w).
Proof.
  intros Hp Hl Hwf. pose proof Hwf as (Hnj & Hni & Hshape).
  destruct (border_of_spec (len p)) as [Hb Heven]; [lia|].
  unfold apply.
  unfold mbind at 1. unfold M_bind at 1. unfold deref at 1. rewrite Hl.
  unfold mbind at 1. unfold M_bind at 1. unfold log_ at 1. fold (informed tm w).
  change (if decide (self_n (built p) mod 2 ≠ 0) then self_n (built p) + 1 else self_n (built p))
    with (border_of (len p)).
  set (b := border_of (len p)) in *.
  cbv zeta.
  unfold mbind at 1. unfold M_bind at 1. unfold lift at 1.
  rewrite np_full2_ok by lia.
  unfold mbind at 1. unfold M_bind at 1. unfold lift at 1.
  pose proof (pad_ok NaN tm b Hwf ltac:(lia)) as Hpad.
  rewrite np_full2_ok in Hpad by lia. simpl in Hpad. rewrite Hpad.
  unfold mbind at 1. unfold M_bind at 1. unfold lift at 1.
  unfold mbind at 1. unfold M_bind at 1. unfold lift at 1.
  destruct (nanmean_ok (self_n (built p)) (self_start_ip (built p))
    (self_row_length (built p)) (self_half_hex (built p)) (padded NaN tm b)
    (nj tm + 2 * b) (ni tm + 2 * b) b (nj tm) (ni tm)
    (λ J I, foldl acc_tap (fzero, fzero) (taps (built p) tm (J - b) (I - b)))
    (replicate (Z.to_nat (nj tm + 2 * b)) (replicate (Z.to_nat (ni tm + 2 * b)) NaN)))
    as (a & -> & Hsa & Hva); [lia..| | |].
  { apply shape2_replicate; lia. }
  { intros J I HJ HI. by apply cell_sums_ok. }
  f_equal. unfold applied_mesh. f_equal.
  rewrite (getslice2_tabulate a _ _ b (nj tm) (ni tm) Hsa) by lia.
  unfold smoothed. apply tabulate_ext. intros j i Hj Hi.
  rewrite Hva by lia. rewrite decide_True by lia.
  rewrite at2_replicate by lia.
  rewrite cell_update_mean. do 2 f_equal; lia.
Qed.


Lemma stencil_row_ring p jp ip :
  0 ≤ jp < len p → 0 ≤ ip < 2 * len p - 1 - jp →
  stencil_row p jp !! Z.to_nat ip = p !! Z.to_nat (slot_ring (len p) jp ip).
Proof.
  intros Hjp Hip. unfold stencil_row, slot_ring.
  set (tail := drop (Z.to_nat (jp + 1)) p).
  assert (length tail = Z.to_nat (len p - 1 - jp)) as Htail.
  { unfold tail. rewrite length_drop. unfold len. lia. }
  destruct (lookup_lt_is_Some_2 p (Z.to_nat jp)) as [x Hx]; [unfold len in *; lia|].
  rewrite (list_lookup_total_correct _ _ _ Hx).
  case_decide as H1; [|case_decide as H2].
  - rewrite lookup_app_l by (rewrite length_reverse; lia).
    rewrite reverse_lookup by lia. unfold tail. rewrite lookup_drop.
    f_equal. fold tail. unfold len in *. lia.
  - rewrite lookup_app_r by (rewrite length_reverse; lia).
    rewrite lookup_app_l by (rewrite length_reverse, length_replicate; lia).
    rewrite Hx. apply lookup_replicate_2. rewrite length_reverse. lia.
  - rewrite lookup_app_r by (rewrite length_reverse; lia).
    rewrite lookup_app_r by (rewrite length_reverse, length_replicate; lia).
    unfold tail. rewrite lookup_drop. fold tail. f_equal.
    rewrite length_reverse, length_replicate. lia.
Qed.

Lemma slot_ring_range n jp ip :
  0 ≤ jp < n → 0 ≤ ip < 2 * n - 1 - jp → jp ≤ slot_ring n jp ip < n.
Proof. intros. unfold slot_ring. repeat case_decide; lia. Qed.

Lemma mod2_cases j : j mod 2 = 0 ∨ j mod 2 = 1.
Proof. pose proof (Z.mod_pos_bound j 2). lia. Qed.

Lemma tap_offset_x2 n j i jp ip (j' : Z) :
  j' = j - jp ∨ j' = j + jp →
  lattice_x2 j' (i + (- (n - 1) + jp / 2) + ip + (jp mod 2) * (j mod 2))
  - lattice_x2 j i
  = 2 * ip - 2 * (n - 1) + jp.
Proof.
  intros Hj'. unfold lattice_x2.
  assert (j' mod 2 = (j mod 2 + jp mod 2) mod 2) as ->.
  { destruct Hj' as [-> | ->].
    - rewrite <-Zplus_mod. replace (j + jp) with (j - jp + jp * 2) by lia.
      by rewrite Z_mod_plus_full.
    - by rewrite <-Zplus_mod. }
  pose proof (Z.div_mod jp 2 ltac:(lia)) as Hjp.
  destruct (mod2_cases j) as [-> | ->], (mod2_cases jp) as [E | E];
    rewrite E in *.
  - change ((0 + 0) mod 2) with 0. lia.
  - change ((0 + 1) mod 2) with 1. lia.
  - change ((1 + 0) mod 2) with 1. lia.
  - change ((1 + 1) mod 2) with 0. lia.
Qed.

Lemma tap_distance n j i jp ip (j' : Z) :
  0 ≤ jp < n → 0 ≤ ip < 2 * n - 1 - jp →
  j' = j - jp ∨ j' = j + jp →
  hex_distance j i j' (i + (- (n - 1) + jp / 2) + ip + (jp mod 2) * (j mod 2))
  = slot_ring n jp ip.
Proof.
  intros Hjp Hip Hj'. unfold hex_distance. cbv zeta.
  rewrite (tap_offset_x2 n j i jp ip j' Hj').
  replace (Z.abs (j' - j)) with jp by lia.
  unfold slot_ring.
  repeat case_decide.
  - replace (Z.abs (2 * ip - 2 * (n - 1) + jp) - jp) with ((n - 1 - ip - jp) * 2) by lia.
    rewrite Z.div_mul by lia. lia.
  - assert ((Z.abs (2 * ip - 2 * (n - 1) + jp) - jp) / 2 ≤ 0); [|lia].
    apply Z.div_le_upper_bound; lia.
  - replace (Z.abs (2 * ip - 2 * (n - 1) + jp) - jp) with ((1 + ip - n) * 2) by lia.
    rewrite Z.div_mul by lia. lia.
Qed.


Lemma take_packed_row p jp :
  0 ≤ jp < len p →
  take (Z.to_nat (2 * len p - 1 - jp)) (packed_row p jp) = stencil_row p jp.
Proof.
  intros Hjp. unfold packed_row.
  pose proof (len_stencil_row p jp Hjp) as Hl.
  rewrite take_app_length'; [done|]. unfold len in *. lia.
Qed.

(** ** The normalisation sum *)

Lemma foldl_fadd_Fin (qs : list Qc) (a : Qc) :
  foldl fadd (Fin a) (Fin <$> qs) = Fin (a + qsum qs)%Qc.
Proof.
  revert a. induction qs as [|x qs IH]; intros a; simpl.
  - f_equal. ring.
  - rewrite IH. f_equal. ring.
Qed.

Lemma np_sum_Fin (qs : list Qc) : np_sum (Fin <$> qs) = Fin (qsum qs).
Proof.
  unfold np_sum. rewrite fzero_eq, foldl_fadd_Fin. f_equal. ring.
Qed.

Lemma float_of_Z_ne_0 (k : Z) : k ≠ 0 → Q2Qc (inject_Z k) ≠ 0%Qc.
Proof.
  intros Hk E. apply Q2Qc_eq_iff in E. apply Hk.
  unfold Qeq in E. simpl in E. lia.
Qed.

Lemma imap_imap {A B C} (f : nat → B → C) (g : nat → A → B) (l : list A) :
  imap f (imap g l) = imap (λ k x, f k (g k x)) l.
Proof.
  apply list_eq. intros i. rewrite !list_lookup_imap.
  by destruct (l !! i).
Qed.

Lemma fsum_imap_scaled (f : nat → float64 → float64) (c : Qc) (qs : list Qc) :
  (∀ k x, f k (Fin x) = Fin (x * c)%Qc) →
  fsum (imap f (Fin <$> qs)) = Fin (qsum qs * c)%Qc.
Proof.
  revert f. induction qs as [|x qs IH]; intros f Hf; simpl.
  - rewrite fzero_eq. f_equal. ring.
  - change (list_fmap Qc float64 Fin qs) with (Fin <$> qs).
    rewrite Hf, (IH (f ∘ S)) by (intros; apply Hf). simpl. f_equal. ring.
Qed.

Lemma hexagon_total_normalised (qs : list Qc) (s : Qc) :
  s ≠ 0%Qc → qsum qs ≠ 0%Qc →
  hexagon_total (normalised (Fin <$> qs) (Fin s)) = Fin s.
Proof.
  intros Hs Ht. unfold hexagon_total, normalised, normalised_with.
  rewrite imap_imap, np_sum_Fin. simpl. rewrite decide_False by done.
  rewrite (fsum_imap_scaled _ (s / qsum qs)%Qc).
  - f_equal. by field.
  - intros k x. case_decide; [done|]. simpl.
    rewrite decide_False by (apply float_of_Z_ne_0; lia).
    simpl. f_equal. field. split; [done|]. apply float_of_Z_ne_0. lia.
Qed.

(** ** A stencil with a single non zero weight *)

Lemma range_split lo mid hi :
  lo ≤ mid ≤ hi → range lo hi = range lo mid ++ range mid hi.
Proof.
  intros. unfold range.
  replace (hi - lo) with ((mid - lo) + (hi - mid)) by lia.
  rewrite seqZ_app by lia. do 2 f_equal. lia.
Qed.

Lemma range_cons lo hi : lo < hi → range lo hi = lo :: range (lo + 1) hi.
Proof.
  intros. unfold range. rewrite seqZ_cons by lia. do 2 f_equal; lia.
Qed.

Lemma fsum_app l k : fsum (l ++ k) = fadd (fsum l) (fsum k).
Proof.
  induction l as [|x l IH].
  - symmetry. apply fadd_0_l.
  - rewrite <-app_comm_cons, !fsum_cons, IH. apply fadd_assoc.
Qed.

Lemma weighted_sum_app l k :
  weighted_sum (l ++ k) = fadd (weighted_sum l) (weighted_sum k).
Proof. unfold weighted_sum. by rewrite filter_app, fmap_app, fsum_app. Qed.

Lemma weight_total_app l k :
  weight_total (l ++ k) = fadd (weight_total l) (weight_total k).
Proof. unfold weight_total. by rewrite filter_app, fmap_app, fsum_app. Qed.

Lemma zero_weights_sums (ts : list (float64 * float64)) :
  Forall (λ t, t.2 = fzero) ts →
  weighted_sum ts = fzero ∧ weight_total ts = fzero.
Proof.
  induction 1 as [|[v s] ts Hs _ [IH1 IH2]]; [done|].
  simpl in Hs. subst s.
  change ((v, fzero) :: ts) with ([(v, fzero)] ++ ts).
  rewrite weighted_sum_app, weight_total_app, IH1, IH2, !fadd_0_r.
  destruct v as [|v]; [done|].
  unfold weighted_sum, weight_total. simpl. split; [|done].
  rewrite fzero_eq. simpl. change (Q2Qc (inject_Z 0)) with 0%Qc. f_equal. ring.
Qed.

Section identity.
Context (c : Qc) (k : nat) (Hc : c ≠ 0%Qc).
Let p : list float64 := Fin c :: replicate k fzero.
Let n : Z := len p.

Lemma identity_pattern_lookup (r : Z) :
  0 ≤ r < n → p !! Z.to_nat r = Some (if decide (r = 0) then Fin c else fzero).
Proof.
  intros Hr. unfold n, len in Hr. simpl in Hr. rewrite length_replicate in Hr.
  case_decide as H0.
  - by subst r.
  - replace (Z.to_nat r) with (S (Z.to_nat (r - 1))) by lia. simpl.
    apply lookup_replicate_2. lia.
Qed.

Lemma identity_weight jp ip :
  0 ≤ jp < n → 0 ≤ ip < 2 * n - 1 - jp →
  at2 (self_half_hex (built p)) jp ip
  = if decide (jp = 0 ∧ ip = n - 1) then Fin c else fzero.
Proof.
  intros Hjp Hip.
  pose proof (built_weight p jp ip Hjp Hip) as Hw.
  rewrite stencil_row_ring in Hw by done.
  pose proof (slot_ring_range n jp ip Hjp Hip) as Hr.
  rewrite identity_pattern_lookup in Hw by (fold n; lia).
  apply (inj Some) in Hw. rewrite <-Hw. unfold slot_ring. fold n.
  repeat case_decide; try done; lia.
Qed.

Lemma identity_mean tm j i :
  mesh_wf tm → 0 ≤ j < nj tm → 0 ≤ i < ni tm →
  weighted_mean (taps (built p) tm j i) = at2 (z_values tm) j i.
Proof.
  intros Hwf Hj Hi.
  assert (1 ≤ n) as Hn by (unfold n, len; simpl; lia).
  assert (self_n (built p) = n) as Hsn by done.
  unfold taps. rewrite Hsn.
  rewrite (range_cons 0 n) by lia. rewrite bind_cons.
  rewrite (list_lookup_total_correct _ _ _ (built_row_length p 0 ltac:(fold n; lia))).
  fold n. rewrite !Z.sub_0_r.
  rewrite (range_split 0 (n - 1) (2 * n - 1)) by lia.
  rewrite (range_cons (n - 1) (2 * n - 1)) by lia.
  rewrite bind_app, bind_cons.
  rewrite decide_False by lia.
  rewrite identity_weight by (fold n; lia). rewrite decide_True by lia.
  rewrite built_tap_column by (fold n; lia). fold n.
  replace (i + (- (n - 1) + 0 `div` 2) + (n - 1) + 0 `mod` 2 * j `mod` 2)
    with i by (change (0 `div` 2) with 0; change (0 `mod` 2) with 0; lia).
  assert (source_value tm j i = at2 (z_values tm) j i) as ->
    by (unfold source_value; by rewrite decide_True by lia).
  set (A := range 0 (n - 1) ≫= _).
  set (B := range (n - 1 + 1) (2 * n - 1) ≫= _).
  set (C := range (0 + 1) n ≫= _).
  assert (Forall (λ t, t.2 = fzero) A) as HA.
  { apply Forall_forall. intros t (ip & Ht & Hip%elem_of_range)%list_elem_of_bind.
    rewrite decide_False in Ht by lia. apply list_elem_of_singleton in Ht as ->. simpl.
    rewrite identity_weight by (fold n; lia). rewrite decide_False by lia. done. }
  assert (Forall (λ t, t.2 = fzero) B) as HB.
  { apply Forall_forall. intros t (ip & Ht & Hip%elem_of_range)%list_elem_of_bind.
    rewrite decide_False in Ht by lia. apply list_elem_of_singleton in Ht as ->. simpl.
    rewrite identity_weight by (fold n; lia). rewrite decide_False by lia. done. }
  assert (Forall (λ t, t.2 = fzero) C) as HC.
  { apply Forall_forall. intros t (jp & Ht & Hjp%elem_of_range)%list_elem_of_bind.
    rewrite (list_lookup_total_correct _ _ _ (built_row_length p jp ltac:(fold n; lia))) in Ht.
    apply list_elem_of_bind in Ht as (ip & Ht & Hip%elem_of_range). fold n in Hip.
    rewrite decide_True in Ht by lia.
    assert (t.2 = at2 (self_half_hex (built p)) jp ip) as ->.
    { apply elem_of_cons in Ht as [-> | Ht]; [done|].
      by apply list_elem_of_singleton in Ht as ->. }
    rewrite identity_weight by (fold n; lia). rewrite decide_False by lia. done. }
  apply zero_weights_sums in HA as [HA1 HA2], HB as [HB1 HB2], HC as [HC1 HC2].
  unfold weighted_mean.
  rewrite <-!app_assoc.
  rewrite !weighted_sum_app, !weight_total_app.
  rewrite HA1, HA2, HB1, HB2, HC1, HC2, !fadd_0_l, !fadd_0_r.
  destruct (at2 (z_values tm) j i) as [|v]; [done|].
  assert (weighted_sum [(Fin v, Fin c)] = Fin (v * c)%Qc) as ->
    by (unfold weighted_sum; simpl; by rewrite Qcplus_0_r).
  assert (weight_total [(Fin v, Fin c)] = Fin c) as ->
    by (unfold weight_total; simpl; by rewrite Qcplus_0_r).
  unfold fne. rewrite fzero_eq. simpl.
  rewrite bool_decide_eq_false_2, decide_False by done. simpl.
  f_equal. by field.
Qed.
End identity.

Lemma tabulate_at2 (a : array2) (R C : Z) :
  0 ≤ R → 0 ≤ C → shape2 a R C →
  a = (λ j, (λ i, at2 a j i) <$> range 0 C) <$> range 0 R.
Proof.
  intros HR HC Hs.
  transitivity (getslice2 a (Some 0) (Some (0 + R)) (Some 0) (Some (0 + C))).
  - destruct Hs as [Hl Hrows].
    unfold getslice2. rewrite getslice_mid by lia.
    change (Z.to_nat 0) with 0%nat. rewrite drop_0.
    rewrite take_ge by (unfold len in *; lia).
    rewrite <-(list_fmap_id a) at 1.
    apply list_fmap_ext. intros i r Hr. simpl.
    pose proof (Forall_lookup_1 _ _ _ _ Hrows Hr) as Hrl. simpl in Hrl.
    rewrite getslice_mid by lia.
    change (Z.to_nat 0) with 0%nat. rewrite drop_0.
    rewrite take_ge by (unfold len in *; lia). done.
  - rewrite (getslice2_tabulate a R C 0 R C Hs) by lia.
    apply tabulate_ext. intros j i _ _. done.
Qed.

(** ** What a call of [__init__] and of [apply] amounts to *)

Lemma init_inv pattern normalise w w' st :
  TriMeshStencil_init pattern normalise w = (w', OK st) →
  ¬ invalid_arguments pattern normalise
  ∧ st = built (final_pattern (data pattern) normalise)
  ∧ w' = warned (len (data pattern)) w.
Proof.
  intros Hinit.
  assert (¬ invalid_arguments pattern normalise) as Hvalid.
  { intros Hinv. destruct (init_invalid pattern normalise w Hinv) as (msg & w1 & E).
    congruence. }
  rewrite init_valid in Hinit by done. by simplify_eq.
Qed.

Lemma init_inv_len pattern normalise w w' st :
  TriMeshStencil_init pattern normalise w = (w', OK st) →
  ∃ p, st = built p ∧ 2 ≤ len p ∧ len p = len (data pattern).
Proof.
  intros (Hvalid & -> & _)%init_inv.
  apply not_invalid in Hvalid as (_ & Hlen & _).
  eexists. split; [done|]. rewrite len_final_pattern. lia.
Qed.

Lemma shape2_tabulate (f : Z → Z → float64) (R C : Z) :
  0 ≤ R → 0 ≤ C →
  shape2 ((λ j, (λ i, f j i) <$> range 0 C) <$> range 0 R) R C.
Proof.
  intros. split.
  - by apply len_closed.
  - apply Forall_fmap, Forall_forall. intros j _. simpl. by apply len_closed.
Qed.

Lemma at2_tabulate (f : Z → Z → float64) (R C j i : Z) :
  0 ≤ j < R → 0 ≤ i < C →
  at2 ((λ j, (λ i, f j i) <$> range 0 C) <$> range 0 R) j i = f j i.
Proof.
  intros. eapply at2_lookup.
  - by apply (lookup_closed (λ j, (λ i, f j i) <$> range 0 C)).
  - by apply (lookup_closed (f j)).
Qed.

Lemma getitem2_smoothed st tm j i :
  mesh_wf tm → 0 ≤ j < nj tm → 0 ≤ i < ni tm →
  getitem2 (smoothed st tm) j i = OK (weighted_mean (taps st tm j i)).
Proof.
  intros (Hnj & Hni & _) Hj Hi. unfold smoothed.
  rewrite (getitem2_shape _ (nj tm) (ni tm)) by (done || by apply shape2_tabulate).
  by rewrite at2_tabulate.
Qed.

Lemma all_missing_mean ts :
  Forall (λ t : float64 * float64, isnan t.1 = true) ts → weighted_mean ts = NaN.
Proof.
  intros Hts.
  assert (filter (λ t, present t = true) ts = []) as Hnil.
  { induction Hts as [|t ts Ht _ IH]; [done|].
    rewrite filter_cons, decide_False; [done|]. unfold present. by rewrite Ht. }
  unfold weighted_mean, weight_total. by rewrite Hnil.
Qed.

Lemma apply_not_supported st tm l new_title w :
  0 ≤ self_n st → heap w !! l = Some tm → mesh_wf tm →
  apply st l false new_title w
  = (informed tm w,
     Raise (NotImplementedError
              "only smoothing style tri mesh stencil application currently available")).
Proof.
  intros Hn Hl Hwf. pose proof Hwf as (Hnj & Hni & Hshape).
  destruct (border_of_spec (self_n st)) as [Hb Heven]; [lia|].
  unfold apply.
  unfold mbind at 1. unfold M_bind at 1. unfold deref at 1. rewrite Hl.
  unfold mbind at 1. unfold M_bind at 1. unfold log_ at 1. fold (informed tm w).
  change (if decide (self_n st mod 2 ≠ 0) then self_n st + 1 else self_n st)
    with (border_of (self_n st)).
  set (b := border_of (self_n st)) in *.
  cbv zeta.
  unfold mbind at 1. unfold M_bind at 1. unfold lift at 1.
  rewrite np_full2_ok by lia.
  unfold mbind at 1. unfold M_bind at 1. unfold lift at 1.
  pose proof (pad_ok fzero tm b Hwf ltac:(lia)) as Hpad.
  rewrite np_full2_ok in Hpad by lia. simpl in Hpad. rewrite Hpad.
  unfold mbind at 1. unfold M_bind at 1. unfold lift at 1.
  rewrite np_full2_ok by lia.
  done.
Qed.

Lemma TriMesh_new_spec tm' w :
  ∃ l, TriMesh_new tm' w
       = ({| logs := logs w; heap := <[l := tm']> (heap w) |}, OK l)
       ∧ heap w !! l = None.
Proof.
  exists (fresh (dom (heap w))). split; [done|].
  apply not_elem_of_dom, is_fresh.
Qed.

(** * The properties of the design document *)

(** ** Building the stencil *)

(** C3. For every radial pattern of length [n >= 2] that [__init__]
    accepts, the call returns a stencil whose arrays [row_length] and
    [start_ip] have [n] entries with [row_length[0] = 2n - 1],
    [row_length[jp] = row_length[jp - 1] - 1] for every [jp] in [1, n - 1]
    (down to [n] at [jp = n - 1]), [start_ip[0] = -(n - 1)] and
    [start_ip[jp] = -(n - 1) + floor(jp / 2)] for every [jp] in
    [1, n - 1]. *)
Theorem stencil_row_geometry (pattern : ndarray) (normalise : option float64)
    (w : world) :
  ¬ invalid_arguments pattern normalise →
  ∃ st w',
    TriMeshStencil_init pattern normalise w = (w', OK st)
    ∧ let n := self_n st in
      n = len (data pattern) ∧ 2 ≤ n
      ∧ len (self_row_length st) = n ∧ len (self_start_ip st) = n
      ∧ getitem (self_row_length st) 0 = OK (2 * n - 1)
      ∧ (∀ jp, 1 ≤ jp ≤ n - 1 →
           ∃ prev, getitem (self_row_length st) (jp - 1) = OK prev
                   ∧ getitem (self_row_length st) jp = OK (prev - 1))
      ∧ getitem (self_row_length st) (n - 1) = OK n
      ∧ getitem (self_start_ip st) 0 = OK (- (n - 1))
      ∧ (∀ jp, 1 ≤ jp ≤ n - 1 →
           getitem (self_start_ip st) jp = OK (- (n - 1) + jp / 2)).
Proof.
  intros Hvalid. eexists _, _. split; [by apply init_valid|].
  apply not_invalid in Hvalid as (_ & Hlen & _).
  set (p := final_pattern (data pattern) normalise).
  assert (len p = len (data pattern)) as Hp by apply len_final_pattern.
  assert (∀ jp, 0 ≤ jp < len p →
            getitem (self_row_length (built p)) jp = OK (2 * len p - 1 - jp)) as Hrl.
  { intros jp Hjp. apply getitem_lookup; [lia|]. by apply built_row_length. }
  assert (∀ jp, 0 ≤ jp < len p →
            getitem (self_start_ip (built p)) jp = OK (- (len p - 1) + jp / 2)) as Hst.
  { intros jp Hjp. apply getitem_lookup; [lia|]. by apply built_start_ip. }
  cbv zeta. change (self_n (built p)) with (len p).
  split_and!; try done; try lia.
  - apply len_closed. lia.
  - apply len_closed. lia.
  - rewrite Hrl by lia. f_equal. lia.
  - intros jp Hjp. exists (2 * len p - 1 - (jp - 1)).
    rewrite !Hrl by lia. split; [done|]. f_equal. lia.
  - rewrite Hrl by lia. f_equal. lia.
  - rewrite Hst by lia. change (0 `div` 2) with 0. by rewrite Z.add_0_r.
  - intros jp Hjp. by rewrite Hst by lia.
Qed.

(** C3, at the pattern [[1; 2; 3]]. *)
Lemma stencil_row_geometry_witness :
  ¬ invalid_arguments (pat [q 1 1; q 2 1; q 3 1]) None
  ∧ ∃ st w',
      TriMeshStencil_init (pat [q 1 1; q 2 1; q 3 1]) None w0 = (w', OK st)
      ∧ getitem (self_row_length st) 0 = OK 5
      ∧ getitem (self_row_length st) 2 = OK 3
      ∧ getitem (self_start_ip st) 0 = OK (-2)
      ∧ getitem (self_start_ip st) 2 = OK (-1).
Proof.
  assert (¬ invalid_arguments (pat [q 1 1; q 2 1; q 3 1]) None) as Hvalid.
  { apply not_invalid. by split_and!. }
  split; [done|].
  destruct (stencil_row_geometry _ _ w0 Hvalid)
    as (st & w' & Hinit & Hn & _ & _ & _ & Hr0 & _ & Hrn & Hs0 & Hs).
  exists st, w'. specialize (Hs 2). rewrite Hn in *.
  change (len (data (pat [q 1 1; q 2 1; q 3 1]))) with 3 in *.
  split_and!; [done | exact Hr0 | exact Hrn | exact Hs0 | apply Hs; lia].
Defined.



Section classic_sum.
Variable sum_of : list float64 → float64.

Lemma classic_invalid_with pattern normalise :
  invalid_arguments_with sum_of pattern normalise ∨ ¬ invalid_arguments_with sum_of pattern normalise.
Proof.
  destruct (decide (ndim pattern = 1%nat)) as [H1|H1]; [|left; by left].
  destruct (decide (2 ≤ len (data pattern))) as [H2|H2];
    [|left; right; left; lia].
  destruct (existsb isnan (data pattern)) eqn:H3.
  { left. do 2 right. left. apply existsb_exists in H3 as (x & Hx & Hn).
    exists x. by rewrite list_elem_of_In. }
  assert (normalise_valid_with sum_of (data pattern) normalise
          ∨ ¬ normalise_valid_with sum_of (data pattern) normalise) as [H4|H4].
  { destruct normalise as [s|]; simpl; [|by left].
    destruct (decide (s = fzero)) as [->|Hs]; [right; by intros [? _]|].
    destruct (decide (sum_of (data pattern) = fzero)) as [Ht|Ht];
      [right; by intros [_ ?]|]. by left. }
  - right. apply not_invalid_with. done.
  - left. do 3 right. destruct normalise as [s|]; simpl in H4; [|done].
    exists s. split; [done|].
    destruct (decide (s = fzero)); [by left|].
    destruct (decide (sum_of (data pattern) = fzero)); [by right|].
    exfalso. by apply H4.
Qed.

End classic_sum.

Lemma classic_invalid pattern normalise :
  invalid_arguments pattern normalise ∨ ¬ invalid_arguments pattern normalise.
Proof. apply classic_invalid_with. Qed.

(** C7. The construction of a stencil fails with an assertion error
    exactly when the pattern is not one dimensional, has fewer than two
    elements or holds a NaN, or when a normalisation target is given that
    is zero or that comes with a pattern of sum zero; it raises nothing
    else.  The sum is the one the code tests, [t = np.sum(pattern)] of the
    pattern as supplied: the statement holds for every function [sum_of]
    in the place of [np.sum], so for the sum as numpy rounds it.  A valid
    pattern of more than 50 elements (of 51, say) gives a stencil and a
    warning about its size in the log; a pattern of one element is
    refused. *)
Theorem init_validation (sum_of : list float64 → float64) (pattern : ndarray)
    (normalise : option float64) (w : world) :
  (invalid_arguments_with sum_of pattern normalise ↔
     ∃ msg w', TriMeshStencil_init_with sum_of pattern normalise w
               = (w', Raise (AssertionError msg)))
  ∧ (¬ invalid_arguments_with sum_of pattern normalise ↔
       ∃ st w', TriMeshStencil_init_with sum_of pattern normalise w
                = (w', OK st))
  ∧ (¬ invalid_arguments_with sum_of pattern normalise →
     50 < len (data pattern) →
       ∃ st w', TriMeshStencil_init_with sum_of pattern normalise w
                = (w', OK st)
                ∧ logs w'
                  = logs w
                    ++ [(WARNING,
                         "very large stencil pattern length: "
                         +:+ pretty (len (data pattern)))])
  ∧ (len (data pattern) = 1 →
       ∃ msg w', TriMeshStencil_init_with sum_of pattern normalise w
                 = (w', Raise (AssertionError msg))).
Proof.
  assert (invalid_arguments_with sum_of pattern normalise →
          ∃ msg w', TriMeshStencil_init_with sum_of pattern normalise w
                    = (w', Raise (AssertionError msg))) as Hbad
    by apply init_invalid_with.
  assert (¬ invalid_arguments_with sum_of pattern normalise →
          TriMeshStencil_init_with sum_of pattern normalise w
          = (warned (len (data pattern)) w,
             OK (built (final_pattern_with sum_of (data pattern) normalise))))
    as Hgood by apply init_valid_with.
  split_and!.
  - split; [done|]. intros (msg & w' & E).
    destruct (classic_invalid_with sum_of pattern normalise) as [H|H]; [done|].
    rewrite Hgood in E by done. done.
  - split; [intros H; rewrite Hgood by done; eauto|].
    intros (st & w' & E) H. destruct (Hbad H) as (msg & w1 & E'). congruence.
  - intros H Hlen. eexists _, _. split; [by apply Hgood|].
    unfold warned. by destruct (Z.ltb_spec 50 (len (data pattern))); [|lia].
  - intros Hlen. apply Hbad. right. left. lia.
Qed.

(** C7, with the exact sum for [np.sum]: at a pattern of 51 ones, at a
    pattern of one element and at the pattern [[1; -1]], whose sum is zero,
    with the target 1; and, with a sum that gives zero, at the pattern
    [[1e16; 1; -1e16]], which binary64 addition sums to zero. *)
Lemma init_validation_witness :
  (∃ st w',
     TriMeshStencil_init_with np_sum (pat (replicate 51 (q 1 1))) None w0
     = (w', OK st)
     ∧ logs w' = [(WARNING, "very large stencil pattern length: 51")])
  ∧ (∃ msg w',
       TriMeshStencil_init_with np_sum (pat [q 1 1]) None w0
       = (w', Raise (AssertionError msg)))
  ∧ (∃ msg w',
       TriMeshStencil_init_with np_sum (pat [q 1 1; q (-1) 1]) (Some (q 1 1)) w0
       = (w', Raise (AssertionError msg)))
  ∧ (∃ msg w',
       TriMeshStencil_init_with (λ _, fzero)
         (pat [q 10000000000000000 1; q 1 1; q (-10000000000000000) 1])
         (Some (q 1 1)) w0
       = (w', Raise (AssertionError msg))).
Proof.
  split_and!.
  - destruct (init_validation np_sum (pat (replicate 51 (q 1 1))) None w0)
      as (_ & _ & Hwarn & _).
    destruct Hwarn as (st & w' & Hinit & Hlog).
    + apply not_invalid_with.
      split_and!; [reflexivity | by vm_compute | by vm_compute | exact I].
    + by vm_compute.
    + exists st, w'. split; [exact Hinit|].
      rewrite Hlog. vm_compute. reflexivity.
  - destruct (init_validation np_sum (pat [q 1 1]) None w0) as (_ & _ & _ & Hone).
    apply Hone. reflexivity.
  - destruct (init_validation np_sum (pat [q 1 1; q (-1) 1]) (Some (q 1 1)) w0)
      as (Hraise & _).
    apply Hraise. do 3 right. exists (q 1 1). split; [done|]. right.
    apply (bool_decide_eq_true_1
             (np_sum (data (pat [q 1 1; q (-1) 1])) = fzero)).
    by vm_compute.
  - destruct (init_validation (λ _, fzero)
                (pat [q 10000000000000000 1; q 1 1; q (-10000000000000000) 1])
                (Some (q 1 1)) w0) as (Hraise & _).
    apply Hraise. do 3 right. exists (q 1 1). split; [done|]. by right.
Defined.

(** C2. For every radial pattern of length [n >= 2] (of rationals [qs])
    whose sum is not zero and every target [s] that is not zero,
    [__init__] with [normalise = s] returns a stencil whose pattern is the
    given one scaled by [s / sum(pattern)], each ring weight of index
    [k >= 1] divided by [6 k]; the centre weight plus, over the rings
    [k = 1 .. n - 1], [6 k] times the ring weight is then exactly [s]. *)
Theorem normalisation_total (qs : list Qc) (s : Qc) (w : world) :
  2 ≤ len qs → qsum qs ≠ 0%Qc → s ≠ 0%Qc →
  ∃ st w',
    TriMeshStencil_init {| ndim := 1; data := Fin <$> qs |} (Some (Fin s)) w
    = (w', OK st)
    ∧ (∀ (k : nat) x, qs !! k = Some x →
         self_pattern st !! k
         = Some (Fin (if decide (k = 0%nat) then x * (s / qsum qs)
                      else x * (s / qsum qs) / Q2Qc (inject_Z (6 * Z.of_nat k)))%Qc))
    ∧ len (self_pattern st) = len qs
    ∧ hexagon_total (self_pattern st) = Fin s.
Proof.
  intros Hlen Ht Hs.
  assert (¬ invalid_arguments {| ndim := 1; data := Fin <$> qs |} (Some (Fin s)))
    as Hvalid.
  { apply not_invalid. simpl. split_and!; try done.
    - unfold len in *. by rewrite length_fmap.
    - apply existsb_isnan_false.
      intros (x & (y & -> & _)%list_elem_of_fmap & Hx). done.
    - rewrite fzero_eq. intros [= E]. done.
    - rewrite np_sum_Fin, fzero_eq. intros [= E]. done. }
  eexists _, _. split; [by apply init_valid|]. simpl.
  split_and!.
  - intros k x Hk. unfold normalised, normalised_with.
    rewrite list_lookup_imap, list_lookup_fmap, Hk, np_sum_Fin. simpl.
    rewrite (decide_False (P := qsum qs = 0%Qc)) by done.
    case_decide; [done|]. unfold fdiv, float_of_Z.
    by rewrite decide_False by (apply float_of_Z_ne_0; lia).
  - rewrite len_normalised. unfold len. by rewrite length_fmap.
  - by apply hexagon_total_normalised.
Qed.

(** C2, at the pattern [[0; 1]] normalised to 1: the centre weight stays 0
    and each of the six positions of ring 1 weighs 1/6. *)
Lemma normalisation_total_witness :
  (2 ≤ len [0%Qc; 1%Qc] ∧ qsum [0%Qc; 1%Qc] ≠ 0%Qc ∧ 1%Qc ≠ 0%Qc)
  ∧ ∃ st w',
      TriMeshStencil_init {| ndim := 1; data := Fin <$> [0%Qc; 1%Qc] |}
        (Some (Fin 1%Qc)) w0 = (w', OK st)
      ∧ hexagon_total (self_pattern st) = Fin 1%Qc.
Proof.
  assert (2 ≤ len [0%Qc; 1%Qc]) as H1 by done.
  assert (qsum [0%Qc; 1%Qc] ≠ 0%Qc) as H2
    by (apply (bool_decide_eq_false_1 (qsum [0%Qc; 1%Qc] = 0%Qc)); by vm_compute).
  assert (1%Qc ≠ 0%Qc) as H3
    by (apply (bool_decide_eq_false_1 (1%Qc = 0%Qc)); by vm_compute).
  split; [done|].
  destruct (normalisation_total [0%Qc; 1%Qc] 1%Qc w0 H1 H2 H3)
    as (st & w' & Hinit & _ & _ & Htotal).
  by exists st, w'.
Defined.

(** ** Applying the stencil *)

(** C1. For every stencil, every lattice and every output cell [(j, i)],
    [apply] with [handle_nan = True] returns a lattice whose cell is
    [weighted_sum / weight_total] when [weight_total] is not zero and NaN
    otherwise, where every tap of the stencil whose source value is not NaN
    adds its value times its weight to [weighted_sum] and its weight to
    [weight_total], and a tap that lands on a NaN, or outside the lattice,
    adds to neither.  In particular a cell all of whose taps land on
    missing samples is NaN in the result. *)
Theorem apply_weighted_mean (pattern : ndarray) (normalise : option float64)
    (w0 w0' : world) (st : TriMeshStencil) (tri_mesh : loc) (tm : TriMesh)
    (new_title : option string) (w : world) :
  TriMeshStencil_init pattern normalise w0 = (w0', OK st) →
  heap w !! tri_mesh = Some tm →
  mesh_wf tm →
  ∃ w' l tm',
    apply st tri_mesh true new_title w = (w', OK l)
    ∧ heap w' !! l = Some tm'
    ∧ ∀ j i, 0 ≤ j < nj tm → 0 ≤ i < ni tm →
        let ts := taps st tm j i in
        getitem2 (z_values tm') j i
        = OK (if fne (weight_total ts) fzero
              then fdiv (weighted_sum ts) (weight_total ts)
              else NaN)
        ∧ (Forall (λ t, isnan t.1 = true) ts →
           getitem2 (z_values tm') j i = OK NaN).
Proof.
  intros (p & -> & Hlen & _)%init_inv_len Hl Hwf.
  rewrite (apply_ok p tm tri_mesh new_title w) by (done || lia).
  destruct (TriMesh_new_spec (applied_mesh (built p) tm new_title) (informed tm w))
    as (l & -> & _).
  eexists _, l, _. split; [done|]. split; [apply lookup_insert_eq|].
  intros j i Hj Hi ts. simpl.
  rewrite getitem2_smoothed by done. fold ts.
  split; [done|]. intros Hts. f_equal. by apply all_missing_mean.
Qed.

(** *** The indexing that refuses what lies outside *)

Lemma within_in {A} (l : list A) (k : Z) :
  0 ≤ k < len l → within l k = getitem l k.
Proof.
  intros Hk. unfold within.
  destruct (Z.leb_spec 0 k); [|lia]. by destruct (Z.ltb_spec k (len l)); [|lia].
Qed.

Lemma within_out {A} (l : list A) (k : Z) :
  ¬ 0 ≤ k < len l → within l k = Raise IndexError.
Proof.
  intros Hk. unfold within.
  destruct (Z.leb_spec 0 k); [|done]. by destruct (Z.ltb_spec k (len l)); [lia|].
Qed.

Lemma shape2_getitem (a : array2) rows cols (j : Z) :
  shape2 a rows cols → 0 ≤ j < rows →
  ∃ r, getitem a j = OK r ∧ len r = cols.
Proof.
  intros [Hl Hrows] Hj.
  destruct (lookup_lt_is_Some_2 a (Z.to_nat j)) as [r Hr];
    [unfold len in *; lia|].
  exists r. split; [apply getitem_lookup; [lia|done]|].
  by apply (Forall_lookup_1 _ _ _ _ Hrows Hr).
Qed.

Lemma within2_in (a : array2) rows cols (j i : Z) :
  shape2 a rows cols → 0 ≤ j < rows → 0 ≤ i < cols →
  within2 a j i = OK (at2 a j i).
Proof.
  intros Hs Hj Hi. rewrite <-(getitem2_shape a rows cols j i Hs Hj Hi).
  destruct (shape2_getitem a rows cols j Hs Hj) as (r & Hr & Hlen).
  unfold within2, getitem2.
  rewrite within_in by (destruct Hs as [-> _]; lia).
  rewrite Hr, !bind_OK. apply within_in. lia.
Qed.

Lemma within2_out (a : array2) rows cols (j i : Z) :
  shape2 a rows cols → ¬ (0 ≤ j < rows ∧ 0 ≤ i < cols) →
  within2 a j i = Raise IndexError.
Proof.
  intros Hs Hout. unfold within2.
  destruct (decide (0 ≤ j < rows)) as [Hj|Hj].
  - destruct (shape2_getitem a rows cols j Hs Hj) as (r & Hr & Hlen).
    rewrite within_in by (destruct Hs as [-> _]; lia).
    rewrite Hr, bind_OK. apply within_out. lia.
  - rewrite within_out by (destruct Hs as [-> _]; lia). done.
Qed.

Lemma set_within2_in (a : array2) rows cols (j i : Z) (x : float64) :
  shape2 a rows cols → 0 ≤ j < rows → 0 ≤ i < cols →
  set_within2 a j i x = setitem2 a j i x.
Proof.
  intros Hs Hj Hi. unfold set_within2.
  by rewrite (within2_in a rows cols), bind_OK.
Qed.

Lemma set_within2_out (a : array2) rows cols (j i : Z) (x : float64) :
  shape2 a rows cols → ¬ (0 ≤ j < rows ∧ 0 ≤ i < cols) →
  set_within2 a j i x = Raise IndexError.
Proof.
  intros Hs Hout. unfold set_within2.
  by rewrite (within2_out a rows cols).
Qed.

Lemma within_closed {A} (f : Z → A) n (jp : Z) :
  0 ≤ jp < n → within (f <$> range 0 n) jp = OK (f jp).
Proof.
  intros Hjp. rewrite within_in by (rewrite len_closed; lia).
  apply getitem_lookup; [lia|]. by apply lookup_closed.
Qed.

Lemma used_slot_in p jp ip :
  1 ≤ len p → 0 ≤ jp < len p → 0 ≤ ip < 2 * len p - 1 - jp →
  used_slot (self_row_length (built p)) (self_half_hex (built p)) jp ip
  = OK (at2 (self_half_hex (built p)) jp ip).
Proof.
  intros Hp Hjp Hip. unfold used_slot.
  change (self_row_length (built p))
    with ((λ jp, 2 * len p - 1 - jp) <$> range 0 (len p)).
  rewrite within_closed, bind_OK by done.
  destruct (Z.ltb_spec ip (2 * len p - 1 - jp)); [|lia].
  apply (within2_in _ _ _ _ _ (shape2_built p Hp)); lia.
Qed.

Lemma used_slot_out p jp ip :
  1 ≤ len p → ¬ (0 ≤ jp < len p ∧ 0 ≤ ip < 2 * len p - 1 - jp) →
  used_slot (self_row_length (built p)) (self_half_hex (built p)) jp ip
  = Raise IndexError.
Proof.
  intros Hp Hout. unfold used_slot.
  change (self_row_length (built p))
    with ((λ jp, 2 * len p - 1 - jp) <$> range 0 (len p)).
  destruct (decide (0 ≤ jp < len p)) as [Hjp|Hjp].
  - rewrite within_closed, bind_OK by done.
    destruct (Z.ltb_spec ip (2 * len p - 1 - jp)); [|done].
    apply (within2_out _ _ _ _ _ (shape2_built p Hp)). lia.
  - rewrite within_out by (rewrite len_closed; lia). done.
Qed.

Lemma array2_ext (a a' : array2) (R C : Z) :
  0 ≤ R → 0 ≤ C → shape2 a R C → shape2 a' R C →
  (∀ j i, 0 ≤ j → 0 ≤ i → at2 a j i = at2 a' j i) → a = a'.
Proof.
  intros HR HC Hs Hs' Hat.
  rewrite (tabulate_at2 a R C), (tabulate_at2 a' R C) by done.
  apply tabulate_ext. intros j i Hj Hi. apply Hat; lia.
Qed.

Lemma nanmean_guarded_ok p tm applied :
  mesh_wf tm → 1 ≤ len p →
  let st := built p in
  let b := border_of (len p) in
  shape2 applied (nj tm + 2 * b) (ni tm + 2 * b) →
  ∃ applied',
    apply_stencil_nanmean (self_n st) (self_start_ip st) (self_row_length st)
      (self_half_hex st) (padded NaN tm b) applied b (nj tm) (ni tm)
    = OK applied'
    ∧ apply_stencil_nanmean_guarded (self_n st) (self_start_ip st)
        (self_row_length st) (self_half_hex st) (padded NaN tm b) applied
        b (nj tm) (ni tm)
      = OK applied'.
Proof.
  intros Hwf Hp st b Happ. subst st.
  destruct (border_of_spec (len p)) as [Hb Heven]; [lia|]. fold b in Hb.
  pose proof Hwf as (Hnj & Hni & _).
  pose proof (shape2_padded NaN tm b Hwf ltac:(lia)) as Hpad.
  set (acc := λ J I,
         foldl acc_tap (fzero, fzero) (taps (built p) tm (J - b) (I - b))).
  destruct (nanmean_ok (len p) (self_start_ip (built p))
    (self_row_length (built p)) (self_half_hex (built p)) (padded NaN tm b)
    (nj tm + 2 * b) (ni tm + 2 * b) b (nj tm) (ni tm) acc applied)
    as (a1 & Hrun1 & Hs1 & Hv1); [lia..|done| |].
  { intros J I HJ HI. by apply cell_sums_ok. }
  destruct (nanmean_loops_ok (within (self_start_ip (built p)))
    (within (self_row_length (built p)))
    (used_slot (self_row_length (built p)) (self_half_hex (built p)))
    (within2 (padded NaN tm b)) set_within2 (len p)
    (nj tm + 2 * b) (ni tm + 2 * b) b (nj tm) (ni tm) acc applied)
    as (a2 & Hrun2 & Hs2 & Hv2); [lia..|done| | |].
  { intros a j i x Ha Hj Hi. by apply (set_within2_in a _ _ j i x Ha). }
  { intros J I HJ HI. apply cell_sums_at_ok; try done.
    - intros jp Hjp. by apply (within_closed (λ jp, - (len p - 1) + jp / 2)).
    - intros jp Hjp. by apply (within_closed (λ jp, 2 * len p - 1 - jp)).
    - intros jp ip Hjp Hip. by apply used_slot_in.
    - intros j i Hj Hi. by apply (within2_in _ _ _ _ _ Hpad). }
  exists a1. split; [done|].
  change (self_n (built p)) with (len p). unfold apply_stencil_nanmean_guarded.
  rewrite Hrun2. f_equal.
  apply (array2_ext a2 a1 (nj tm + 2 * b) (ni tm + 2 * b)); [lia..|done|done|].
  intros j i Hj Hi. by rewrite Hv1, Hv2.
Qed.

(** C5. For every stencil of size [n] and every lattice, with the border
    [b] that is [n] rounded up to the next even integer, every array access
    of the convolution loop is within the bounds of its array: run with an
    indexing that refuses every index outside [0, length) of the padded
    array of [nj + 2 b] rows and [ni + 2 b] columns, of [applied], of
    [start_ip] and of [row_length] (a negative index, which Python would
    count from the end, among them), and that refuses every slot of row
    [jp] of the weights that is not one of the first [row_length[jp]], the
    loop ends without an index error and gives the array that it gives
    with the indexing of Python.  The indices are those of [j] in
    [b, b + nj), [i] in [b, b + ni), [jp] in [0, n - 1] and [ip] in
    [0, row_length[jp]), and the slots from [row_length[jp]] on are the
    unused ones, which hold NaN. *)
Theorem convolution_in_bounds (pattern : ndarray) (normalise : option float64)
    (w0 w0' : world) (st : TriMeshStencil) (tm : TriMesh) :
  TriMeshStencil_init pattern normalise w0 = (w0', OK st) →
  mesh_wf tm →
  let n := self_n st in
  let b := border_of n in
  let e_nj := nj tm + 2 * b in
  let e_ni := ni tm + 2 * b in
  let tm_z := padded NaN tm b in
  (b = n ∨ b = n + 1) ∧ b mod 2 = 0
  ∧ shape2 tm_z e_nj e_ni
  ∧ shape2 (self_half_hex st) n (2 * n - 1)
  ∧ (∀ j i jp, b ≤ j < b + nj tm → b ≤ i < b + ni tm → 0 ≤ jp ≤ n - 1 →
       ∃ i_st rl row,
         getitem (self_start_ip st) jp = OK i_st
         ∧ getitem (self_row_length st) jp = OK rl
         ∧ getitem (self_half_hex st) jp = OK row
         ∧ 0 ≤ rl ≤ len row
         ∧ drop (Z.to_nat rl) row = replicate (Z.to_nat jp) NaN
         ∧ ∀ ip, 0 ≤ ip < rl →
             let i_s := i + i_st + ip + (jp mod 2) * (j mod 2) in
             0 ≤ j - jp < e_nj ∧ 0 ≤ j + jp < e_nj ∧ 0 ≤ i_s < e_ni
             ∧ 0 ≤ jp < n ∧ 0 ≤ ip < 2 * n - 1
             ∧ (∃ v, getitem2 tm_z (j - jp) i_s = OK v)
             ∧ (∃ v, getitem2 tm_z (j + jp) i_s = OK v)
             ∧ (∃ s, getitem2 (self_half_hex st) jp ip = OK s
                     ∧ take (Z.to_nat rl) row !! Z.to_nat ip = Some s))
  ∧ (∀ applied, shape2 applied e_nj e_ni →
       ∃ applied',
         apply_stencil_nanmean n (self_start_ip st) (self_row_length st)
           (self_half_hex st) tm_z applied b (nj tm) (ni tm)
         = OK applied'
         ∧ apply_stencil_nanmean_guarded n (self_start_ip st)
             (self_row_length st) (self_half_hex st) tm_z applied
             b (nj tm) (ni tm)
           = OK applied')
  ∧ (∀ j i, ¬ (0 ≤ j < e_nj ∧ 0 ≤ i < e_ni) →
       within2 tm_z j i = Raise IndexError)
  ∧ (∀ applied j i x, shape2 applied e_nj e_ni →
       ¬ (0 ≤ j < e_nj ∧ 0 ≤ i < e_ni) →
       set_within2 applied j i x = Raise IndexError)
  ∧ (∀ jp ip rl, getitem (self_row_length st) jp = OK rl →
       ¬ (0 ≤ jp < n ∧ 0 ≤ ip < rl) →
       used_slot (self_row_length st) (self_half_hex st) jp ip
       = Raise IndexError)
  ∧ (∀ jp, ¬ 0 ≤ jp < n →
       within (self_start_ip st) jp = Raise IndexError
       ∧ within (self_row_length st) jp = Raise IndexError).
Proof.
  intros (p & -> & Hlen & _)%init_inv_len Hwf. cbv zeta.
  change (self_n (built p)) with (len p).
  assert (1 ≤ len p) as Hp by lia.
  destruct (border_of_spec (len p)) as [Hb Heven]; [lia|].
  set (b := border_of (len p)) in *.
  pose proof Hwf as (Hnj & Hni & _).
  pose proof (shape2_padded NaN tm b Hwf ltac:(lia)) as Hpad.
  pose proof (shape2_built p Hp) as Hhh.
  split_and!; try done.
  - unfold b, border_of in *. case_decide; lia.
  - intros j i jp Hj Hi Hjp.
    exists (- (len p - 1) + jp / 2), (2 * len p - 1 - jp), (packed_row p jp).
    pose proof (len_stencil_row p jp ltac:(lia)) as Hrow.
    split_and!.
    + apply getitem_lookup; [lia|]. apply built_start_ip. lia.
    + apply getitem_lookup; [lia|]. apply built_row_length. lia.
    + apply getitem_lookup; [lia|]. apply built_half_hex_row. lia.
    + lia.
    + rewrite len_packed_row by lia. lia.
    + unfold packed_row. rewrite drop_app_length'; [done|]. unfold len in *. lia.
    + intros ip Hip. cbv zeta.
      destruct (tap_bounds (len p) b (nj tm) (ni tm) j i jp ip)
        as (Hm & Hpl & Hc); [lia..|].
      split_and!; try lia.
      * eexists. by apply (getitem2_shape _ _ _ _ _ Hpad).
      * eexists. by apply (getitem2_shape _ _ _ _ _ Hpad).
      * exists (at2 (self_half_hex (built p)) jp ip). split.
        -- apply (getitem2_shape _ _ _ _ _ Hhh); lia.
        -- rewrite take_packed_row by lia. apply built_weight; lia.
  - intros applied Happ. by apply nanmean_guarded_ok.
  - intros j i Hout. by apply (within2_out _ _ _ _ _ Hpad).
  - intros applied j i x Happ Hout. by apply (set_within2_out _ _ _ _ _ _ Happ).
  - intros jp ip rl Hrl Hout. apply used_slot_out; [done|].
    intros [Hjp Hip]. apply Hout. split; [done|].
    rewrite (getitem_lookup _ _ _ (proj1 Hjp) (built_row_length p jp Hjp)) in Hrl.
    injection Hrl as <-. done.
  - intros jp Hjp.
    split; apply within_out; simpl; rewrite len_closed; lia.
Qed.

Lemma mesh0_z1_wf : mesh_wf (mesh0 z1).
Proof. split_and!; [done..|]. by repeat constructor. Qed.

(** C1, at the stencil of the pattern [[0; 1]] normalised to 1 and at the
    cell [(0, 1)] of a lattice of three rows of three columns: three of its
    six neighbours are samples of the lattice, 1, 3 and 4. *)
Lemma apply_weighted_mean_witness :
  ∃ st w0' w' l tm' x,
    TriMeshStencil_init (pat [q 0 1; q 1 1]) (Some (q 1 1)) w0 = (w0', OK st)
    ∧ heap w1 !! 5%positive = Some (mesh0 z1)
    ∧ mesh_wf (mesh0 z1)
    ∧ apply st 5%positive true None w1 = (w', OK l)
    ∧ heap w' !! l = Some tm'
    ∧ getitem2 (z_values tm') 0 1 = OK x
    ∧ feq x (q 8 3) = true.
Proof.
  destruct (TriMeshStencil_init (pat [q 0 1; q 1 1]) (Some (q 1 1)) w0)
    as [w0' [st|e]] eqn:Hinit; [|by vm_compute in Hinit].
  destruct (apply_weighted_mean _ _ _ _ _ 5%positive (mesh0 z1) None w1 Hinit
              eq_refl mesh0_z1_wf) as (w' & l & tm' & Happly & Hl & Hcell).
  destruct (Hcell 0 1) as [Hval _]; [done..|].
  eexists st, w0', w', l, tm', _.
  split_and!; [done | done | exact mesh0_z1_wf | done | done | exact Hval |].
  vm_compute in Hinit. injection Hinit as _ <-. by vm_compute.
Defined.

(** C5, at the stencil of the pattern [[1; 0]] and a lattice of three rows
    of three columns, where the border is 2: the loop run with the
    indexing that refuses gives what the loop of the source gives. *)
Lemma convolution_in_bounds_witness :
  ∃ st w0' applied',
    TriMeshStencil_init (pat [q 1 1; q 0 1]) None w0 = (w0', OK st)
    ∧ mesh_wf (mesh0 z1)
    ∧ border_of (self_n st) = 2
    ∧ apply_stencil_nanmean (self_n st) (self_start_ip st)
        (self_row_length st) (self_half_hex st) (padded NaN (mesh0 z1) 2)
        (replicate 7 (replicate 7 NaN)) 2 3 3
      = OK applied'
    ∧ apply_stencil_nanmean_guarded (self_n st) (self_start_ip st)
        (self_row_length st) (self_half_hex st) (padded NaN (mesh0 z1) 2)
        (replicate 7 (replicate 7 NaN)) 2 3 3
      = OK applied'.
Proof.
  destruct (TriMeshStencil_init (pat [q 1 1; q 0 1]) None w0)
    as [w0' [st|e]] eqn:Hinit; [|by vm_compute in Hinit].
  assert (border_of (self_n st) = 2) as Hb
    by (apply init_inv in Hinit as (_ & -> & _); reflexivity).
  destruct (convolution_in_bounds _ _ _ _ _ (mesh0 z1) Hinit mesh0_z1_wf)
    as (_ & _ & _ & _ & _ & Hrun & _).
  rewrite Hb in Hrun.
  destruct (Hrun (replicate 7 (replicate 7 NaN))) as (applied' & H1 & H2).
  { apply (shape2_replicate 7 7); lia. }
  exists st, w0', applied'.
  split_and!; [done | exact mesh0_z1_wf | done | exact H1 | exact H2].
Defined.

(** C6. For the stencil of the pattern [[1.0; 0.0]] built without
    normalisation, and for any stencil whose pattern has a centre weight [c]
    that is not zero and ring weights (index [>= 1]) that are all zero,
    [apply] returns a lattice with the z values of the input, cell for cell:
    it acts as the identity on the field.  No assumption on missing values
    is needed: the statement holds for every lattice, so for those without
    a missing value. *)
Theorem identity_stencil (pattern : ndarray) (normalise : option float64)
    (w0 w0' : world) (st : TriMeshStencil) (c : Qc) (k : nat)
    (tri_mesh : loc) (tm : TriMesh) (new_title : option string) (w : world) :
  TriMeshStencil_init pattern normalise w0 = (w0', OK st) →
  self_pattern st = Fin c :: replicate k fzero →
  c ≠ 0%Qc →
  heap w !! tri_mesh = Some tm →
  mesh_wf tm →
  ∃ w' l tm',
    apply st tri_mesh true new_title w = (w', OK l)
    ∧ heap w' !! l = Some tm'
    ∧ z_values tm' = z_values tm.
Proof.
  intros (p & -> & Hlen & _)%init_inv_len Hpat Hc Hl Hwf.
  change (self_pattern (built p)) with p in Hpat. subst p.
  rewrite (apply_ok _ tm tri_mesh new_title w) by (done || lia).
  destruct (TriMesh_new_spec
              (applied_mesh (built (Fin c :: replicate k fzero)) tm new_title)
              (informed tm w)) as (l & -> & _).
  eexists _, l, _. split; [done|]. split; [apply lookup_insert_eq|].
  simpl. pose proof Hwf as (Hnj & Hni & Hshape).
  etransitivity; [|symmetry; by apply (tabulate_at2 _ (nj tm) (ni tm))].
  unfold smoothed. apply tabulate_ext. intros j i Hj Hi.
  by apply identity_mean.
Qed.

(** C6, at the pattern [[1.0; 0.0]] and a lattice of three rows of three
    columns. *)
Lemma identity_stencil_witness :
  ∃ st w0' w' l tm',
    TriMeshStencil_init (pat [q 1 1; q 0 1]) None w0 = (w0', OK st)
    ∧ self_pattern st = Fin 1%Qc :: replicate 1 fzero
    ∧ 1%Qc ≠ 0%Qc
    ∧ heap w1 !! 5%positive = Some (mesh0 z1)
    ∧ mesh_wf (mesh0 z1)
    ∧ apply st 5%positive true None w1 = (w', OK l)
    ∧ heap w' !! l = Some tm'
    ∧ z_values tm' = z1.
Proof.
  destruct (TriMeshStencil_init (pat [q 1 1; q 0 1]) None w0)
    as [w0' [st|e]] eqn:Hinit; [|by vm_compute in Hinit].
  assert (self_pattern st = Fin 1%Qc :: replicate 1 fzero) as Hpat.
  { apply init_inv in Hinit as (_ & -> & _). done. }
  assert (1%Qc ≠ 0%Qc) as Hone
    by (apply (bool_decide_eq_false_1 (1%Qc = 0%Qc)); by vm_compute).
  destruct (identity_stencil _ _ _ _ _ 1%Qc 1%nat 5%positive (mesh0 z1) None w1
              Hinit Hpat Hone eq_refl mesh0_z1_wf)
    as (w' & l & tm' & Happly & Hl & Hz).
  exists st, w0', w', l, tm'.
  split_and!; [done | done | done | done | exact mesh0_z1_wf | done | done | exact Hz].
Defined.

(** C8. For every stencil and every lattice, [apply] with
    [handle_nan = False] raises [NotImplementedError]: no lattice is made
    (the object store is left as it was, only the log grows) and the path
    that tolerates NaN is not taken in its place.  With
    [handle_nan = True] the call raises nothing and returns a lattice. *)
Theorem apply_exact_not_supported (pattern : ndarray)
    (normalise : option float64) (w0 w0' : world) (st : TriMeshStencil)
    (tri_mesh : loc) (tm : TriMesh) (new_title : option string) (w : world) :
  TriMeshStencil_init pattern normalise w0 = (w0', OK st) →
  heap w !! tri_mesh = Some tm →
  mesh_wf tm →
  (∃ msg w',
     apply st tri_mesh false new_title w = (w', Raise (NotImplementedError msg))
     ∧ heap w' = heap w)
  ∧ (∃ w' l, apply st tri_mesh true new_title w = (w', OK l)).
Proof.
  intros (p & -> & Hlen & _)%init_inv_len Hl Hwf. split.
  - exists "only smoothing style tri mesh stencil application currently available",
      (informed tm w).
    split; [|reflexivity].
    apply apply_not_supported; [|done..]. change (self_n (built p)) with (len p). lia.
  - rewrite (apply_ok p tm tri_mesh new_title w) by (done || lia).
    destruct (TriMesh_new_spec (applied_mesh (built p) tm new_title) (informed tm w))
      as (l & -> & _).
    eauto.
Qed.

(** C8, at the stencil of the pattern [[1; 0]] and a lattice of three rows
    of three columns. *)
Lemma apply_exact_not_supported_witness :
  ∃ st w0' w' msg,
    TriMeshStencil_init (pat [q 1 1; q 0 1]) None w0 = (w0', OK st)
    ∧ heap w1 !! 5%positive = Some (mesh0 z1)
    ∧ mesh_wf (mesh0 z1)
    ∧ apply st 5%positive false None w1 = (w', Raise (NotImplementedError msg))
    ∧ heap w' = heap w1.
Proof.
  destruct (TriMeshStencil_init (pat [q 1 1; q 0 1]) None w0)
    as [w0' [st|e]] eqn:Hinit; [|by vm_compute in Hinit].
  destruct (apply_exact_not_supported _ _ _ _ _ 5%positive (mesh0 z1) None w1
              Hinit eq_refl mesh0_z1_wf) as [(msg & w' & Happly & Hheap) _].
  exists st, w0', w', msg.
  split_and!; [done | done | exact mesh0_z1_wf | done | done].
Defined.

(** C9. For every stencil and every lattice, [apply] leaves every object of
    the store as it was, the input lattice with its z values and its
    metadata among them.  The lattice it returns is a new object with the
    model, the edge length, the origin, the unit tag, the role tag, the
    reference frame and the row and column counts of the input, and with z
    values that form a table of that many rows and columns, whatever the
    width of the border used within the call. *)
Theorem apply_frame (pattern : ndarray) (normalise : option float64)
    (w0 w0' : world) (st : TriMeshStencil) (tri_mesh : loc) (tm : TriMesh)
    (handle_nan : bool) (new_title : option string) (w : world) :
  TriMeshStencil_init pattern normalise w0 = (w0', OK st) →
  heap w !! tri_mesh = Some tm →
  mesh_wf tm →
  ∃ w' r,
    apply st tri_mesh handle_nan new_title w = (w', r)
    ∧ (∀ l x, heap w !! l = Some x → heap w' !! l = Some x)
    ∧ heap w' !! tri_mesh = Some tm
    ∧ match r with
      | OK l' =>
          heap w !! l' = None
          ∧ ∃ tm',
              heap w' !! l' = Some tm'
              ∧ model tm' = model tm
              ∧ t_side tm' = t_side tm
              ∧ origin tm' = origin tm
              ∧ z_uom tm' = z_uom tm
              ∧ surface_role tm' = surface_role tm
              ∧ crs_uuid tm' = crs_uuid tm
              ∧ nj tm' = nj tm
              ∧ ni tm' = ni tm
              ∧ shape2 (z_values tm') (nj tm) (ni tm)
      | Raise _ => heap w' = heap w
      end.
Proof.
  intros (p & -> & Hlen & _)%init_inv_len Hl Hwf. destruct handle_nan.
  - rewrite (apply_ok p tm tri_mesh new_title w) by (done || lia).
    destruct (TriMesh_new_spec (applied_mesh (built p) tm new_title) (informed tm w))
      as (l & -> & Hfresh).
    simpl in Hfresh.
    assert (∀ l0 x, heap w !! l0 = Some x →
              <[l := applied_mesh (built p) tm new_title]> (heap w) !! l0 = Some x)
      as Hkeep.
    { intros l0 x Hx. rewrite lookup_insert_ne; [done|]. congruence. }
    eexists _, _. split; [done|]. simpl. split_and!; [done | by apply Hkeep | done |].
    eexists. split; [apply lookup_insert_eq|].
    split_and!; try done.
    destruct Hwf as (Hnj & Hni & _). simpl. by apply shape2_tabulate.
  - rewrite (apply_not_supported (built p) tm) by (done || (change (self_n (built p)) with (len p); lia)).
    eexists _, _. split; [done|]. simpl. by split_and!.
Qed.

(** C9, at the stencil of the pattern [[0; 1]] normalised to 1 and a
    lattice of three rows of three columns. *)
Lemma apply_frame_witness :
  ∃ st w0' w' l tm',
    TriMeshStencil_init (pat [q 0 1; q 1 1]) (Some (q 1 1)) w0 = (w0', OK st)
    ∧ heap w1 !! 5%positive = Some (mesh0 z1)
    ∧ mesh_wf (mesh0 z1)
    ∧ apply st 5%positive true None w1 = (w', OK l)
    ∧ heap w' !! 5%positive = Some (mesh0 z1)
    ∧ heap w' !! l = Some tm'
    ∧ nj tm' = 3 ∧ ni tm' = 3 ∧ t_side tm' = q 10 1.
Proof.
  destruct (TriMeshStencil_init (pat [q 0 1; q 1 1]) (Some (q 1 1)) w0)
    as [w0' [st|e]] eqn:Hinit; [|by vm_compute in Hinit].
  destruct (apply_frame _ _ _ _ _ 5%positive (mesh0 z1) true None w1
              Hinit eq_refl mesh0_z1_wf) as (w' & r & Happly & _ & Hsame & Hres).
  destruct r as [l|e].
  - destruct Hres as (_ & tm' & Hl & _ & Hside & _ & _ & _ & _ & Hnj & Hni & _).
    exists st, w0', w', l, tm'.
    split_and!; [done | done | exact mesh0_z1_wf | done | done | done
                | exact Hnj | exact Hni | exact Hside].
  - exfalso.
    destruct (apply_exact_not_supported _ _ _ _ _ 5%positive (mesh0 z1) None w1
                Hinit eq_refl mesh0_z1_wf) as [_ (w2 & l & Hok)].
    congruence.
Defined.

(** ** The frontier feature *)

Section frontier_feature_properties.
Context {uuid_t metadata_t : Type}.
Variable matching_uuids : uuid_t → uuid_t → bool.
Variable equivalent_extra_metadata :
  FrontierFeature uuid_t metadata_t → FrontierFeature uuid_t metadata_t → bool.

Abbreviation is_equivalent' :=
  (is_equivalent matching_uuids equivalent_extra_metadata).

(** C10. For every frontier feature [f] and every value [other],
    [f.is_equivalent(other, check_extra_metadata)] is [False] when
    [other] is [None] or not a frontier feature; it is [True] when
    [other] is [f] itself or when the uuids match, whatever the names and
    the extra metadata (so [f.is_equivalent(f)] is [True]); otherwise it
    is [True] exactly when the feature names are equal and, if
    [check_extra_metadata] holds, the extra metadata are equivalent. *)
Theorem is_equivalent_spec (f : FrontierFeature uuid_t metadata_t)
    (check_extra_metadata : bool) :
  is_equivalent' f PyNone check_extra_metadata = false
  ∧ (∀ id, is_equivalent' f (PyOther id) check_extra_metadata = false)
  ∧ is_equivalent' f (PyFrontierFeature f) check_extra_metadata = true
  ∧ (∀ g, is_ f g = true ∨ matching_uuids (ff_uuid f) (ff_uuid g) = true →
          is_equivalent' f (PyFrontierFeature g) check_extra_metadata = true)
  ∧ (∀ g, is_ f g = false → matching_uuids (ff_uuid f) (ff_uuid g) = false →
          (is_equivalent' f (PyFrontierFeature g) check_extra_metadata = true
           ↔ feature_name f = feature_name g
             ∧ (check_extra_metadata = true →
                equivalent_extra_metadata f g = true))).
Proof.
  split_and!; try done.
  - simpl. unfold is_. by rewrite bool_decide_eq_true_2.
  - intros g Hg. simpl. apply orb_true_iff in Hg. by rewrite Hg.
  - intros g Hid Huuid. simpl. rewrite Hid, Huuid. simpl.
    destruct check_extra_metadata, (equivalent_extra_metadata f g); simpl;
      rewrite ?bool_decide_eq_true; intuition congruence.
Qed.
End frontier_feature_properties.

(** * Further properties of the code *)

(** ** The loops of [apply_stencil_nanmean] *)

(** X1. [apply_stencil_nanmean] writes only the cells of the interior whose
    total weight is not zero: every other cell of [applied], in the border
    or with a total weight of zero, holds afterwards what the caller had
    put there, and the shape of [applied] is kept. *)
Theorem nanmean_frame (pattern : ndarray) (normalise : option float64)
    (w0 w0' : world) (st : TriMeshStencil) (tm : TriMesh) (applied : array2) :
  TriMeshStencil_init pattern normalise w0 = (w0', OK st) →
  mesh_wf tm →
  let b := border_of (self_n st) in
  let e_nj := nj tm + 2 * b in
  let e_ni := ni tm + 2 * b in
  shape2 applied e_nj e_ni →
  ∃ applied',
    apply_stencil_nanmean (self_n st) (self_start_ip st) (self_row_length st)
      (self_half_hex st) (padded NaN tm b) applied b (nj tm) (ni tm)
    = OK applied'
    ∧ shape2 applied' e_nj e_ni
    ∧ ∀ J I, 0 ≤ J < e_nj → 0 ≤ I < e_ni →
        getitem2 applied' J I
        = if decide (b ≤ J < b + nj tm ∧ b ≤ I < b + ni tm)
          then
            let ts := taps st tm (J - b) (I - b) in
            if fne (weight_total ts) fzero
            then OK (fdiv (weighted_sum ts) (weight_total ts))
            else getitem2 applied J I
          else getitem2 applied J I.
Proof.
  intros (p & -> & Hlen & _)%init_inv_len Hwf. cbv zeta.
  change (self_n (built p)) with (len p).
  destruct (border_of_spec (len p)) as [Hb Heven]; [lia|].
  set (b := border_of (len p)) in *.
  pose proof Hwf as (Hnj & Hni & _). intros Happ.
  destruct (nanmean_ok (len p) (self_start_ip (built p))
    (self_row_length (built p)) (self_half_hex (built p)) (padded NaN tm b)
    (nj tm + 2 * b) (ni tm + 2 * b) b (nj tm) (ni tm)
    (λ J I, foldl acc_tap (fzero, fzero) (taps (built p) tm (J - b) (I - b)))
    applied) as (a & Hrun & Hsa & Hva); [lia..|done| |].
  { intros J I HJ HI. apply cell_sums_ok; (done || lia). }
  exists a. split; [done|]. split; [done|].
  intros J I HJ HI.
  rewrite (getitem2_shape _ _ _ _ _ Hsa HJ HI), (getitem2_shape _ _ _ _ _ Happ HJ HI).
  rewrite Hva by lia. case_decide; [|done].
  unfold cell_update. rewrite acc_tap_sums, !fadd_0_l. simpl.
  by destruct (fne _ _).
Qed.

(** X1, at the stencil of the pattern [[1; 0]], a lattice of three rows of
    three columns and an array [applied] of zeros: the corner of the border
    is still zero afterwards. *)
Lemma nanmean_frame_witness :
  ∃ st w0' applied',
    TriMeshStencil_init (pat [q 1 1; q 0 1]) None w0 = (w0', OK st)
    ∧ mesh_wf (mesh0 z1)
    ∧ shape2 (replicate 7 (replicate 7 fzero)) 7 7
    ∧ apply_stencil_nanmean (self_n st) (self_start_ip st) (self_row_length st)
        (self_half_hex st) (padded NaN (mesh0 z1) 2) (replicate 7 (replicate 7 fzero))
        2 3 3 = OK applied'
    ∧ getitem2 applied' 0 0 = OK fzero.
Proof.
  destruct (TriMeshStencil_init (pat [q 1 1; q 0 1]) None w0)
    as [w0' [st|e]] eqn:Hinit; [|by vm_compute in Hinit].
  assert (shape2 (replicate 7 (replicate 7 fzero)) 7 7) as Hshape
    by (split; [done | by repeat constructor]).
  assert (self_n st = 2) as Hn
    by (apply init_inv in Hinit as (_ & -> & _); reflexivity).
  pose proof (nanmean_frame _ _ _ _ _ (mesh0 z1) (replicate 7 (replicate 7 fzero))
                Hinit mesh0_z1_wf) as Hframe.
  cbv zeta in Hframe. rewrite Hn in Hframe.
  destruct (Hframe Hshape) as (applied' & Hrun & _ & Hcells).
  exists st, w0', applied'. rewrite Hn.
  split_and!; [done | exact mesh0_z1_wf | exact Hshape | exact Hrun |].
  rewrite (Hcells 0 0) by done. reflexivity.
Defined.

Lemma len_bind_range {B} (g : Z → list B) (c : Z → Z) (lo hi : Z) :
  lo ≤ hi → c lo = 0 →
  (∀ k, lo ≤ k < hi → len (g k) = c (k + 1) - c k) →
  len (range lo hi ≫= g) = c hi.
Proof.
  intros Hle H0 Hstep.
  assert (∀ d : nat, lo + Z.of_nat d ≤ hi →
            len (range lo (lo + Z.of_nat d) ≫= g) = c (lo + Z.of_nat d)) as Hind.
  { induction d as [|d IH]; intros Hd.
    - rewrite range_nil by lia. rewrite Z.add_0_r, H0. done.
    - replace (lo + Z.of_nat (S d)) with (lo + Z.of_nat d + 1) by lia.
      rewrite range_snoc by lia. rewrite bind_app, len_app, IH by lia.
      simpl. rewrite app_nil_r, Hstep by lia. lia. }
  specialize (Hind (Z.to_nat (hi - lo))).
  replace (lo + Z.of_nat (Z.to_nat (hi - lo))) with hi in Hind by lia.
  apply Hind. lia.
Qed.

Lemma len_taps p tm j i :
  1 ≤ len p →
  len (taps (built p) tm j i) = 3 * len p * len p - 3 * len p + 1.
Proof.
  intros Hp. unfold taps. change (self_n (built p)) with (len p).
  set (n := len p) in *.
  rewrite (len_bind_range _
    (λ k, if decide (k = 0) then 0
          else (2 * n - 1) + 2 * (k - 1) * (2 * n - 1) - k * (k - 1)) 0 n);
    [|lia|done|].
  - rewrite decide_False by lia. lia.
  - intros jp Hjp.
    rewrite (list_lookup_total_correct _ _ _ (built_row_length p jp Hjp)).
    fold n.
    rewrite (len_bind_range _
      (λ k, k * (if decide (jp = 0) then 1 else 2)) 0 (2 * n - 1 - jp));
      [|lia|done|].
    + rewrite (decide_False (P := jp + 1 = 0)) by lia.
      repeat case_decide; nia.
    + intros ip Hip. repeat case_decide; try lia; unfold len; simpl; lia.
Qed.


(** ** Edge cases of [__init__] and of [apply] *)





(** X4. The z values of the lattice are copied into the padded array
    before [handle_nan] is looked at: when the z array of the lattice has a
    number of rows that is neither [nj] nor one, [apply] raises the
    [ValueError] of the slice assignment, for [handle_nan = True] as for
    [handle_nan = False] (which then does not reach its
    [NotImplementedError]); the call has logged its message and has made no
    lattice. *)
Theorem apply_shape_mismatch (st : TriMeshStencil) (tri_mesh : loc)
    (tm : TriMesh) (handle_nan : bool) (new_title : option string) (w : world) :
  0 ≤ self_n st → 0 ≤ nj tm → 0 ≤ ni tm →
  heap w !! tri_mesh = Some tm →
  len (z_values tm) ≠ nj tm → len (z_values tm) ≠ 1 →
  apply st tri_mesh handle_nan new_title w = (informed tm w, Raise ValueError).
Proof.
  intros Hn Hnj Hni Hl Hrows Hone.
  destruct (border_of_spec (self_n st)) as [Hb Heven]; [lia|].
  unfold apply.
  unfold mbind at 1. unfold M_bind at 1. unfold deref at 1. rewrite Hl.
  unfold mbind at 1. unfold M_bind at 1. unfold log_ at 1. fold (informed tm w).
  change (if decide (self_n st mod 2 ≠ 0) then self_n st + 1 else self_n st)
    with (border_of (self_n st)).
  set (b := border_of (self_n st)) in *.
  cbv zeta.
  unfold mbind at 1. unfold M_bind at 1. unfold lift at 1.
  rewrite np_full2_ok by lia.
  unfold mbind at 1. unfold M_bind at 1. unfold lift at 1.
  assert (setslice2
            (replicate (Z.to_nat (nj tm + 2 * b))
               (replicate (Z.to_nat (ni tm + 2 * b)) (if handle_nan then NaN else fzero)))
            (Some b) (Some (b + nj tm)) (Some b) (Some (b + ni tm))
            (full_array_ref_z tm) = Raise ValueError) as ->; [|done].
  unfold setslice2, slice_bound, full_array_ref_z. rewrite len_replicate.
  destruct (Z.ltb_spec b 0); [lia|].
  destruct (Z.ltb_spec (b + nj tm) 0); [lia|].
  rewrite !Z.min_l by lia.
  replace (b + nj tm - b) with (nj tm) by lia. rewrite (Z.max_r 0 (nj tm)) by lia.
  destruct (Z.eqb_spec (len (z_values tm)) (nj tm)); [done|].
  destruct (z_values tm) as [|r [|r' rows]]; [done| |done].
  by unfold len in Hone.
Qed.

(** X4, at a lattice that says [nj = 3] and holds two rows. *)
Lemma apply_shape_mismatch_witness :
  ∃ st w0' tm w,
    TriMeshStencil_init (pat [q 1 1; q 0 1]) None w0 = (w0', OK st)
    ∧ nj tm = 3 ∧ len (z_values tm) = 2
    ∧ heap w !! 5%positive = Some tm
    ∧ apply st 5%positive false None w = (informed tm w, Raise ValueError).
Proof.
  destruct (TriMeshStencil_init (pat [q 1 1; q 0 1]) None w0)
    as [w0' [st|e]] eqn:Hinit; [|by vm_compute in Hinit].
  assert (self_n st = 2) as Hn
    by (apply init_inv in Hinit as (_ & -> & _); reflexivity).
  set (tm := {| model := 1%positive; t_side := q 10 1; nj := 3; ni := 3;
                origin := None; z_uom := "m"; title := Some "t";
                z_values := [[q 1 1; q 2 1; q 3 1]; [q 4 1; q 5 1; q 6 1]];
                surface_role := "map"; crs_uuid := "crs" |}).
  set (w := {| logs := []; heap := {[ 5%positive := tm ]} |}).
  exists st, w0', tm, w.
  split_and!; [done | done | done | done |].
  apply apply_shape_mismatch; [rewrite Hn| | | | |]; by vm_compute.
Defined.

(** ** The equivalence of frontier features *)

Section frontier_feature_symmetry.
Context {uuid_t metadata_t : Type}.
Variable matching_uuids : uuid_t → uuid_t → bool.
Variable equivalent_extra_metadata :
  FrontierFeature uuid_t metadata_t → FrontierFeature uuid_t metadata_t → bool.

(** X5. When the two helpers do not depend on the order of their
    arguments, neither does [is_equivalent]: [f.is_equivalent(g, c)] and
    [g.is_equivalent(f, c)] agree for all frontier features [f] and [g]. *)
Theorem is_equivalent_sym (f g : FrontierFeature uuid_t metadata_t)
    (check_extra_metadata : bool) :
  (∀ a b, matching_uuids a b = matching_uuids b a) →
  (∀ a b, equivalent_extra_metadata a b = equivalent_extra_metadata b a) →
  is_equivalent matching_uuids equivalent_extra_metadata
    f (PyFrontierFeature g) check_extra_metadata
  = is_equivalent matching_uuids equivalent_extra_metadata
      g (PyFrontierFeature f) check_extra_metadata.
Proof.
  intros Huuid Hmeta. simpl.
  rewrite (Huuid (ff_uuid g)), (Hmeta g).
  assert (is_ g f = is_ f g) as ->.
  { unfold is_. apply bool_decide_ext. split; congruence. }
  destruct (is_ f g || matching_uuids (ff_uuid f) (ff_uuid g)); [done|].
  destruct (check_extra_metadata && negb (equivalent_extra_metadata f g)); [done|].
  apply bool_decide_ext. split; congruence.
Qed.
End frontier_feature_symmetry.

(** X5, with uuids and metadata that are numbers compared by equality. *)
Lemma is_equivalent_sym_witness :
  let f := {| ff_id := 1%positive; ff_uuid := 7%nat; ff_title := Some "a";
              ff_extra_metadata := 0%nat |} in
  let g := {| ff_id := 2%positive; ff_uuid := 8%nat; ff_title := Some "a";
              ff_extra_metadata := 0%nat |} in
  let same_meta (a b : FrontierFeature nat nat) :=
    Nat.eqb (ff_extra_metadata a) (ff_extra_metadata b) in
  is_equivalent Nat.eqb same_meta f (PyFrontierFeature g) true = true
  ∧ is_equivalent Nat.eqb same_meta g (PyFrontierFeature f) true = true.
Proof.
  intros f g same_meta. split; [reflexivity|].
  rewrite <-(is_equivalent_sym Nat.eqb same_meta f g true).
  - reflexivity.
  - intros a b. apply Nat.eqb_sym.
  - intros a b. apply Nat.eqb_sym.
Defined.

(** ** The taps of a cell *)

Lemma bind_ext_in {A B} (f g : A → list B) (l : list A) :
  (∀ x, x ∈ l → f x = g x) → l ≫= f = l ≫= g.
Proof.
  induction l as [|x l IH]; intros Hfg; [done|].
  rewrite !bind_cons, Hfg by left. f_equal. apply IH. intros. apply Hfg. by right.
Qed.

Lemma fmap_bind_list {A B C} (h : B → C) (f : A → list B) (l : list A) :
  h <$> (l ≫= f) = l ≫= (λ x, h <$> f x).
Proof.
  induction l as [|x l IH]; [done|].
  by rewrite !bind_cons, fmap_app, IH.
Qed.

(** The taps of a built stencil, with the arrays of the stencil read. *)
Lemma taps_built p tm j i :
  1 ≤ len p →
  taps (built p) tm j i
  = range 0 (len p) ≫= λ jp,
      range 0 (2 * len p - 1 - jp) ≫= λ ip,
        let w := at2 (self_half_hex (built p)) jp ip in
        let i_s := i + (- (len p - 1) + jp / 2) + ip + (jp mod 2) * (j mod 2) in
        (source_value tm (j - jp) i_s, w)
        :: (if decide (jp ≠ 0) then [(source_value tm (j + jp) i_s, w)] else []).
Proof.
  intros Hp. unfold taps. change (self_n (built p)) with (len p).
  apply bind_ext_in. intros jp Hjp%elem_of_range.
  rewrite (list_lookup_total_correct _ _ _ (built_row_length p jp Hjp)).
  apply bind_ext_in. intros ip Hip%elem_of_range. cbv zeta.
  by rewrite built_tap_column.
Qed.

Lemma elem_of_taps p tm j i t :
  1 ≤ len p →
  t ∈ taps (built p) tm j i ↔
  ∃ jp ip j_s,
    0 ≤ jp < len p ∧ 0 ≤ ip < 2 * len p - 1 - jp
    ∧ (j_s = j - jp ∨ (jp ≠ 0 ∧ j_s = j + jp))
    ∧ t = (source_value tm j_s
             (i + (- (len p - 1) + jp / 2) + ip + (jp mod 2) * (j mod 2)),
           at2 (self_half_hex (built p)) jp ip).
Proof.
  intros Hp. rewrite taps_built by done. split.
  - intros (jp & Ht & Hjp%elem_of_range)%list_elem_of_bind.
    apply list_elem_of_bind in Ht as (ip & Ht & Hip%elem_of_range).
    cbv zeta in Ht. apply elem_of_cons in Ht as [-> | Ht].
    + exists jp, ip, (j - jp). split_and!; try lia; auto.
    + case_decide; [|by apply elem_of_nil in Ht].
      apply list_elem_of_singleton in Ht as ->.
      exists jp, ip, (j + jp). split_and!; try lia; auto.
  - intros (jp & ip & j_s & Hjp & Hip & Hjs & ->).
    apply list_elem_of_bind. exists jp. split; [|by apply elem_of_range].
    apply list_elem_of_bind. exists ip. split; [|by apply elem_of_range].
    cbv zeta. destruct Hjs as [-> | [Hne ->]]; [by left|].
    right. rewrite decide_True by done. by left.
Qed.

(** The weight of a tap is an entry of the pattern, the one of its ring. *)
Lemma built_weight_ring p jp ip :
  1 ≤ len p → 0 ≤ jp < len p → 0 ≤ ip < 2 * len p - 1 - jp →
  p !! Z.to_nat (slot_ring (len p) jp ip)
  = Some (at2 (self_half_hex (built p)) jp ip).
Proof.
  intros Hp Hjp Hip. rewrite <-stencil_row_ring by done. by apply built_weight.
Qed.

(** X6. The result of [apply] at a cell depends on the samples within
    [n - 1] steps of the cell only: two lattices that agree, present samples
    and missing ones, at every point at distance at most [n - 1] from the
    cell [(j, i)] get the same value in that cell. *)
Theorem apply_local (pattern : ndarray) (normalise : option float64)
    (w0 w0' : world) (st : TriMeshStencil) (l1 l2 : loc) (tm1 tm2 : TriMesh)
    (t1 t2 : option string) (w : world) (j i : Z) :
  TriMeshStencil_init pattern normalise w0 = (w0', OK st) →
  heap w !! l1 = Some tm1 → heap w !! l2 = Some tm2 →
  mesh_wf tm1 → mesh_wf tm2 →
  0 ≤ j < nj tm1 → 0 ≤ j < nj tm2 → 0 ≤ i < ni tm1 → 0 ≤ i < ni tm2 →
  (∀ j' i', hex_distance j i j' i' ≤ self_n st - 1 →
            source_value tm1 j' i' = source_value tm2 j' i') →
  ∃ w1 r1 tm1' w2 r2 tm2',
    apply st l1 true t1 w = (w1, OK r1) ∧ heap w1 !! r1 = Some tm1'
    ∧ apply st l2 true t2 w = (w2, OK r2) ∧ heap w2 !! r2 = Some tm2'
    ∧ getitem2 (z_values tm1') j i = getitem2 (z_values tm2') j i.
Proof.
  intros (p & -> & Hlen & _)%init_inv_len Hl1 Hl2 Hwf1 Hwf2 Hj1 Hj2 Hi1 Hi2 Hagree.
  change (self_n (built p)) with (len p) in Hagree.
  rewrite (apply_ok p tm1 l1 t1 w), (apply_ok p tm2 l2 t2 w) by (done || lia).
  destruct (TriMesh_new_spec (applied_mesh (built p) tm1 t1) (informed tm1 w))
    as (r1 & -> & _).
  destruct (TriMesh_new_spec (applied_mesh (built p) tm2 t2) (informed tm2 w))
    as (r2 & -> & _).
  eexists _, r1, _, _, r2, _.
  split_and!; [done | apply lookup_insert_eq | done | apply lookup_insert_eq |].
  simpl. rewrite !getitem2_smoothed by done. do 2 f_equal.
  rewrite !taps_built by lia.
  apply bind_ext_in. intros jp Hjp%elem_of_range.
  apply bind_ext_in. intros ip Hip%elem_of_range. cbv zeta.
  pose proof (slot_ring_range (len p) jp ip Hjp Hip) as Hring.
  rewrite !Hagree; [done|..].
  - rewrite (tap_distance (len p)) by auto. lia.
  - rewrite (tap_distance (len p)) by auto. lia.
Qed.

Lemma mesh0_z2_wf : mesh_wf (mesh0 z2).
Proof. split_and!; [done..|]. by repeat constructor. Qed.

(** X6, at the stencil of the pattern [[1; 1]] and two lattices that differ
    in the corner [(2, 2)] only, three steps away from the cell [(0, 0)]. *)
Lemma apply_local_witness :
  ∃ st w0' w1' r1 tm1' w2' r2 tm2',
    TriMeshStencil_init (pat [q 1 1; q 1 1]) None w0 = (w0', OK st)
    ∧ (∀ j' i', hex_distance 0 0 j' i' ≤ self_n st - 1 →
                source_value (mesh0 z1) j' i' = source_value (mesh0 z2) j' i')
    ∧ apply st 5%positive true None w2 = (w1', OK r1)
    ∧ heap w1' !! r1 = Some tm1'
    ∧ apply st 6%positive true None w2 = (w2', OK r2)
    ∧ heap w2' !! r2 = Some tm2'
    ∧ getitem2 (z_values tm1') 0 0 = getitem2 (z_values tm2') 0 0.
Proof.
  destruct (TriMeshStencil_init (pat [q 1 1; q 1 1]) None w0)
    as [w0' [st|e]] eqn:Hinit; [|by vm_compute in Hinit].
  assert (self_n st = 2) as Hn
    by (apply init_inv in Hinit as (_ & -> & _); reflexivity).
  assert (∀ j' i', hex_distance 0 0 j' i' ≤ self_n st - 1 →
            source_value (mesh0 z1) j' i' = source_value (mesh0 z2) j' i')
    as Hagree.
  { intros j' i' Hd. rewrite Hn in Hd. unfold source_value.
    change (nj (mesh0 z2)) with 3. change (ni (mesh0 z2)) with 3.
    change (nj (mesh0 z1)) with 3. change (ni (mesh0 z1)) with 3.
    case_decide as Hin; [|done].
    assert (j' = 2 → i' = 2 → False) as Hfar.
    { intros -> ->. by vm_compute in Hd. }
    assert (j' = 0 ∨ j' = 1 ∨ j' = 2) as [-> | [-> | ->]] by lia;
      assert (i' = 0 ∨ i' = 1 ∨ i' = 2) as [-> | [-> | ->]] by lia;
      try reflexivity.
    by destruct Hfar. }
  destruct (apply_local _ _ _ _ _ 5%positive 6%positive (mesh0 z1) (mesh0 z2)
              None None w2 0 0 Hinit eq_refl eq_refl mesh0_z1_wf mesh0_z2_wf)
    as (w1' & r1 & tm1' & w2' & r2 & tm2' & H1 & H2 & H3 & H4 & H5);
    [by vm_compute..|exact Hagree|].
  exists st, w0', w1', r1, tm1', w2', r2, tm2'.
  by split_and!.
Defined.

(** ** Stencils with finite weights *)

Lemma finite_list (p : list float64) :
  existsb isnan p = false → ∃ qs, p = Fin <$> qs.
Proof.
  induction p as [|x p IH]; intros Hp; [by exists []|].
  simpl in Hp. apply orb_false_iff in Hp as [Hx Hp].
  destruct (IH Hp) as [qs ->]. destruct x as [|a]; [done|]. by exists (a :: qs).
Qed.

Lemma normalised_Fin (qs : list Qc) (s : Qc) :
  qsum qs ≠ 0%Qc →
  normalised (Fin <$> qs) (Fin s) = Fin <$> normalised_q qs s.
Proof.
  intros Ht. unfold normalised, normalised_with, normalised_q.
  apply list_eq. intros k.
  rewrite list_lookup_fmap, !list_lookup_imap, list_lookup_fmap, np_sum_Fin.
  destruct (qs !! k) as [x|]; [|done]. simpl.
  rewrite (decide_False (P := qsum qs = 0%Qc)) by done.
  case_decide; [done|]. unfold fdiv, float_of_Z.
  by rewrite decide_False by (apply float_of_Z_ne_0; lia).
Qed.

Lemma init_finite pattern normalise w w' st :
  TriMeshStencil_init pattern normalise w = (w', OK st) →
  normalise ≠ Some NaN →
  ∃ ps, st = built (Fin <$> ps) ∧ 2 ≤ len ps.
Proof.
  intros (Hvalid & -> & _)%init_inv Hnan.
  apply not_invalid in Hvalid as (_ & Hlen & Hfin & Hnorm).
  destruct (finite_list _ Hfin) as [qs Hqs]. rewrite Hqs in *.
  assert (len (Fin <$> qs) = len qs) as Hl by (unfold len; by rewrite length_fmap).
  destruct normalise as [[|s]|]; [done| |].
  - destruct Hnorm as [_ Ht]. rewrite np_sum_Fin in Ht. simpl.
    rewrite normalised_Fin by (intros E; apply Ht; by rewrite E).
    eexists. split; [done|]. unfold normalised_q, len in *.
    rewrite length_imap. lia.
  - exists qs. split; [done|lia].
Qed.

Lemma built_weight_Fin ps jp ip :
  1 ≤ len ps → 0 ≤ jp < len ps → 0 ≤ ip < 2 * len ps - 1 - jp →
  ∃ a, ps !! Z.to_nat (slot_ring (len ps) jp ip) = Some a
       ∧ at2 (self_half_hex (built (Fin <$> ps))) jp ip = Fin a.
Proof.
  intros Hp Hjp Hip.
  assert (len (Fin <$> ps) = len ps) as Hl by (unfold len; by rewrite length_fmap).
  pose proof (built_weight_ring (Fin <$> ps) jp ip) as Hw.
  rewrite Hl, list_lookup_fmap in Hw.
  destruct (ps !! Z.to_nat (slot_ring (len ps) jp ip)) as [a|] eqn:Ha.
  - exists a. split; [done|]. specialize (Hw Hp Hjp Hip).
    apply (inj Some) in Hw. by rewrite <-Hw.
  - by specialize (Hw Hp Hjp Hip).
Qed.

Lemma weighted_sum_cons t ts :
  weighted_sum (t :: ts)
  = if isnan t.1 then weighted_sum ts else fadd (fmul t.1 t.2) (weighted_sum ts).
Proof.
  unfold weighted_sum. rewrite filter_cons. destruct t as [[|v] s]; by simpl.
Qed.

Lemma weight_total_cons t ts :
  weight_total (t :: ts)
  = if isnan t.1 then weight_total ts else fadd t.2 (weight_total ts).
Proof.
  unfold weight_total. rewrite filter_cons. destruct t as [[|v] s]; by simpl.
Qed.

Lemma constant_sums (v : Qc) (ts : list (float64 * float64)) :
  Forall (λ t, (t.1 = NaN ∨ t.1 = Fin v) ∧ ∃ a, t.2 = Fin a) ts →
  ∃ W, weight_total ts = Fin W ∧ weighted_sum ts = Fin (v * W)%Qc.
Proof.
  induction 1 as [|[x s] ts [Hx [a Ha]] _ (W & HW & HS)]; simpl in *.
  - exists 0%Qc. split; [done|]. unfold weighted_sum. simpl.
    rewrite fzero_eq. f_equal. ring.
  - subst s. rewrite weighted_sum_cons, weight_total_cons, HW, HS. simpl.
    destruct Hx as [-> | ->]; simpl.
    + by exists W.
    + exists (a + W)%Qc. split; [done|]. f_equal. ring.
Qed.

Lemma constant_mean (v : Qc) (ts : list (float64 * float64)) :
  Forall (λ t, (t.1 = NaN ∨ t.1 = Fin v) ∧ ∃ a, t.2 = Fin a) ts →
  weighted_mean ts = if fne (weight_total ts) fzero then Fin v else NaN.
Proof.
  intros (W & HW & HS)%constant_sums. unfold weighted_mean. rewrite HW, HS.
  unfold fne. rewrite fzero_eq. simpl. case_bool_decide as HW0; simpl; [done|].
  rewrite decide_False by done. f_equal. by field.
Qed.

(** X7. In exact arithmetic (the floats as rationals: no rounding, no
    overflow, no infinity), a constant field stays constant: when the
    stencil has finite weights (the normalisation target, if any, is not
    NaN) and every sample of the lattice is the same number [v], every cell
    of the result is [v], except the cells for which the weights of the
    taps that land within the lattice add up to zero, which are NaN. *)
Theorem apply_constant (pattern : ndarray) (normalise : option float64)
    (w0 w0' : world) (st : TriMeshStencil) (tri_mesh : loc) (tm : TriMesh)
    (new_title : option string) (w : world) (v : Qc) :
  TriMeshStencil_init pattern normalise w0 = (w0', OK st) →
  normalise ≠ Some NaN →
  heap w !! tri_mesh = Some tm →
  mesh_wf tm →
  (∀ j i, 0 ≤ j < nj tm → 0 ≤ i < ni tm → at2 (z_values tm) j i = Fin v) →
  ∃ w' l tm',
    apply st tri_mesh true new_title w = (w', OK l)
    ∧ heap w' !! l = Some tm'
    ∧ ∀ j i, 0 ≤ j < nj tm → 0 ≤ i < ni tm →
        getitem2 (z_values tm') j i
        = OK (if fne (weight_total (taps st tm j i)) fzero then Fin v else NaN).
Proof.
  intros Hinit Hnan Hl Hwf Hconst.
  destruct (init_finite _ _ _ _ _ Hinit Hnan) as (ps & -> & Hlen).
  assert (len (Fin <$> ps) = len ps) as Hlp by (unfold len; by rewrite length_fmap).
  rewrite (apply_ok _ tm tri_mesh new_title w) by (done || lia).
  destruct (TriMesh_new_spec (applied_mesh (built (Fin <$> ps)) tm new_title)
              (informed tm w)) as (l & -> & _).
  eexists _, l, _. split; [done|]. split; [apply lookup_insert_eq|].
  intros j i Hj Hi. simpl. rewrite getitem2_smoothed by done. f_equal.
  apply constant_mean, Forall_forall.
  intros t (jp & ip & j_s & Hjp & Hip & _ & ->)%elem_of_taps; [|lia].
  rewrite Hlp in Hjp, Hip. cbn [fst snd]. split.
  - unfold source_value. case_decide as Hin; [|by left]. right.
    apply Hconst; lia.
  - destruct (built_weight_Fin ps jp ip) as (a & _ & ->); [lia..|]. eauto.
Qed.


Lemma mesh0_z3_wf : mesh_wf (mesh0 z3).
Proof. split_and!; [done..|]. by repeat constructor. Qed.

Lemma z3_constant j i :
  0 ≤ j < 3 → 0 ≤ i < 3 → at2 z3 j i = Fin (Q2Qc 5).
Proof. intros. apply (at2_replicate 3 3); lia. Qed.

(** X7, at the stencil of the pattern [[0; 1]] normalised to 1 and a
    lattice of three rows of three columns that holds 5 everywhere. *)
Lemma apply_constant_witness :
  ∃ st w0' w' l tm' x,
    TriMeshStencil_init (pat [q 0 1; q 1 1]) (Some (q 1 1)) w0 = (w0', OK st)
    ∧ Some (q 1 1) ≠ Some NaN
    ∧ heap w3 !! 5%positive = Some (mesh0 z3)
    ∧ mesh_wf (mesh0 z3)
    ∧ (∀ j i, 0 ≤ j < 3 → 0 ≤ i < 3 → at2 z3 j i = Fin (Q2Qc 5))
    ∧ apply st 5%positive true None w3 = (w', OK l)
    ∧ heap w' !! l = Some tm'
    ∧ getitem2 (z_values tm') 1 1 = OK x
    ∧ feq x (Fin (Q2Qc 5)) = true.
Proof.
  destruct (TriMeshStencil_init (pat [q 0 1; q 1 1]) (Some (q 1 1)) w0)
    as [w0' [st|e]] eqn:Hinit; [|by vm_compute in Hinit].
  assert (Some (q 1 1) ≠ Some NaN) as Hnan by done.
  destruct (apply_constant _ _ _ _ _ 5%positive (mesh0 z3) None w3 (Q2Qc 5)
              Hinit Hnan eq_refl mesh0_z3_wf z3_constant)
    as (w' & l & tm' & Happly & Hl & Hcell).
  eexists st, w0', w', l, tm', _.
  split_and!; [done | done | done | exact mesh0_z3_wf | exact z3_constant
              | done | done | by apply (Hcell 1 1) |].
  vm_compute in Hinit. injection Hinit as _ <-. by vm_compute.
Defined.

(** ** Scaling the weights *)

Lemma fmul_assoc x y z : fmul x (fmul y z) = fmul (fmul x y) z.
Proof. destruct x, y, z; simpl; try done. f_equal. ring. Qed.

Lemma fmul_fadd_distr_r x y z : fmul (fadd x y) z = fadd (fmul x z) (fmul y z).
Proof. destruct x, y, z; simpl; try done. f_equal. ring. Qed.

Lemma scale_sums (c : Qc) (ts : list (float64 * float64)) :
  weighted_sum (scale_tap c <$> ts) = fmul (weighted_sum ts) (Fin c)
  ∧ weight_total (scale_tap c <$> ts) = fmul (weight_total ts) (Fin c).
Proof.
  induction ts as [|[v s] ts [IH1 IH2]].
  - split; (change (Fin 0%Qc = Fin (0 * c)%Qc); f_equal; ring).
  - rewrite fmap_cons, !weighted_sum_cons, !weight_total_cons, IH1, IH2.
    unfold scale_tap. cbn [fst snd].
    destruct (isnan v); [done|].
    by rewrite !fmul_fadd_distr_r, fmul_assoc.
Qed.

Lemma scale_mean (c : Qc) (ts : list (float64 * float64)) :
  c ≠ 0%Qc → weighted_mean (scale_tap c <$> ts) = weighted_mean ts.
Proof.
  intros Hc. unfold weighted_mean.
  destruct (scale_sums c ts) as [-> ->].
  destruct (weight_total ts) as [|W]; [by destruct (weighted_sum ts)|].
  unfold fne. rewrite fzero_eq. cbn [fmul feq].
  destruct (decide (W = 0%Qc)) as [->|HW].
  - rewrite !bool_decide_eq_true_2; [done..|]. ring.
  - assert ((W * c)%Qc ≠ 0%Qc) as HWc.
    { intros E. apply Qcmult_integral in E as [E|E]; done. }
    rewrite !bool_decide_eq_false_2 by done. cbn [negb].
    destruct (weighted_sum ts) as [|S]; [done|]. cbn [fmul fdiv].
    rewrite !decide_False by done. f_equal. by field.
Qed.

Lemma taps_scale (c : Qc) (p : list float64) tm j i :
  1 ≤ len p →
  taps (built ((λ x, fmul x (Fin c)) <$> p)) tm j i
  = scale_tap c <$> taps (built p) tm j i.
Proof.
  intros Hp.
  assert (len ((λ x, fmul x (Fin c)) <$> p) = len p) as Hl
    by (unfold len; by rewrite length_fmap).
  rewrite !taps_built by lia. rewrite Hl, fmap_bind_list.
  apply bind_ext_in. intros jp Hjp%elem_of_range.
  rewrite fmap_bind_list.
  apply bind_ext_in. intros ip Hip%elem_of_range. cbv zeta.
  assert (at2 (self_half_hex (built ((λ x, fmul x (Fin c)) <$> p))) jp ip
          = fmul (at2 (self_half_hex (built p)) jp ip) (Fin c)) as ->.
  { pose proof (built_weight_ring ((λ x, fmul x (Fin c)) <$> p) jp ip) as H2.
    rewrite Hl, list_lookup_fmap in H2.
    rewrite (built_weight_ring p jp ip) in H2 by done.
    specialize (H2 Hp Hjp Hip). apply (inj Some) in H2. by rewrite <-H2. }
  by case_decide.
Qed.

Lemma smoothed_scale (c : Qc) (p : list float64) tm :
  1 ≤ len p → c ≠ 0%Qc →
  smoothed (built ((λ x, fmul x (Fin c)) <$> p)) tm = smoothed (built p) tm.
Proof.
  intros Hp Hc. unfold smoothed. apply tabulate_ext. intros j i _ _.
  by rewrite taps_scale, scale_mean.
Qed.

(** X8. Only the ratios between the weights matter: a stencil built from a
    pattern and a stencil built from the same pattern with every entry
    multiplied by one factor [c] that is not zero (both without
    normalisation) give lattices with the same z values. *)
Theorem apply_scale_invariant (p1 p2 : ndarray) (c : Qc)
    (wa wa' wb wb' : world) (st1 st2 : TriMeshStencil) (tri_mesh : loc)
    (tm : TriMesh) (t1 t2 : option string) (w : world) :
  TriMeshStencil_init p1 None wa = (wa', OK st1) →
  TriMeshStencil_init p2 None wb = (wb', OK st2) →
  data p2 = (λ x, fmul x (Fin c)) <$> data p1 →
  c ≠ 0%Qc →
  heap w !! tri_mesh = Some tm →
  mesh_wf tm →
  ∃ w1 l1 tm1 w2 l2 tm2,
    apply st1 tri_mesh true t1 w = (w1, OK l1) ∧ heap w1 !! l1 = Some tm1
    ∧ apply st2 tri_mesh true t2 w = (w2, OK l2) ∧ heap w2 !! l2 = Some tm2
    ∧ z_values tm1 = z_values tm2.
Proof.
  intros (Hv1 & -> & _)%init_inv (Hv2 & -> & _)%init_inv Hdata Hc Hl Hwf.
  apply not_invalid in Hv1 as (_ & Hlen1 & _).
  apply not_invalid in Hv2 as (_ & Hlen2 & _).
  simpl.
  rewrite (apply_ok _ tm tri_mesh t1 w), (apply_ok _ tm tri_mesh t2 w)
    by (done || lia).
  destruct (TriMesh_new_spec (applied_mesh (built (data p1)) tm t1) (informed tm w))
    as (l1 & -> & _).
  destruct (TriMesh_new_spec (applied_mesh (built (data p2)) tm t2) (informed tm w))
    as (l2 & -> & _).
  eexists _, l1, _, _, l2, _.
  split_and!; [done | apply lookup_insert_eq | done | apply lookup_insert_eq |].
  simpl. rewrite Hdata. symmetry. apply smoothed_scale; [lia|done].
Qed.

Lemma normalised_q_scale (qs : list Qc) (s1 s2 : Qc) :
  s1 ≠ 0%Qc → qsum qs ≠ 0%Qc →
  normalised_q qs s2 = (λ x, x * (s2 / s1))%Qc <$> normalised_q qs s1.
Proof.
  intros Hs1 Ht. unfold normalised_q. apply list_eq. intros k.
  rewrite list_lookup_fmap, !list_lookup_imap.
  destruct (qs !! k) as [x|]; [|done]. simpl. f_equal.
  case_decide; field; repeat split; try done.
  apply float_of_Z_ne_0. lia.
Qed.

(** X9. The value of the normalisation target has no effect on the
    smoothing: two stencils built from the same pattern with two targets,
    both rationals that [__init__] accepts, give lattices with the same z
    values. *)
Theorem normalise_target_irrelevant (pattern : ndarray) (s1 s2 : Qc)
    (wa wa' wb wb' : world) (st1 st2 : TriMeshStencil) (tri_mesh : loc)
    (tm : TriMesh) (t1 t2 : option string) (w : world) :
  TriMeshStencil_init pattern (Some (Fin s1)) wa = (wa', OK st1) →
  TriMeshStencil_init pattern (Some (Fin s2)) wb = (wb', OK st2) →
  heap w !! tri_mesh = Some tm →
  mesh_wf tm →
  ∃ w1 l1 tm1 w2 l2 tm2,
    apply st1 tri_mesh true t1 w = (w1, OK l1) ∧ heap w1 !! l1 = Some tm1
    ∧ apply st2 tri_mesh true t2 w = (w2, OK l2) ∧ heap w2 !! l2 = Some tm2
    ∧ z_values tm1 = z_values tm2.
Proof.
  intros (Hv1 & -> & _)%init_inv (Hv2 & -> & _)%init_inv Hl Hwf.
  apply not_invalid in Hv1 as (_ & Hlen & Hfin & Hs1 & Ht).
  apply not_invalid in Hv2 as (_ & _ & _ & Hs2 & _).
  destruct (finite_list _ Hfin) as [qs Hqs]. rewrite Hqs in *.
  rewrite np_sum_Fin in Ht.
  assert (qsum qs ≠ 0%Qc) as Ht' by (intros E; apply Ht; by rewrite E).
  assert (s1 ≠ 0%Qc) as Hs1' by (intros E; apply Hs1; by rewrite E).
  assert (s2 ≠ 0%Qc) as Hs2' by (intros E; apply Hs2; by rewrite E).
  assert (len (Fin <$> qs) = len qs) as Hlq by (unfold len; by rewrite length_fmap).
  assert (len (normalised_q qs s1) = len qs) as Hln
    by (unfold len, normalised_q; by rewrite length_imap).
  simpl. rewrite !normalised_Fin by done.
  rewrite (normalised_q_scale qs s1 s2) by done.
  rewrite <-list_fmap_compose.
  assert (Fin ∘ (λ x, x * (s2 / s1))%Qc <$> normalised_q qs s1
          = (λ x, fmul x (Fin (s2 / s1)%Qc)) <$> (Fin <$> normalised_q qs s1)) as ->
    by (by rewrite <-list_fmap_compose).
  set (p := Fin <$> normalised_q qs s1).
  assert (len p = len qs) as Hp by (unfold p, len in *; by rewrite length_fmap).
  rewrite (apply_ok _ tm tri_mesh t1 w), (apply_ok _ tm tri_mesh t2 w)
    by (done || (unfold len in *; rewrite ?length_fmap; lia)).
  destruct (TriMesh_new_spec (applied_mesh (built p) tm t1) (informed tm w))
    as (l1 & -> & _).
  destruct (TriMesh_new_spec
              (applied_mesh (built ((λ x, fmul x (Fin (s2 / s1)%Qc)) <$> p)) tm t2)
              (informed tm w)) as (l2 & -> & _).
  eexists _, l1, _, _, l2, _.
  split_and!; [done | apply lookup_insert_eq | done | apply lookup_insert_eq |].
  simpl. symmetry. apply smoothed_scale; [lia|].
  intros E. apply Hs2'.
  replace s2 with (s2 / s1 * s1)%Qc by (by field). rewrite E. ring.
Qed.

(** X8, at the patterns [[1; 2]] and [[3; 6]] and a lattice of three rows
    of three columns. *)
Lemma apply_scale_invariant_witness :
  let p1 := pat [q 1 1; q 2 1] in
  let p2 := pat ((λ x, fmul x (Fin (Q2Qc 3))) <$> [q 1 1; q 2 1]) in
  ∃ st1 st2 wa' wb' w1' l1 tm1 w2' l2 tm2,
    TriMeshStencil_init p1 None w0 = (wa', OK st1)
    ∧ TriMeshStencil_init p2 None w0 = (wb', OK st2)
    ∧ Q2Qc 3 ≠ 0%Qc
    ∧ apply st1 5%positive true None w1 = (w1', OK l1)
    ∧ heap w1' !! l1 = Some tm1
    ∧ apply st2 5%positive true None w1 = (w2', OK l2)
    ∧ heap w2' !! l2 = Some tm2
    ∧ z_values tm1 = z_values tm2.
Proof.
  intros p1 p2.
  destruct (TriMeshStencil_init p1 None w0)
    as [wa' [st1|e]] eqn:Hinit1; [|by vm_compute in Hinit1].
  destruct (TriMeshStencil_init p2 None w0)
    as [wb' [st2|e]] eqn:Hinit2; [|by vm_compute in Hinit2].
  assert (Q2Qc 3 ≠ 0%Qc) as Hc
    by (apply (bool_decide_eq_false_1 (Q2Qc 3 = 0%Qc)); by vm_compute).
  destruct (apply_scale_invariant p1 p2 (Q2Qc 3) _ _ _ _ _ _ 5%positive
              (mesh0 z1) None None w1 Hinit1 Hinit2 eq_refl Hc eq_refl
              mesh0_z1_wf)
    as (w1' & l1 & tm1 & w2' & l2 & tm2 & H1 & H2 & H3 & H4 & H5).
  exists st1, st2, wa', wb', w1', l1, tm1, w2', l2, tm2.
  by split_and!.
Defined.

(** X9, at the pattern [[1; 2]] normalised to 1 and to 5. *)
Lemma normalise_target_irrelevant_witness :
  ∃ st1 st2 wa' wb' w1' l1 tm1 w2' l2 tm2,
    TriMeshStencil_init (pat [q 1 1; q 2 1]) (Some (Fin (Q2Qc 1))) w0
    = (wa', OK st1)
    ∧ TriMeshStencil_init (pat [q 1 1; q 2 1]) (Some (Fin (Q2Qc 5))) w0
      = (wb', OK st2)
    ∧ apply st1 5%positive true None w1 = (w1', OK l1)
    ∧ heap w1' !! l1 = Some tm1
    ∧ apply st2 5%positive true None w1 = (w2', OK l2)
    ∧ heap w2' !! l2 = Some tm2
    ∧ z_values tm1 = z_values tm2.
Proof.
  destruct (TriMeshStencil_init (pat [q 1 1; q 2 1]) (Some (Fin (Q2Qc 1))) w0)
    as [wa' [st1|e]] eqn:Hinit1; [|by vm_compute in Hinit1].
  destruct (TriMeshStencil_init (pat [q 1 1; q 2 1]) (Some (Fin (Q2Qc 5))) w0)
    as [wb' [st2|e]] eqn:Hinit2; [|by vm_compute in Hinit2].
  destruct (normalise_target_irrelevant _ _ _ _ _ _ _ _ _ 5%positive
              (mesh0 z1) None None w1 Hinit1 Hinit2 eq_refl mesh0_z1_wf)
    as (w1' & l1 & tm1 & w2' & l2 & tm2 & H1 & H2 & H3 & H4 & H5).
  exists st1, st2, wa', wb', w1', l1, tm1, w2', l2, tm2.
  by split_and!.
Defined.

(** ** Stencils with positive weights *)

Lemma bounded_sums (lo hi : Qc) (ts : list (float64 * float64)) :
  Forall (λ t, (t.1 = NaN ∨ ∃ v, t.1 = Fin v ∧ (lo ≤ v)%Qc ∧ (v ≤ hi)%Qc)
               ∧ ∃ a, t.2 = Fin a ∧ (0 < a)%Qc) ts →
  ∃ W S,
    weight_total ts = Fin W ∧ weighted_sum ts = Fin S
    ∧ (0 ≤ W)%Qc ∧ (lo * W ≤ S)%Qc ∧ (S ≤ hi * W)%Qc
    ∧ (Exists (λ t, isnan t.1 = false) ts → (0 < W)%Qc).
Proof.
  induction 1 as [|[x s] ts [Hx (a & Ha & Hpos)] _
                   (W & S & HW & HS & HW0 & Hlo & Hhi & Hex)]; simpl in *.
  - exists 0%Qc, 0%Qc. split_and!; try done.
    + rewrite Qcmult_0_r. apply Qcle_refl.
    + rewrite Qcmult_0_r. apply Qcle_refl.
    + by intros ?%Exists_nil.
  - subst s. rewrite weighted_sum_cons, weight_total_cons, HW, HS. simpl.
    destruct Hx as [-> | (v & -> & Hv1 & Hv2)]; simpl.
    + exists W, S. split_and!; try done.
      intros [?|?]%Exists_cons; [done|auto].
    + exists (a + W)%Qc, (v * a + S)%Qc.
      assert (0 ≤ a)%Qc as Ha0 by by apply Qclt_le_weak.
      split_and!; try done.
      * by apply Qcplus_nonneg_nonneg.
      * rewrite Qcmult_plus_distr_r. apply Qcplus_le_compat; [|done].
        by apply Qcmult_le_compat_r.
      * rewrite Qcmult_plus_distr_r. apply Qcplus_le_compat; [|done].
        by apply Qcmult_le_compat_r.
      * intros _. by apply Qcplus_pos_nonneg.
Qed.

Lemma bounded_mean (lo hi : Qc) (ts : list (float64 * float64)) :
  Forall (λ t, (t.1 = NaN ∨ ∃ v, t.1 = Fin v ∧ (lo ≤ v)%Qc ∧ (v ≤ hi)%Qc)
               ∧ ∃ a, t.2 = Fin a ∧ (0 < a)%Qc) ts →
  (∀ r, weighted_mean ts = Fin r → (lo ≤ r)%Qc ∧ (r ≤ hi)%Qc)
  ∧ (Exists (λ t, isnan t.1 = false) ts → isnan (weighted_mean ts) = false).
Proof.
  intros (W & S & HW & HS & HW0 & Hlo & Hhi & Hex)%bounded_sums.
  unfold weighted_mean. rewrite HW, HS. unfold fne. rewrite fzero_eq.
  cbn [feq fdiv].
  destruct (decide (W = 0%Qc)) as [->|HWne].
  - rewrite bool_decide_eq_true_2 by done. cbn [negb]. split; [done|].
    intros Hpos%Hex. by apply Qclt_not_eq in Hpos.
  - rewrite bool_decide_eq_false_2 by done. cbn [negb]. split; [|done].
    assert (0 < W)%Qc as Hpos.
    { apply Qcle_lt_or_eq in HW0 as [?|?]; [done|]. by destruct HWne. }
    assert ((S / W * W)%Qc = S) as Hdiv by (by field).
    intros r [= <-]. split.
    + apply (Qcmult_le_mono_pos_r _ _ W Hpos). by rewrite Hdiv.
    + apply (Qcmult_le_mono_pos_r _ _ W Hpos). by rewrite Hdiv.
Qed.

Lemma centre_tap p tm j i :
  1 ≤ len p → 0 ≤ j < nj tm → 0 ≤ i < ni tm →
  (at2 (z_values tm) j i, at2 (self_half_hex (built p)) 0 (len p - 1))
  ∈ taps (built p) tm j i.
Proof.
  intros Hp Hj Hi. apply elem_of_taps; [done|].
  exists 0, (len p - 1), j. split_and!; try lia.
  f_equal. change (0 `div` 2) with 0. change (0 `mod` 2) with 0.
  replace (i + (- (len p - 1) + 0) + (len p - 1) + 0 * j `mod` 2) with i by lia.
  unfold source_value. by rewrite decide_True by lia.
Qed.

(** X10. In exact arithmetic (the floats as rationals: no rounding, no
    overflow, no infinity), a stencil whose weights are all positive never
    overshoots: when all the samples of the lattice lie between [lo] and
    [hi], every cell of the result is NaN or lies between [lo] and [hi];
    and a cell whose own sample is present is not NaN in the result. *)
Theorem apply_within_range (pattern : ndarray) (normalise : option float64)
    (w0 w0' : world) (st : TriMeshStencil) (ps : list Qc) (tri_mesh : loc)
    (tm : TriMesh) (new_title : option string) (w : world) (lo hi : Qc) :
  TriMeshStencil_init pattern normalise w0 = (w0', OK st) →
  self_pattern st = Fin <$> ps →
  Forall (λ a, 0 < a)%Qc ps →
  heap w !! tri_mesh = Some tm →
  mesh_wf tm →
  (∀ j i v, 0 ≤ j < nj tm → 0 ≤ i < ni tm →
            at2 (z_values tm) j i = Fin v → (lo ≤ v)%Qc ∧ (v ≤ hi)%Qc) →
  ∃ w' l tm',
    apply st tri_mesh true new_title w = (w', OK l)
    ∧ heap w' !! l = Some tm'
    ∧ ∀ j i, 0 ≤ j < nj tm → 0 ≤ i < ni tm →
        ∃ x, getitem2 (z_values tm') j i = OK x
             ∧ (∀ r, x = Fin r → (lo ≤ r)%Qc ∧ (r ≤ hi)%Qc)
             ∧ (isnan (at2 (z_values tm) j i) = false → isnan x = false).
Proof.
  intros (p & -> & Hlen & _)%init_inv_len Hpat Hpos Hl Hwf Hrange.
  change (self_pattern (built p)) with p in Hpat. subst p.
  assert (len (Fin <$> ps) = len ps) as Hlp by (unfold len; by rewrite length_fmap).
  rewrite (apply_ok _ tm tri_mesh new_title w) by (done || lia).
  destruct (TriMesh_new_spec (applied_mesh (built (Fin <$> ps)) tm new_title)
              (informed tm w)) as (l & -> & _).
  eexists _, l, _. split; [done|]. split; [apply lookup_insert_eq|].
  intros j i Hj Hi. simpl. rewrite getitem2_smoothed by done.
  eexists. split; [done|].
  destruct (bounded_mean lo hi (taps (built (Fin <$> ps)) tm j i)) as [Hb Hdef].
  { apply Forall_forall.
    intros t (jp & ip & j_s & Hjp & Hip & _ & ->)%elem_of_taps; [|lia].
    rewrite Hlp in Hjp, Hip. cbn [fst snd]. split.
    - unfold source_value. case_decide as Hin; [|by left].
      destruct (at2 (z_values tm) j_s _) as [|v] eqn:Hv; [by left|].
      right. exists v. split; [done|]. eapply Hrange; [| |exact Hv]; lia.
    - destruct (built_weight_Fin ps jp ip) as (a & Ha & ->); [lia..|].
      exists a. split; [done|].
      by eapply (Forall_lookup_1 _ _ _ _ Hpos). }
  split; [done|]. intros Hpresent. apply Hdef.
  apply Exists_exists. eexists. split; [apply centre_tap; (done || lia)|done].
Qed.

(** X10, at the stencil of the pattern [[1; 2]] and a lattice of three rows
    of three columns with samples between 1 and 9. *)
Lemma apply_within_range_witness :
  ∃ st w0' w' l tm' x,
    TriMeshStencil_init (pat [q 1 1; q 2 1]) None w0 = (w0', OK st)
    ∧ self_pattern st = Fin <$> [Q2Qc 1; Q2Qc 2]
    ∧ Forall (λ a, 0 < a)%Qc [Q2Qc 1; Q2Qc 2]
    ∧ apply st 5%positive true None w1 = (w', OK l)
    ∧ heap w' !! l = Some tm'
    ∧ getitem2 (z_values tm') 1 1 = OK x
    ∧ (∀ r, x = Fin r → (Q2Qc 1 ≤ r)%Qc ∧ (r ≤ Q2Qc 9)%Qc).
Proof.
  destruct (TriMeshStencil_init (pat [q 1 1; q 2 1]) None w0)
    as [w0' [st|e]] eqn:Hinit; [|by vm_compute in Hinit].
  assert (self_pattern st = Fin <$> [Q2Qc 1; Q2Qc 2]) as Hpat
    by (apply init_inv in Hinit as (_ & -> & _); reflexivity).
  assert (Forall (λ a, 0 < a)%Qc [Q2Qc 1; Q2Qc 2]) as Hpos
    by (repeat constructor).
  assert (∀ j i v, 0 ≤ j < nj (mesh0 z1) → 0 ≤ i < ni (mesh0 z1) →
            at2 (z_values (mesh0 z1)) j i = Fin v →
            (Q2Qc 1 ≤ v)%Qc ∧ (v ≤ Q2Qc 9)%Qc) as Hrange.
  { intros j i v Hj Hi.
    change (nj (mesh0 z1)) with 3 in Hj. change (ni (mesh0 z1)) with 3 in Hi.
    assert (j = 0 ∨ j = 1 ∨ j = 2) as [-> | [-> | ->]] by lia;
      assert (i = 0 ∨ i = 1 ∨ i = 2) as [-> | [-> | ->]] by lia;
      intros [= <-]; split; by vm_compute. }
  destruct (apply_within_range _ _ _ _ _ _ 5%positive (mesh0 z1) None w1
              (Q2Qc 1) (Q2Qc 9) Hinit Hpat Hpos eq_refl mesh0_z1_wf Hrange)
    as (w' & l & tm' & Happly & Hl & Hcell).
  destruct (Hcell 1 1) as (x & Hx & Hb & _); [done..|].
  exists st, w0', w', l, tm', x.
  by split_and!.
Defined.

(** ** The rendering of the stencil *)

Lemma logged_logged level ms1 ms2 w :
  logged level ms2 (logged level ms1 w) = logged level (ms1 ++ ms2) w.
Proof. unfold logged. simpl. by rewrite fmap_app, app_assoc. Qed.

Lemma logged_nil level w : logged level [] w = w.
Proof. destruct w. unfold logged. simpl. by rewrite app_nil_r. Qed.

Lemma for_each_M_logged {A} (body : A → M unit) (f : A → list string)
    level (xs : list A) w :
  (∀ x w, x ∈ xs → body x w = (logged level (f x) w, OK ())) →
  for_each_M body xs w = (logged level (xs ≫= f) w, OK ()).
Proof.
  revert w. induction xs as [|x xs IH]; intros w Hbody.
  - simpl. by rewrite logged_nil.
  - simpl. unfold mbind, M_bind. rewrite Hbody by left.
    rewrite IH by (intros; apply Hbody; by right).
    by rewrite logged_logged.
Qed.

Lemma getitem_neg {A} (l : list A) (k : Z) (x : A) :
  1 ≤ k ≤ len l → l !! Z.to_nat (len l - k) = Some x → getitem l (- k) = OK x.
Proof.
  intros Hk Hx. unfold getitem.
  destruct (Z.ltb_spec (- k) 0); [|lia].
  destruct (Z.leb_spec 0 (- k + len l)); [|lia].
  destruct (Z.ltb_spec (- k + len l) (len l)); [|lia].
  simpl. replace (- k + len l) with (len l - k) by lia. by rewrite Hx.
Qed.

Lemma bind_nil_list {A B} (f : A → list B) : [] ≫= f = [].
Proof. done. Qed.

Lemma range_shift (lo hi : Z) :
  range (1 + lo) (1 + hi) = Z.add 1 <$> range lo hi.
Proof.
  unfold range. rewrite fmap_add_seqZ. f_equal. lia.
Qed.

Lemma reverse_bind_range {B} (f : Z → list B) (lo hi : Z) :
  reverse (range lo hi ≫= f)
  = range lo hi ≫= λ k, reverse (f (lo + hi - 1 - k)).
Proof.
  destruct (decide (hi ≤ lo)) as [Hle|Hlt].
  { by rewrite !range_nil by lia. }
  assert (∀ d : nat,
    reverse (range lo (lo + Z.of_nat d) ≫= f)
    = range lo (lo + Z.of_nat d) ≫= λ k, reverse (f (lo + (lo + Z.of_nat d) - 1 - k)))
    as Hind.
  { induction d as [|d IH].
    - by rewrite !range_nil by lia.
    - replace (lo + Z.of_nat (S d)) with (lo + Z.of_nat d + 1) by lia.
      rewrite (range_snoc lo (lo + Z.of_nat d)) at 1 by lia.
      rewrite bind_app, reverse_app, IH.
      rewrite (range_cons lo (lo + Z.of_nat d + 1)) by lia.
      rewrite !bind_cons, bind_nil_list, app_nil_r.
      replace (lo + (lo + Z.of_nat d + 1) - 1 - lo) with (lo + Z.of_nat d) by lia.
      f_equal.
      replace (lo + 1) with (1 + lo) by lia.
      replace (lo + Z.of_nat d + 1) with (1 + (lo + Z.of_nat d)) by lia.
      rewrite range_shift, list_fmap_bind.
      apply bind_ext_in. intros k _. simpl. do 2 f_equal. lia. }
  specialize (Hind (Z.to_nat (hi - lo))).
  by replace (lo + Z.of_nat (Z.to_nat (hi - lo))) with hi in Hind by lia.
Qed.

Lemma interleave_shift {B} (L : Z → B) (e : B) (m : nat) :
  (range 0 (Z.of_nat m) ≫= λ i, [L i; e]) ++ [L (Z.of_nat m)]
  = L 0 :: (range 1 (Z.of_nat m + 1) ≫= λ jp, [e; L jp]).
Proof.
  induction m as [|m IH].
  - by rewrite !range_nil by lia.
  - replace (Z.of_nat (S m)) with (Z.of_nat m + 1) by lia.
    rewrite (range_snoc 0 (Z.of_nat m)) by lia.
    rewrite (range_snoc 1 (Z.of_nat m + 1)) by lia.
    rewrite !bind_app, !bind_cons, !bind_nil_list, !app_nil_r.
    rewrite app_comm_cons, <-IH, <-!app_assoc. done.
Qed.

Section stencil_log_properties.
Variable format_6_3f : float64 → string.

Lemma half_line_ok p jp :
  1 ≤ len p → 0 ≤ jp < len p →
  half_line format_6_3f (built p) jp = OK (line_of format_6_3f (built p) jp).
Proof.
  intros Hp Hjp.
  assert (∃ s, half_line format_6_3f (built p) jp = OK s) as [s Hs].
  { unfold half_line.
    rewrite (getitem_lookup _ _ _ (proj1 Hjp) (built_start_ip p jp Hjp)), bind_OK.
    rewrite (getitem_lookup _ _ _ (proj1 Hjp) (built_row_length p jp Hjp)), bind_OK.
    rewrite (getitem_lookup _ _ _ (proj1 Hjp) (built_half_hex_row p jp Hjp)), bind_OK.
    eauto. }
  unfold line_of. by rewrite Hs.
Qed.

Lemma log_ok p level w :
  1 ≤ len p →
  TriMeshStencil_log format_6_3f (built p) level w
  = (logged level (rendering format_6_3f (built p)) w, OK ()).
Proof.
  intros Hp. unfold TriMeshStencil_log.
  change (self_n (built p)) with (len p).
  set (L := line_of format_6_3f (built p)).
  set (n := len p) in *.
  assert (for_each
            (λ half_lines jp,
               line ← half_line format_6_3f (built p) jp; OK (half_lines ++ [line]))
            [] (range 0 n) = OK (L <$> range 0 n)) as Hlines.
  { apply (for_each_range_eq _ (λ k hl, hl = L <$> range 0 k)); [lia|done| |done].
    intros k hl Hk ->. rewrite half_line_ok by (done || (fold n; lia)). simpl.
    eexists. split; [done|]. rewrite range_snoc by lia. by rewrite fmap_app. }
  unfold mbind at 1. unfold M_bind at 1. unfold lift at 1. rewrite Hlines.
  assert (len (L <$> range 0 n) = n) as Hl by (apply len_closed; lia).
  unfold mbind at 1. unfold M_bind at 1.
  rewrite (for_each_M_logged _ (λ i, [L (n - i); ""]) level).
  2:{ intros i w1 Hi%elem_of_range.
      unfold mbind at 1. unfold M_bind at 1. unfold lift at 1.
      rewrite (getitem_neg _ _ (L (n - i))); [|lia|].
      - unfold mbind, M_bind, log_, logged. simpl. by rewrite <-app_assoc.
      - rewrite Hl. apply lookup_closed. lia. }
  rewrite (for_each_M_logged _ (λ i, L i :: if i <? n - 1 then [""] else []) level).
  2:{ intros i w1 Hi%elem_of_range.
      unfold mbind at 1. unfold M_bind at 1. unfold lift at 1.
      rewrite (getitem_lookup _ _ (L i)) by (lia || (apply lookup_closed; lia)).
      unfold mbind, M_bind, log_, logged. simpl. destruct (i <? n - 1); simpl.
      - by rewrite <-app_assoc.
      - done. }
  rewrite logged_logged. do 2 f_equal.
  unfold rendering. change (self_n (built p)) with n. fold L. f_equal.
  pose proof (interleave_shift L "" (Z.to_nat (n - 1))) as Hshift.
  rewrite Z2Nat.id in Hshift by lia.
  replace (n - 1 + 1) with n in Hshift by lia.
  change ([L 0] ++ range 1 n ≫= λ jp, [""; L jp])
    with (L 0 :: range 1 n ≫= λ jp, [""; L jp]).
  rewrite <-Hshift.
  replace n with (n - 1 + 1) at 1 by lia.
  rewrite range_snoc by lia.
  rewrite bind_app, bind_cons, bind_nil_list, app_nil_r.
  destruct (Z.ltb_spec (n - 1) (n - 1)); [lia|].
  f_equal. apply bind_ext_in. intros i Hi%elem_of_range.
  by destruct (Z.ltb_spec i (n - 1)); [|lia].
Qed.

Lemma rendering_length p :
  1 ≤ len p → len (rendering format_6_3f (built p)) = 4 * len p - 3.
Proof.
  intros Hp. unfold rendering. change (self_n (built p)) with (len p).
  rewrite !len_app.
  rewrite (len_bind_range _ (λ k, 2 * (k - 1)) 1 (len p));
    [|lia|done|intros k _; unfold len; simpl; lia].
  rewrite (len_bind_range _ (λ k, 2 * (k - 1)) 1 (len p));
    [|lia|done|intros k _; unfold len; simpl; lia].
  change (len [line_of format_6_3f (built p) 0]) with 1. lia.
Qed.

Lemma rendering_palindrome p :
  reverse (rendering format_6_3f (built p)) = rendering format_6_3f (built p).
Proof.
  unfold rendering. change (self_n (built p)) with (len p).
  rewrite !reverse_app, !reverse_bind_range, reverse_singleton, <-app_assoc.
  f_equal; [|f_equal].
  - apply bind_ext_in. intros k Hk%elem_of_range.
    replace (1 + len p - 1 - k) with (len p - k) by lia. done.
  - apply bind_ext_in. intros k Hk%elem_of_range.
    replace (len p - (1 + len p - 1 - k)) with k by lia. done.
Qed.

(** X11. For every built stencil, [log] raises nothing (its negative
    indices [half_lines[-i]] included), leaves the object store alone and
    logs [4 n - 3] records, all at the level it is given: the lines of the
    rows [n - 1] down to 1, then of the rows 0 to [n - 1], separated by empty
    lines.  The records read the same from the last to the first. *)
Theorem log_rendering (pattern : ndarray) (normalise : option float64)
    (w0 w0' : world) (st : TriMeshStencil) (level : log_level) (w : world) :
  TriMeshStencil_init pattern normalise w0 = (w0', OK st) →
  ∃ w' msgs,
    TriMeshStencil_log format_6_3f st level w = (w', OK ())
    ∧ heap w' = heap w
    ∧ logs w' = logs w ++ ((λ m, (level, m)) <$> msgs)
    ∧ msgs = rendering format_6_3f st
    ∧ len msgs = 4 * self_n st - 3
    ∧ reverse msgs = msgs
    ∧ (∀ jp, 0 ≤ jp < self_n st →
         half_line format_6_3f st jp = OK (line_of format_6_3f st jp)).
Proof.
  intros (p & -> & Hlen & _)%init_inv_len.
  eexists _, _. split; [apply log_ok; lia|].
  split_and!; try done.
  - apply rendering_length. lia.
  - apply rendering_palindrome.
  - intros jp Hjp. apply half_line_ok; [lia|done].
Qed.
End stencil_log_properties.

Lemma log_rendering_witness :
  ∃ st w0' w' msgs,
    TriMeshStencil_init (pat [q 1 1; q 2 1]) None w0 = (w0', OK st)
    ∧ TriMeshStencil_log (λ _, "v") st DEBUG w1 = (w', OK ())
    ∧ heap w' = heap w1
    ∧ logs w' = logs w1 ++ ((λ m, (DEBUG, m)) <$> msgs)
    ∧ msgs = rendering (λ _, "v") st
    ∧ len msgs = 5
    ∧ reverse msgs = msgs.
Proof.
  destruct (TriMeshStencil_init (pat [q 1 1; q 2 1]) None w0)
    as [w0' [st|e]] eqn:Hinit; [|by vm_compute in Hinit].
  destruct (log_rendering (λ _, "v") _ _ _ _ _ DEBUG w1 Hinit)
    as (w' & msgs & Hlog & Hheap & Hlogs & Hmsgs & Hlen & Hrev & _).
  exists st, w0', w', msgs. split_and!; try done.
  rewrite Hlen. apply init_inv in Hinit as (_ & -> & _). reflexivity.
Defined.

(** *** The width of the lines of [log] *)






Section stencil_log_width.
Variable format_6_3f : float64 → string.


End stencil_log_width.



(** *** The unused slots of the rectangular array of weights *)



(** *** Samples sent through [v ↦ c v + k] *)

Lemma affine_sums (c k : Qc) (ts : list (float64 * float64)) :
  Forall (λ t, ∃ a, t.2 = Fin a) ts →
  ∃ W S,
    weight_total ts = Fin W ∧ weighted_sum ts = Fin S
    ∧ weight_total (affine_tap c k <$> ts) = Fin W
    ∧ weighted_sum (affine_tap c k <$> ts) = Fin (S * c + k * W)%Qc.
Proof.
  induction 1 as [|[x s] ts [a Ha] _ (W & S & HW & HS & HW' & HS')].
  - exists 0%Qc, 0%Qc. split_and!; try done.
    change (Fin 0%Qc = Fin (0 * c + k * 0)%Qc). f_equal. ring.
  - cbn [snd] in Ha. subst s.
    rewrite fmap_cons, !weighted_sum_cons, !weight_total_cons, HW, HS, HW', HS'.
    unfold affine_tap, affine. cbn [fst snd].
    destruct x as [|v]; cbn [fmul fadd isnan].
    + by exists W, S.
    + exists (a + W)%Qc, (v * a + S)%Qc. split_and!; try done. f_equal. ring.
Qed.

Lemma affine_mean (c k : Qc) (ts : list (float64 * float64)) :
  Forall (λ t, ∃ a, t.2 = Fin a) ts →
  weighted_mean (affine_tap c k <$> ts) = affine c k (weighted_mean ts).
Proof.
  intros Hts. unfold weighted_mean.
  destruct (affine_sums c k ts Hts) as (W & S & -> & -> & -> & ->).
  unfold fne. rewrite fzero_eq. cbn [feq].
  destruct (decide (W = 0%Qc)) as [->|HW].
  - by rewrite !bool_decide_eq_true_2.
  - rewrite !bool_decide_eq_false_2 by done. cbn [negb fdiv].
    rewrite !decide_False by done. unfold affine. cbn [fmul fadd].
    f_equal. by field.
Qed.

Lemma taps_affine (c k : Qc) (p : list float64) (tm1 tm2 : TriMesh) j i :
  1 ≤ len p →
  (∀ j' i', source_value tm2 j' i' = affine c k (source_value tm1 j' i')) →
  taps (built p) tm2 j i = affine_tap c k <$> taps (built p) tm1 j i.
Proof.
  intros Hp Hsrc. rewrite !taps_built by done. rewrite fmap_bind_list.
  apply bind_ext_in. intros jp Hjp%elem_of_range.
  rewrite fmap_bind_list.
  apply bind_ext_in. intros ip Hip%elem_of_range. cbv zeta.
  unfold affine_tap. rewrite !Hsrc. by case_decide.
Qed.

(** X15. The smoothing commutes with a change of unit and of datum of the
    samples: when every sample of a second lattice is [c v + k] for the
    sample [v] of the first one in the same place (missing where it is
    missing), and the weights are finite, every cell of the second result is
    [c x + k] for the cell [x] of the first result, and NaN where that one is
    NaN. *)
Theorem apply_affine (pattern : ndarray) (normalise : option float64)
    (w0 w0' : world) (st : TriMeshStencil) (l1 l2 : loc) (tm1 tm2 : TriMesh)
    (t1 t2 : option string) (w : world) (c k : Qc) :
  TriMeshStencil_init pattern normalise w0 = (w0', OK st) →
  normalise ≠ Some NaN →
  heap w !! l1 = Some tm1 → heap w !! l2 = Some tm2 →
  mesh_wf tm1 → mesh_wf tm2 →
  nj tm2 = nj tm1 → ni tm2 = ni tm1 →
  (∀ j i, 0 ≤ j < nj tm1 → 0 ≤ i < ni tm1 →
          at2 (z_values tm2) j i = affine c k (at2 (z_values tm1) j i)) →
  ∃ w1 r1 tm1' w2 r2 tm2',
    apply st l1 true t1 w = (w1, OK r1) ∧ heap w1 !! r1 = Some tm1'
    ∧ apply st l2 true t2 w = (w2, OK r2) ∧ heap w2 !! r2 = Some tm2'
    ∧ ∀ j i, 0 ≤ j < nj tm1 → 0 ≤ i < ni tm1 →
        ∃ x, getitem2 (z_values tm1') j i = OK x
             ∧ getitem2 (z_values tm2') j i = OK (affine c k x).
Proof.
  intros Hinit Hnan Hl1 Hl2 Hwf1 Hwf2 Hnj Hni Hz.
  destruct (init_finite _ _ _ _ _ Hinit Hnan) as (ps & -> & Hlen).
  assert (len (Fin <$> ps) = len ps) as Hlp by (unfold len; by rewrite length_fmap).
  rewrite (apply_ok _ tm1 l1 t1 w), (apply_ok _ tm2 l2 t2 w) by (done || lia).
  destruct (TriMesh_new_spec (applied_mesh (built (Fin <$> ps)) tm1 t1)
              (informed tm1 w)) as (r1 & -> & _).
  destruct (TriMesh_new_spec (applied_mesh (built (Fin <$> ps)) tm2 t2)
              (informed tm2 w)) as (r2 & -> & _).
  eexists _, r1, _, _, r2, _.
  split; [done|]. split; [apply lookup_insert_eq|].
  split; [done|]. split; [apply lookup_insert_eq|].
  intros j i Hj Hi. simpl.
  rewrite !getitem2_smoothed by (done || lia).
  eexists. split; [done|]. f_equal.
  rewrite (taps_affine c k _ tm1 tm2); [|lia|].
  - apply affine_mean, Forall_forall.
    intros t (jp & ip & j_s & Hjp & Hip & _ & ->)%elem_of_taps; [|lia].
    rewrite Hlp in Hjp, Hip. cbn [fst snd].
    destruct (built_weight_Fin ps jp ip) as (a & _ & ->); [lia..|]. eauto.
  - intros j' i'. unfold source_value. rewrite Hnj, Hni.
    case_decide as Hin; [|done]. apply Hz; lia.
Qed.

Lemma mesh0_z4_wf : mesh_wf (mesh0 z4).
Proof. split_and!; [done..|]. by repeat constructor. Qed.

(** X15, at the stencil of the pattern [[1; 2]] and the samples [2 v + 1]. *)
Lemma apply_affine_witness :
  ∃ st w0' w1' r1 tm1' w2' r2 tm2' x,
    TriMeshStencil_init (pat [q 1 1; q 2 1]) None w0 = (w0', OK st)
    ∧ (∀ j i, 0 ≤ j < 3 → 0 ≤ i < 3 →
         at2 z4 j i = affine (Q2Qc 2) (Q2Qc 1) (at2 z1 j i))
    ∧ apply st 5%positive true None w4 = (w1', OK r1)
    ∧ heap w1' !! r1 = Some tm1'
    ∧ apply st 6%positive true None w4 = (w2', OK r2)
    ∧ heap w2' !! r2 = Some tm2'
    ∧ getitem2 (z_values tm1') 1 1 = OK x
    ∧ getitem2 (z_values tm2') 1 1 = OK (affine (Q2Qc 2) (Q2Qc 1) x).
Proof.
  destruct (TriMeshStencil_init (pat [q 1 1; q 2 1]) None w0)
    as [w0' [st|e]] eqn:Hinit; [|by vm_compute in Hinit].
  assert (∀ j i, 0 ≤ j < 3 → 0 ≤ i < 3 →
            at2 z4 j i = affine (Q2Qc 2) (Q2Qc 1) (at2 z1 j i)) as Hz.
  { intros j i Hj Hi.
    assert (j = 0 ∨ j = 1 ∨ j = 2) as [-> | [-> | ->]] by lia;
      assert (i = 0 ∨ i = 1 ∨ i = 2) as [-> | [-> | ->]] by lia;
      reflexivity. }
  destruct (apply_affine _ _ _ _ _ 5%positive 6%positive (mesh0 z1) (mesh0 z4)
              None None w4 (Q2Qc 2) (Q2Qc 1)
              Hinit ltac:(done) eq_refl eq_refl mesh0_z1_wf mesh0_z4_wf
              eq_refl eq_refl Hz)
    as (w1' & r1 & tm1' & w2' & r2 & tm2' & H1 & H2 & H3 & H4 & H5).
  destruct (H5 1 1) as (x & Hx1 & Hx2); [by vm_compute..|].
  exists st, w0', w1', r1, tm1', w2', r2, tm2', x.
  by split_and!.
Defined.

(** *** The count of the taps *)

Lemma float_of_Z_succ (k : Z) : fadd fone (float_of_Z k) = float_of_Z (1 + k).
Proof.
  unfold fone, float_of_Z. simpl. f_equal. apply Qc_is_canon. simpl.
  rewrite !Qred_correct. by rewrite inject_Z_plus.
Qed.

Lemma unit_weight_total (ts : list (float64 * float64)) :
  Forall (λ t, isnan t.1 = false ∧ t.2 = fone) ts →
  weight_total ts = float_of_Z (len ts).
Proof.
  induction 1 as [|[v s] ts [Hv Hs] _ IH]; [done|].
  cbn [fst snd] in Hv, Hs. subst s.
  rewrite weight_total_cons. cbn [fst snd]. rewrite Hv, IH, float_of_Z_succ.
  f_equal. unfold len. simpl length. lia.
Qed.

(** X2. The accumulator [ws] counts the taps: for a stencil whose weights
    are all 1 and an interior cell whose neighbours within [n - 1] steps
    are all present samples, the loops over [jp] and [ip] of
    [apply_stencil_nanmean] end with [ws = 3 n^2 - 3 n + 1], one unit for
    each point of the hexagon of [n - 1] rings around the cell: row
    [jp = 0] once and every row [jp >= 1] with its mirror. *)
Theorem cell_sums_tap_count (pattern : ndarray) (w0 w0' : world)
    (st : TriMeshStencil) (tm : TriMesh) (J I : Z) :
  TriMeshStencil_init pattern None w0 = (w0', OK st) →
  Forall (λ x, x = fone) (data pattern) →
  mesh_wf tm →
  let n := self_n st in
  let b := border_of n in
  b ≤ J < b + nj tm → b ≤ I < b + ni tm →
  (∀ j i, hex_distance (J - b) (I - b) j i ≤ n - 1 →
          isnan (source_value tm j i) = false) →
  ∃ a,
    cell_sums n (self_start_ip st) (self_row_length st) (self_half_hex st)
      (padded NaN tm b) J I (J mod 2)
    = OK (a, float_of_Z (3 * n * n - 3 * n + 1)).
Proof.
  intros Hinit Hones Hwf.
  destruct (init_inv_len _ _ _ _ _ Hinit) as (p' & _ & Hlen' & Hl').
  apply init_inv in Hinit as (_ & -> & _).
  change (final_pattern (data pattern) None) with (data pattern).
  set (p := data pattern) in *.
  assert (2 ≤ len p) as Hlen by lia.
  cbv zeta. change (self_n (built p)) with (len p). intros HJ HI Hpresent.
  pose proof (cell_sums_ok p tm J I Hwf ltac:(lia) HJ HI) as Hrun.
  cbv zeta in Hrun. change (self_n (built p)) with (len p) in Hrun.
  rewrite Hrun, acc_tap_sums, !fadd_0_l.
  eexists. do 2 f_equal.
  rewrite unit_weight_total; [by rewrite len_taps by lia|].
  apply Forall_forall.
  intros t (jp & ip & j_s & Hjp & Hip & Hjs & ->)%elem_of_taps; [|lia].
  cbn [fst snd]. split.
  - apply Hpresent.
    rewrite (tap_distance (len p)) by (done || tauto).
    pose proof (slot_ring_range (len p) jp ip Hjp Hip). lia.
  - pose proof (slot_ring_range (len p) jp ip Hjp Hip) as Hring.
    pose proof (built_weight_ring p jp ip ltac:(lia) Hjp Hip) as Hw.
    by apply (Forall_lookup_1 _ _ _ _ Hones Hw).
Qed.

(** X2, at the stencil of the pattern [[1; 1]] and the middle cell of a
    lattice of three rows of three columns without a missing sample: 7
    taps. *)
Lemma cell_sums_tap_count_witness :
  ∃ st w0' a,
    TriMeshStencil_init (pat [q 1 1; q 1 1]) None w0 = (w0', OK st)
    ∧ (∀ j i, hex_distance 1 1 j i ≤ 1 →
              isnan (source_value (mesh0 z3) j i) = false)
    ∧ cell_sums (self_n st) (self_start_ip st) (self_row_length st)
        (self_half_hex st) (padded NaN (mesh0 z3) 2) 3 3 1
      = OK (a, float_of_Z 7).
Proof.
  destruct (TriMeshStencil_init (pat [q 1 1; q 1 1]) None w0)
    as [w0' [st|e]] eqn:Hinit; [|by vm_compute in Hinit].
  assert (self_n st = 2) as Hn
    by (apply init_inv in Hinit as (_ & -> & _); reflexivity).
  assert (∀ j i, hex_distance 1 1 j i ≤ 1 →
            isnan (source_value (mesh0 z3) j i) = false) as Hpresent.
  { intros j i Hd. unfold hex_distance, lattice_x2 in Hd. cbv zeta in Hd.
    assert (j = 0 ∨ j = 1 ∨ j = 2) as Hj by lia.
    assert (i = 0 ∨ i = 1 ∨ i = 2) as Hi
      by (destruct Hj as [-> | [-> | ->]]; Z.div_mod_to_equations; lia).
    destruct Hj as [-> | [-> | ->]]; destruct Hi as [-> | [-> | ->]];
      reflexivity. }
  pose proof (cell_sums_tap_count _ _ _ _ (mesh0 z3) 3 3 Hinit
                ltac:(by repeat constructor) mesh0_z3_wf) as Hcount.
  cbv zeta in Hcount. rewrite Hn in Hcount.
  destruct Hcount as (a & Hrun); [by vm_compute..|exact Hpresent|].
  exists st, w0', a. rewrite Hn.
  split_and!; [done | exact Hpresent | exact Hrun].
Defined.
